(** * spectrum_utils.fragment_annotation

    A shallow embedding of [spectrum_utils/fragment_annotation.py]: the
    [FragmentAnnotation] value object (validation in [__init__] and the two
    property setters, canonical rendering in [__str__]) and the fragment
    generator [get_theoretical_fragments].

    Conventions of the embedding.
    - Python [str] is [string] (8-bit characters); [int] is [Z]; an
      [Optional[T]] is [option T].
    - Python [float] masses are idealised as exact rationals [Q]: the
      operations [+], [-], [/] of the source are [Qplus], [Qminus], [Qdiv]
      applied in the order the source applies them, so equalities between
      masses that the code computes by the same expression are Leibniz
      equalities, and the others are stated with [==].
    - A raised exception is a value of [exn]; a function that can raise
      returns a [result]. *)

From Stdlib Require Import List String Ascii ZArith QArith Bool Lia Lqa.
From Stdlib Require Import Permutation Sorted DecimalString DecimalNat DecimalZ.
Import ListNotations.

Open Scope string_scope.
Open Scope Z_scope.

(** ** Exceptions *)

Inductive exn : Type :=
| IndexError
| NotImplementedError
| ValueError
| TypeError
| PyteomicsError.

Inductive result (A : Type) : Type :=
| Ok (a : A)
| Raise (e : exn).

Arguments Ok {A} a.
Arguments Raise {A} e.

Definition bind {A B : Type} (m : result A) (k : A -> result B) : result B :=
  match m with
  | Ok a => k a
  | Raise e => Raise e
  end.

Notation "x <- m ;; k" := (bind m (fun x => k))
  (at level 61, m at next level, right associativity).

Definition raises {A : Type} (m : result A) : Prop :=
  exists e, m = Raise e.

Definition is_some {A : Type} (o : option A) : bool :=
  match o with Some _ => true | None => false end.

(** [list.append]. *)
Definition append {A : Type} (l : list A) (x : A) : list A := (l ++ [x])%list.

(** ** Strings *)

(** [c in s] for a one-character [c]. *)
Definition char_in (c : ascii) (s : string) : bool :=
  existsb (Ascii.eqb c) (list_ascii_of_string s).

(** [f"{n}"] for an [int]. *)
Definition fmt_int (n : Z) : string :=
  NilZero.string_of_int (Z.to_int n).

(** [f"{n}"] for an [Optional[int]]. *)
Definition fmt_opt_int (n : option Z) : string :=
  match n with
  | Some n => fmt_int n
  | None => "None"
  end.

(** [f"{n:+}"]: the sign is always written. *)
Definition fmt_int_signed (n : Z) : string :=
  if n <? 0 then fmt_int n else "+" ++ fmt_int n.

(** [str.startswith]. *)
Definition startswith (s p : string) : bool := String.prefix p s.

(** A decimal digit, [\d] on 8-bit characters. *)
Definition is_digit (c : ascii) : bool :=
  ((48 <=? nat_of_ascii c) && (nat_of_ascii c <=? 57))%nat.

Fixpoint skip_digits (s : string) : string :=
  match s with
  | String c r => if is_digit c then skip_digits r else s
  | EmptyString => s
  end.

(** [re.match(r"\[M\+\d+H\]", s) is not None]: the pattern is anchored at
    the start of [s] only; [\d+] is greedy, and as ["H"] is no digit there is
    nothing to backtrack over. *)
Definition re_match_default_adduct (s : string) : bool :=
  match s with
  | String c1 (String c2 (String c3 (String d r))) =>
      (c1 =? "[")%char && (c2 =? "M")%char && (c3 =? "+")%char
      && is_digit d && startswith (skip_digits r) "H]"
  | _ => false
  end.

(** ** FragmentAnnotation *)

Section Annotation.

(** [f"{x}"] for the [float] of an m/z delta. *)
Variable fmt_float : Q -> string.

Record FragmentAnnotation : Type := {
  ion_type : string;
  neutral_loss : option string;
  isotope : Z;
  charge : option Z;
  adduct : string;
  analyte_number : option Z;
  mz_delta : option (Q * string)
}.

(** The [mz_delta] setter. *)
Definition mz_delta_setter (mz_delta : option (Q * string))
  : result (option (Q * string)) :=
  match mz_delta with
  | Some (_, unit) =>
      if negb ((unit =? "Da") || (unit =? "ppm"))%string then Raise ValueError
      else Ok mz_delta
  | None => Ok mz_delta
  end.

(** The [charge] setter; it reads [self.ion_type]. *)
Definition charge_setter (ion_type : string) (charge : option Z)
  : result (option Z) :=
  if (ion_type =? "?")%string && is_some charge then Raise ValueError
  else if negb (ion_type =? "?")%string
          && match charge with None => true | Some c => c <=? 0 end
  then Raise ValueError
  else Ok charge.

(** [FragmentAnnotation.__init__]. *)
Definition FragmentAnnotation_init
    (ion_type : string) (neutral_loss : option string) (isotope : Z)
    (charge : option Z) (adduct : option string) (analyte_number : option Z)
    (mz_delta : option (Q * string)) : result FragmentAnnotation :=
  match ion_type with
  | EmptyString => Raise IndexError
  | String c0 _ =>
      if char_in c0 "GLXS" then Raise NotImplementedError
      else if negb (char_in c0 "?abcxyzIm_prf") then Raise ValueError
      else if (ion_type =? "?")%string
              && (is_some neutral_loss
                  || negb (isotope =? 0)
                  || is_some charge
                  || is_some adduct
                  || is_some analyte_number
                  || is_some mz_delta)
      then Raise ValueError
      else
        charge' <- charge_setter ion_type charge ;;
        let adduct' :=
          match adduct with
          | None => "[M+" ++ fmt_opt_int charge' ++ "H]"
          | Some a => a
          end in
        mz_delta' <- mz_delta_setter mz_delta ;;
        Ok {| ion_type := ion_type;
              neutral_loss := neutral_loss;
              isotope := isotope;
              charge := charge';
              adduct := adduct';
              analyte_number := analyte_number;
              mz_delta := mz_delta' |}
  end.

(** [FragmentAnnotation.__str__]: the tokens are appended to [annot_str] one
    after the other and joined at the end. *)
Definition FragmentAnnotation_str (self : FragmentAnnotation) : string :=
  if (ion_type self =? "?")%string then "?"
  else
    let annot_str := [] in
    let annot_str :=
      match analyte_number self with
      | Some n => append annot_str (fmt_int n ++ "@")
      | None => annot_str
      end in
    let annot_str := append annot_str (ion_type self) in
    let annot_str :=
      match neutral_loss self with
      | Some nl => append annot_str nl
      | None => annot_str
      end in
    let annot_str :=
      if Z.abs (isotope self) =? 1
      then append annot_str (if isotope self >? 0 then "+i" else "-i")
      else if negb (isotope self =? 0)
      then append annot_str (fmt_int_signed (isotope self) ++ "i")
      else annot_str in
    let annot_str :=
      match charge self with
      | Some c => if c >? 1 then append annot_str ("^" ++ fmt_int c)
                  else annot_str
      | None => annot_str
      end in
    let annot_str :=
      if negb (re_match_default_adduct (adduct self))
      then append annot_str (adduct self)
      else annot_str in
    let annot_str :=
      match mz_delta self with
      | Some (delta, unit) =>
          append annot_str
            ("/" ++ fmt_float delta
               ++ (if (unit =? "ppm")%string then "ppm" else ""))
      | None => annot_str
      end in
    String.concat "" annot_str.

(** [FragmentAnnotation.__eq__] on two annotations. *)
Definition FragmentAnnotation_eq (self other : FragmentAnnotation) : bool :=
  (FragmentAnnotation_str self =? FragmentAnnotation_str other)%string.

End Annotation.

(** ** Loops *)

(** [while cond: body], run for at most [fuel] iterations.  Every loop of
    the source advances a cursor over the modification list, so the length of
    that list (plus one) is fuel enough: see [while_exit]. *)
Fixpoint while {S : Type} (fuel : nat) (cond : S -> bool) (body : S -> S)
    (s : S) : S :=
  match fuel with
  | O => s
  | Datatypes.S fuel' =>
      if cond s then while fuel' cond body (body s) else s
  end.

(** The same loop when the condition or the body can raise. *)
Fixpoint while_r {S : Type} (fuel : nat) (cond : S -> result bool)
    (body : S -> result S) (s : S) : result S :=
  match fuel with
  | O => Ok s
  | Datatypes.S fuel' =>
      c <- cond s ;;
      if c then s' <- body s ;; while_r fuel' cond body s' else Ok s
  end.

(** [for x in l: s = f(s, x)] when [f] can raise. *)
Fixpoint for_r {A S : Type} (f : S -> A -> result S) (l : list A) (s : S)
  : result S :=
  match l with
  | [] => Ok s
  | x :: l' => s' <- f s x ;; for_r f l' s'
  end.

(** The values collected by a loop that appends one [g x] per iteration. *)
Fixpoint map_r {A B : Type} (g : A -> result B) (l : list A)
  : result (list B) :=
  match l with
  | [] => Ok []
  | x :: l' => y <- g x ;; ys <- map_r g l' ;; Ok (y :: ys)
  end.

(** The successive states of a loop that threads a state through [l]. *)
Fixpoint scan {A S : Type} (g : S -> A -> S) (l : list A) (s : S)
  : list (A * S) :=
  match l with
  | [] => []
  | x :: l' => (x, g s x) :: scan g l' (g s x)
  end.

(** [range(lo, hi)]. *)
Definition range (lo hi : nat) : list nat := seq lo (hi - lo).

(** ** Dictionaries

    A Python [dict] keeps its keys unique and in insertion order. *)

Definition dict (K V : Type) : Type := list (K * V).

Fixpoint dict_set {V : Type} (d : dict string V) (k : string) (v : V)
  : dict string V :=
  match d with
  | [] => [(k, v)]
  | (k', v') :: d' =>
      if (k' =? k)%string then (k, v) :: d' else (k', v') :: dict_set d' k v
  end.

Fixpoint dict_get {V : Type} (d : dict string V) (k : string) : option V :=
  match d with
  | [] => None
  | (k', v) :: d' => if (k' =? k)%string then Some v else dict_get d' k
  end.

(** [{**d}]: a fresh dictionary with the items of [d]. *)
Definition dict_copy {V : Type} (d : list (string * V)) : dict string V :=
  fold_left (fun acc kv => dict_set acc (fst kv) (snd kv)) d [].

(** ** Peptides and modifications

    The generator reads its peptide through the classes of
    [spectrum_utils.proforma], a module that is not among the sources. *)

(** Modelled from the spec: the position of a modification, declared in
    [spectrum_utils.proforma]: an integer residue index ([int]) or a
    symbolic value such as "N-term" or "C-term" ([str]). *)
Inductive position_t : Type :=
| PosInt (i : Z)
| PosStr (s : string).

(** Modelled from the spec: the class [proforma.Modification], of which the
    generator reads the position and the signed mass delta. *)
Record Modification : Type := {
  mass : Q;
  position : position_t
}.

(** Modelled from the spec: the class [proforma.Proteoform], of which the
    generator reads the sequence of one-letter residue codes and the list
    of modifications, which is [None] for a peptide without any. *)
Record Proteoform : Type := {
  sequence : string;
  modifications : option (list Modification)
}.

(** [isinstance(pos, str)], [isinstance(pos, int)], [pos == s]. *)
Definition is_str (pos : position_t) : bool :=
  match pos with PosStr _ => true | PosInt _ => false end.

Definition is_int (pos : position_t) : bool :=
  match pos with PosInt _ => true | PosStr _ => false end.

Definition pos_eq (pos : position_t) (s : string) : bool :=
  match pos with PosStr s' => (s' =? s)%string | PosInt _ => false end.

(** [pos < n] and [pos >= n] behind an [isinstance(pos, int)] guard. *)
Definition int_lt (pos : position_t) (n : Z) : bool :=
  match pos with PosInt i => i <? n | PosStr _ => false end.

Definition int_ge (pos : position_t) (n : Z) : bool :=
  match pos with PosInt i => i >=? n | PosStr _ => false end.

(** [pos < n] without a guard: comparing a [str] with an [int] raises. *)
Definition lt_unguarded (pos : position_t) (n : Z) : result bool :=
  match pos with
  | PosInt i => Ok (i <? n)
  | PosStr _ => Raise TypeError
  end.

(** [proteoform.modifications[i]] behind the guard
    [proteoform.modifications is not None and 0 <= i < len(...)]. *)
Definition mod_at (p : Proteoform) (i : nat) : option Modification :=
  match modifications p with
  | Some ms => nth_error ms i
  | None => None
  end.

Definition mods_len (p : Proteoform) : nat :=
  match modifications p with
  | Some ms => List.length ms
  | None => O
  end.

(** [sum(l)]: the additions start from [0] and go left to right. *)
Definition sum (l : list Q) : Q := fold_left Qplus l 0%Q.

Definition Qltb (x y : Q) : bool := negb (Qle_bool y x).

(** ** The external collaborators *)

(** Modelled from the spec: what the library [pyteomics.mass], which is not
    part of the repository, supplies.  These are the residue table
    [std_aa_mass], the formula routine [calculate_mass] and the data read by
    [fast_mass]: the entries [mass_data['H'][0][0]], [mass_data['O'][0][0]]
    and [mass_data['H+'][0][0]] of [nist_mass], and for each ion type the
    mass of its composition [std_ion_comp[ion_type]] ([None] where that
    lookup is a [KeyError]).  They are parameters of the model. *)
Record Pyteomics : Type := {
  std_aa_mass : list (string * Q);
  calculate_mass : string -> Q;
  nist_H : Q;
  nist_O : Q;
  nist_proton : Q;
  std_ion_comp : string -> option Q
}.

(** Iterating over the Python set [set(s1) & set(s2)] visits each element
    once.  The order is fixed by the string hashes of the running
    interpreter and by the way the set was built: it depends on the operand
    [s2], on the order of its characters too, and not only on the elements
    of the set.  [set_iter s2 l] is the order in which the elements [l] of
    the intersection with the operand [s2] are visited. *)
Record SetOrder : Type := {
  set_iter : string -> list ascii -> list ascii;
  set_iter_perm : forall s2 l, Permutation (set_iter s2 l) l
}.

(** The elements of [set(s1) & set(s2)] for a literal [s1] without repeated
    characters, listed in the order of [s1]; the order of the iteration is
    given by [set_iter]. *)
Definition set_inter (s1 s2 : string) : list ascii :=
  filter (fun c => char_in c s2) (list_ascii_of_string s1).

Definition str1 (c : ascii) : string := String c EmptyString.

(** ** Mass tables *)

Definition _aa_mass (E : Pyteomics) : dict string Q :=
  dict_set (dict_set (dict_copy (std_aa_mass E)) "J" 113.08406%Q) "X" 0%Q.

(** [aa_mass[aa]] inside [fast_mass]: a residue without an entry raises. *)
Definition residue_mass (aa_mass : dict string Q) (aa : ascii) : result Q :=
  match dict_get aa_mass (str1 aa) with
  | Some m => Ok m
  | None => Raise PyteomicsError
  end.

(** Modelled from the spec: the mass-calculation routine
    [pyteomics.mass.fast_mass(sequence, ion_type, charge, aa_mass=...)],
    which is not part of the repository, as the standard monoisotopic
    formula: the residue masses are summed, a water is added, then the
    composition of the ion type, and the result is protonated and divided
    by the charge.  A residue or an ion type that is not in its table
    raises. *)
Definition fast_mass (E : Pyteomics) (sequence ion_type : string)
    (charge : Z) (aa_mass : dict string Q) : result Q :=
  residues <-
    for_r (fun acc aa => m <- residue_mass aa_mass aa ;; Ok (append acc m))
      (list_ascii_of_string sequence) [] ;;
  let mass := sum residues in
  let mass := (mass + (nist_H E * 2 + nist_O E))%Q in
  mass <-
    (if (ion_type =? "")%string then Ok mass
     else match std_ion_comp E ion_type with
          | Some icomp => Ok (mass + icomp)%Q
          | None => Raise PyteomicsError
          end) ;;
  Ok (if charge =? 0 then mass
      else ((mass + nist_proton E * inject_Z charge) / inject_Z charge)%Q).

(** ** The generator *)

(** The third component of a base-fragment tuple is an [int] (a terminal
    fragment) or a [str] (an internal range, or ["p"]). *)
Inductive frag_index : Type :=
| FragInt (i : Z)
| FragStr (s : string).

Definition base_fragment : Type := (string * string * frag_index * Q)%type.

Definition fragment_mass : Type := (FragmentAnnotation * Q)%type.

Section Generator.

Variable E : Pyteomics.
Variable order : SetOrder.
Variable proteoform : Proteoform.

(** *** N-terminal fragments *)

Definition unlocalized_cond (mod_i : nat) : bool :=
  match mod_at proteoform mod_i with
  | Some m => is_str (position m) && negb (pos_eq (position m) "N-term")
  | None => false
  end.

Definition prefix_cond (fragment_i : nat) (st : nat * Q) : bool :=
  match mod_at proteoform (fst st) with
  | Some m =>
      pos_eq (position m) "N-term"
      || (is_int (position m)
          && int_lt (position m) (Z.of_nat fragment_i))
  | None => false
  end.

(** [mod_mass += proteoform.modifications[mod_i].mass; mod_i += 1]. *)
Definition prefix_body (st : nat * Q) : nat * Q :=
  match mod_at proteoform (fst st) with
  | Some m => (S (fst st), (snd st + mass m)%Q)
  | None => st
  end.

(** The two [while] loops of the N-terminal walk: skip the unlocalized
    modifications, then include the prefix modifications. *)
Definition prefix_modifications (fragment_i : nat) (st : nat * Q) : nat * Q :=
  let '(mod_i, mod_mass) := st in
  let mod_i := while (mods_len proteoform) unlocalized_cond S mod_i in
  while (mods_len proteoform) (prefix_cond fragment_i) prefix_body
    (mod_i, mod_mass).

(** The body of [for fragment_i in range(1, len(proteoform.sequence))];
    the state is [(mod_i, mod_mass, base_fragments)]. *)
Definition n_terminal_fragment (ion_type : string)
    (st : nat * Q * list base_fragment) (fragment_i : nat)
  : nat * Q * list base_fragment :=
  let '(mod_i, mod_mass, base_fragments) := st in
  let fragment_sequence := substring 0 fragment_i (sequence proteoform) in
  let '(mod_i, mod_mass) :=
    prefix_modifications fragment_i (mod_i, mod_mass) in
  (mod_i, mod_mass,
   append base_fragments
     (fragment_sequence, ion_type, FragInt (Z.of_nat fragment_i), mod_mass)).

(** [for ion_type in set("abc") & set(ion_types)]: [mod_i] and [mod_mass]
    are initialised once, before this loop. *)
Definition n_terminal_fragments (ion_types : string)
    (st : nat * Q * list base_fragment) : nat * Q * list base_fragment :=
  fold_left
    (fun st ion_type =>
       fold_left (n_terminal_fragment (str1 ion_type))
         (range 1 (String.length (sequence proteoform))) st)
    (set_iter order ion_types (set_inter "abc" ion_types)) st.

(** *** C-terminal fragments *)

Definition suffix_cond (fragment_i : nat) (st : option Z * Q) : bool :=
  match modifications proteoform, fst st with
  | Some ms, Some mod_i =>
      (mod_i >=? 0)
      && match nth_error ms (Z.to_nat mod_i) with
         | Some m =>
             pos_eq (position m) "C-term"
             || (is_int (position m)
                 && int_ge (position m) (Z.of_nat fragment_i))
         | None => false
         end
  | _, _ => false
  end.

(** [mod_mass += proteoform.modifications[mod_i].mass; mod_i -= 1]. *)
Definition suffix_body (st : option Z * Q) : option Z * Q :=
  match modifications proteoform, fst st with
  | Some ms, Some mod_i =>
      match nth_error ms (Z.to_nat mod_i) with
      | Some m => (Some (mod_i - 1), (snd st + mass m)%Q)
      | None => st
      end
  | _, _ => st
  end.

(** The [while] loop of the C-terminal walk. *)
Definition suffix_modifications (fragment_i : nat) (st : option Z * Q)
  : option Z * Q :=
  while (S (mods_len proteoform)) (suffix_cond fragment_i) suffix_body st.

(** The body of [for fragment_i in range(len(proteoform.sequence) - 1, 0, -1)]. *)
Definition c_terminal_fragment (ion_type : string)
    (st : option Z * Q * list base_fragment) (fragment_i : nat)
  : option Z * Q * list base_fragment :=
  let '(mod_i, mod_mass, base_fragments) := st in
  let len := String.length (sequence proteoform) in
  let fragment_sequence :=
    substring fragment_i (len - fragment_i) (sequence proteoform) in
  let '(mod_i, mod_mass) :=
    suffix_modifications fragment_i (mod_i, mod_mass) in
  (mod_i, mod_mass,
   append base_fragments
     (fragment_sequence, ion_type,
      FragInt (Z.of_nat len - Z.of_nat fragment_i), mod_mass)).

Definition c_terminal_fragments (ion_types : string)
    (st : option Z * Q * list base_fragment)
  : option Z * Q * list base_fragment :=
  fold_left
    (fun st ion_type =>
       fold_left (c_terminal_fragment (str1 ion_type))
         (rev (range 1 (String.length (sequence proteoform)))) st)
    (set_iter order ion_types (set_inter "xyz" ion_types)) st.

(** *** Internal fragments *)

Definition internal_skip_cond (start_i : nat) (mod_i_start : nat) : bool :=
  match mod_at proteoform mod_i_start with
  | Some m =>
      is_str (position m) || int_lt (position m) (Z.of_nat start_i)
  | None => false
  end.

Definition internal_cond (stop_i : nat) (st : nat * Q) : result bool :=
  match mod_at proteoform (fst st) with
  | Some m => lt_unguarded (position m) (Z.of_nat stop_i)
  | None => Ok false
  end.

(** Modelled from the spec: [x + m] for a number [x] and a [Modification]
    object [m].  The class, declared in [spectrum_utils.proforma], is a
    record of a position and a mass delta and defines no arithmetic, so the
    addition raises. *)
Definition add_modification_object (x : Q) (m : Modification) : result Q :=
  Raise TypeError.

(** [mod_mass += proteoform.modifications[mod_i_stop]; mod_i_stop += 1]:
    the right operand is the modification itself, not its [mass]. *)
Definition internal_body (st : nat * Q) : result (nat * Q) :=
  match mod_at proteoform (fst st) with
  | Some m =>
      mod_mass <- add_modification_object (snd st) m ;;
      Ok (S (fst st), mod_mass)
  | None => Ok st
  end.

(** The body of [for stop_i in range(start_i + 2, len(proteoform.sequence))];
    the state is [(mod_i_stop, mod_mass, base_fragments)]. *)
Definition internal_fragment (start_i : nat)
    (st : nat * Q * list base_fragment) (stop_i : nat)
  : result (nat * Q * list base_fragment) :=
  let '(mod_i_stop, mod_mass, base_fragments) := st in
  let fragment_sequence :=
    substring start_i (stop_i - start_i) (sequence proteoform) in
  st' <- while_r (mods_len proteoform) (internal_cond stop_i) internal_body
           (mod_i_stop, mod_mass) ;;
  let '(mod_i_stop, mod_mass) := st' in
  Ok (mod_i_stop, mod_mass,
      append base_fragments
        (fragment_sequence, "b",
         FragStr (fmt_int (Z.of_nat start_i + 1) ++ ":"
                    ++ fmt_int (Z.of_nat stop_i + 1)),
         mod_mass)).

(** The body of [for start_i in range(1, len(proteoform.sequence))]. *)
Definition internal_fragments_from (base_fragments : list base_fragment)
    (start_i : nat) : result (list base_fragment) :=
  let mod_i_start := O in
  let mod_mass := 0%Q in
  let mod_i_start :=
    while (mods_len proteoform) (internal_skip_cond start_i) S mod_i_start in
  let mod_i_stop := mod_i_start in
  st <- for_r (internal_fragment start_i)
          (range (start_i + 2) (String.length (sequence proteoform)))
          (mod_i_stop, mod_mass, base_fragments) ;;
  Ok (snd st).

(** *** All base fragments *)

Definition get_base_fragments (ion_types : string)
  : result (list base_fragment) :=
  let base_fragments := [] in
  let '(_, mod_mass, base_fragments) :=
    n_terminal_fragments ion_types (O, 0%Q, base_fragments) in
  let '(mod_i, mod_mass) :=
    match modifications proteoform with
    | Some ms => (Some (Z.of_nat (List.length ms) - 1), 0%Q)
    | None => (None, mod_mass)
    end in
  let '(_, _, base_fragments) :=
    c_terminal_fragments ion_types (mod_i, mod_mass, base_fragments) in
  base_fragments <-
    (if char_in "m" ion_types
     then for_r internal_fragments_from
            (range 1 (String.length (sequence proteoform))) base_fragments
     else Ok base_fragments) ;;
  Ok (if char_in "p" ion_types
      then
        let mod_mass :=
          match modifications proteoform with
          | Some ms => sum (map mass ms)
          | None => 0%Q
          end in
        append base_fragments
          (sequence proteoform, "M", FragStr "p", mod_mass)
      else base_fragments).

(** *** Charged masses *)

Definition annot_type_of (ion_type : string) (fragment_i : frag_index)
  : string :=
  match fragment_i with
  | FragStr s =>
      if char_in ":" s then "m" ++ s
      else if (s =? "p")%string then "p"
      else "?"
  | FragInt i => ion_type ++ fmt_int i
  end.

(** The tuple built for one base fragment and one charge. *)
Definition charged_mass (bf : base_fragment) (charge : Z)
  : result fragment_mass :=
  let '(fragment_sequence, ion_type, fragment_i, mod_mass) := bf in
  let annot_type := annot_type_of ion_type fragment_i in
  annot <- FragmentAnnotation_init annot_type None 0 (Some charge)
             None None None ;;
  m <- fast_mass E fragment_sequence ion_type charge (_aa_mass E) ;;
  Ok (annot, (m + mod_mass / inject_Z charge)%Q).

(** The body of [for charge in range(1, max_charge + 1)]. *)
Definition charged_fragment (bf : base_fragment)
    (fragments_masses : list fragment_mass) (charge : Z)
  : result (list fragment_mass) :=
  fm <- charged_mass bf charge ;;
  Ok (append fragments_masses fm).

Definition charges (max_charge : Z) : list Z :=
  map Z.of_nat (range 1 (Z.to_nat (max_charge + 1))).

Definition charged_fragments (max_charge : Z)
    (base_fragments : list base_fragment) : result (list fragment_mass) :=
  for_r (fun fragments_masses bf =>
           for_r (charged_fragment bf) (charges max_charge) fragments_masses)
    base_fragments [].

(** *** Immonium ions *)

(** The tuple built for one residue of the table. *)
Definition immonium_mass (mass_diff : Q) (aa : string) (mass : Q)
  : result fragment_mass :=
  annot <- FragmentAnnotation_init ("I" ++ aa) None 0 (Some 1)
             None None None ;;
  Ok (annot, (mass - mass_diff)%Q).

Definition immonium_fragments (fragments_masses : list fragment_mass)
  : result (list fragment_mass) :=
  let mass_diff :=
    (calculate_mass E "CO" - calculate_mass E "H")%Q in
  for_r (fun fragments_masses (item : string * Q) =>
           let '(aa, mass) := item in
           if negb (aa =? "X")%string
           then
             fm <- immonium_mass mass_diff aa mass ;;
             Ok (append fragments_masses fm)
           else Ok fragments_masses)
    (_aa_mass E) fragments_masses.

(** *** Neutral losses *)

(** [mass + mass_diff / fragment.charge]; dividing by [None] raises. *)
Definition loss_mass (mass mass_diff : Q) (charge : option Z) : result Q :=
  match charge with
  | Some c => Ok (mass + mass_diff / inject_Z c)%Q
  | None => Raise TypeError
  end.

(** The tuple built for one neutral loss and one fragment. *)
Definition loss_fragment (neutral_loss : string) (mass_diff : Q)
    (fm : fragment_mass) : result fragment_mass :=
  let '(fragment, mass) := fm in
  annot <- FragmentAnnotation_init (ion_type fragment) (Some neutral_loss) 0
             (charge fragment) None None None ;;
  m <- loss_mass mass mass_diff (charge fragment) ;;
  Ok (annot, m).

(** [f"{'-' if mass_diff < 0 else '+'}{neutral_loss}"]. *)
Definition loss_token (name : string) (mass_diff : Q) : string :=
  (if Qltb mass_diff 0 then "-" else "+") ++ name.

Definition neutral_loss_fragments_of
    (neutral_losses : dict (option string) Q)
    (fragments_masses : list fragment_mass) : result (list fragment_mass) :=
  for_r (fun neutral_loss_fragments (item : option string * Q) =>
           let '(neutral_loss, mass_diff) := item in
           match neutral_loss with
           | None => Ok neutral_loss_fragments
           | Some name =>
               let neutral_loss := loss_token name mass_diff in
               for_r (fun neutral_loss_fragments (fm : fragment_mass) =>
                        lf <- loss_fragment neutral_loss mass_diff fm ;;
                        Ok (append neutral_loss_fragments lf))
                 fragments_masses neutral_loss_fragments
           end)
    neutral_losses [].

(** *** Sorting *)

(** [sorted(l, key=operator.itemgetter(1))]: ascending in the key, compared
    with [<] only, and stable.  On the total order of the rationals that
    arrangement is unique; inserting the elements from the right, each one
    before the first element that is not smaller, computes it. *)
Fixpoint insert_by_mass {A : Type} (x : A * Q) (l : list (A * Q))
  : list (A * Q) :=
  match l with
  | [] => [x]
  | y :: l' =>
      if Qltb (snd y) (snd x) then y :: insert_by_mass x l' else x :: l
  end.

Definition sorted_by_mass {A : Type} (l : list (A * Q)) : list (A * Q) :=
  fold_right insert_by_mass [] l.

(** *** get_theoretical_fragments *)

(** The list [fragments_masses] as it stands before the neutral-loss
    expansion. *)
Definition get_fragments_masses (ion_types : string) (max_charge : Z)
  : result (list fragment_mass) :=
  if char_in "B" (sequence proteoform) then Raise ValueError
  else if char_in "Z" (sequence proteoform) then Raise ValueError
  else
    base_fragments <- get_base_fragments ion_types ;;
    fragments_masses <- charged_fragments max_charge base_fragments ;;
    if char_in "I" ion_types then immonium_fragments fragments_masses
    else Ok fragments_masses.

(** [{None: 0} if neutral_losses is None else neutral_losses]. *)
Definition default_losses (neutral_losses : option (dict (option string) Q))
  : dict (option string) Q :=
  match neutral_losses with
  | None => [(None, 0%Q)]
  | Some d => d
  end.

Definition get_theoretical_fragments (ion_types : string) (max_charge : Z)
    (neutral_losses : option (dict (option string) Q))
  : result (list fragment_mass) :=
  let neutral_losses := default_losses neutral_losses in
  fragments_masses <- get_fragments_masses ion_types max_charge ;;
  neutral_loss_fragments <-
    neutral_loss_fragments_of neutral_losses fragments_masses ;;
  let fragments_masses := (fragments_masses ++ neutral_loss_fragments)%list in
  Ok (sorted_by_mass fragments_masses).

End Generator.

(** ** An instance of the collaborators

    The model is evaluated on this instance: the residue table with the
    monoisotopic masses of the standard residues, the masses of H, O and the
    proton, and the compositions of the ion types relative to the neutral
    peptide.  Sets are iterated in the order of their canonical listing. *)

Definition sample_std_aa_mass : list (string * Q) :=
  [("G", 57.02146); ("A", 71.03711); ("S", 87.03203); ("P", 97.05276);
   ("V", 99.06841); ("T", 101.04768); ("C", 103.00919); ("L", 113.08406);
   ("I", 113.08406); ("J", 113.08406); ("N", 114.04293); ("D", 115.02694);
   ("Q", 128.05858); ("K", 128.09496); ("E", 129.04259); ("M", 131.04049);
   ("H", 137.05891); ("F", 147.06841); ("U", 150.95364); ("R", 156.10111);
   ("Y", 163.06333); ("W", 186.07931); ("O", 237.14773)]%Q.

Definition sample_calculate_mass (formula : string) : Q :=
  if (formula =? "CO")%string then 27.99491461956%Q
  else if (formula =? "H")%string then 1.00782503207%Q
  else 0%Q.

Definition sample_ion_comp (ion_type : string) : option Q :=
  if (ion_type =? "a")%string then Some (- 46.0054793036)%Q
  else if (ion_type =? "b")%string then Some (- 18.0105646837)%Q
  else if (ion_type =? "c")%string then Some 15.0108990369%Q
  else if (ion_type =? "x")%string then Some 25.9792645554%Q
  else if (ion_type =? "y")%string then Some 0%Q
  else if (ion_type =? "z")%string then Some (- 17.0265491015)%Q
  else if (ion_type =? "M")%string then Some 0%Q
  else None.

Definition sample_pyteomics : Pyteomics :=
  {| std_aa_mass := sample_std_aa_mass;
     calculate_mass := sample_calculate_mass;
     nist_H := 1.00782503207%Q;
     nist_O := 15.99491461956%Q;
     nist_proton := 1.00727646677%Q;
     std_ion_comp := sample_ion_comp |}.

Definition listing_order : SetOrder :=
  {| set_iter := fun _ l => l;
     set_iter_perm := fun _ l => Permutation_refl l |}.

(** The same sets iterated in the reverse order. *)
Definition reverse_order : SetOrder :=
  {| set_iter := fun _ => @rev ascii;
     set_iter_perm := fun _ l => Permutation_sym (Permutation_rev l) |}.

(** An order that depends on the operand: the elements are visited in the
    listing order, or in the reverse order when the operand begins with
    "b", so that "ab" and "ba", which give the same set, are walked
    differently. *)
Definition operand_order : SetOrder :=
  {| set_iter := fun s2 l => if startswith s2 "b" then rev l else l;
     set_iter_perm :=
       fun s2 l =>
         if startswith s2 "b" as b
           return Permutation (if b then rev l else l) l
         then Permutation_sym (Permutation_rev l)
         else Permutation_refl l |}.

(** Sample peptides. *)
Definition unmodified (sequence : string) : Proteoform :=
  {| sequence := sequence; modifications := None |}.

Definition oxidised_PEPTIDE : Proteoform :=
  {| sequence := "PEPTIDE";
     modifications := Some [{| mass := 15.9949%Q; position := PosInt 3 |}] |}.

(** "PEPTIDE" acetylated at the N-terminus, oxidised at index 3 and
    amidated at the C-terminus, the modifications listed by position. *)
Definition acetylated_PEPTIDE : Proteoform :=
  {| sequence := "PEPTIDE";
     modifications :=
       Some [{| mass := 42.0106%Q; position := PosStr "N-term" |};
             {| mass := 15.9949%Q; position := PosInt 3 |};
             {| mass := (- 0.984)%Q; position := PosStr "C-term" |}] |}.

(** * Specification-side definitions

    The statements of the specification, in its own words, to be compared
    with the embedding above. *)

(** ** Construction *)

(** The first character of [s] is one of the characters of [allowed]. *)
Definition first_char_in (s allowed : string) : Prop :=
  exists c rest,
    s = String c rest /\ In c (list_ascii_of_string allowed).

(** The cases in which the construction of an annotation must fail. *)
Definition construction_invalid
    (ion_type : string) (neutral_loss : option string) (isotope : Z)
    (charge : option Z) (adduct : option string) (analyte_number : option Z)
    (mz_delta : option (Q * string)) : Prop :=
  first_char_in ion_type "GLXS"
  \/ ~ first_char_in ion_type "?abcxyzIm_prf"
  \/ (ion_type = "?"
      /\ (neutral_loss <> None \/ isotope <> 0 \/ charge <> None
          \/ adduct <> None \/ analyte_number <> None \/ mz_delta <> None))
  \/ (ion_type <> "?"
      /\ (charge = None \/ exists c, charge = Some c /\ c <= 0))
  \/ (exists delta unit,
         mz_delta = Some (delta, unit) /\ unit <> "Da" /\ unit <> "ppm").

(** ** Rendering *)

(** [s] begins with a substring of the form [[M+<digits>H]]. *)
Definition default_adduct_prefix (s : string) : Prop :=
  exists digits rest,
    digits <> ""
    /\ forallb is_digit (list_ascii_of_string digits) = true
    /\ s = "[M+" ++ digits ++ "H]" ++ rest.

(** The longest run of decimal digits at the start of [s]. *)
Fixpoint leading_digits (s : string) : string :=
  match s with
  | String c r => if is_digit c then String c (leading_digits r) else ""
  | EmptyString => ""
  end.

(** The adduct matches the default pattern [[M+<digits>H]]: it begins with
    "[M+", then comes a run of one or more digits, then "H]". *)
Definition begins_with_default_adduct (s : string) : bool :=
  let digits := leading_digits (substring 3 (String.length s - 3) s) in
  negb (digits =? "")%string
  && String.prefix ("[M+" ++ digits ++ "H]") s.

(** ["{+n}"]: the sign, then the decimal digits of the absolute value. *)
Definition signed_decimal (n : Z) : string :=
  match n with
  | Zneg _ => "-"
  | _ => "+"
  end ++ fmt_int (Z.abs n).

Section Render.

Variable fmt_float : Q -> string.

Definition analyte_token (a : FragmentAnnotation) : string :=
  match analyte_number a with
  | Some n => fmt_int n ++ "@"
  | None => ""
  end.

Definition neutral_loss_token (a : FragmentAnnotation) : string :=
  match neutral_loss a with
  | Some nl => nl
  | None => ""
  end.

Definition isotope_token (a : FragmentAnnotation) : string :=
  if isotope a =? 0 then ""
  else if isotope a =? 1 then "+i"
  else if isotope a =? -1 then "-i"
  else signed_decimal (isotope a) ++ "i".

Definition charge_token (a : FragmentAnnotation) : string :=
  match charge a with
  | Some c => if c <=? 1 then "" else "^" ++ fmt_int c
  | None => ""
  end.

Definition adduct_token (a : FragmentAnnotation) : string :=
  if begins_with_default_adduct (adduct a) then "" else adduct a.

Definition mz_delta_token (a : FragmentAnnotation) : string :=
  match mz_delta a with
  | Some (delta, unit) =>
      "/" ++ fmt_float delta
        ++ (if (unit =? "Da")%string then "" else unit)
  | None => ""
  end.

(** The canonical string of the specification. *)
Definition Render (a : FragmentAnnotation) : string :=
  if (ion_type a =? "?")%string then "?"
  else analyte_token a ++ ion_type a ++ neutral_loss_token a
         ++ isotope_token a ++ charge_token a ++ adduct_token a
         ++ mz_delta_token a.

End Render.

(** ** Sorting *)

(** Ascending in the mass: no entry is heavier than a later one. *)
Definition mass_le {A : Type} (x y : A * Q) : Prop := (snd x <= snd y)%Q.

(** The entries of [l] whose mass equals [m], in the order of [l]. *)
Definition with_mass {A : Type} (m : Q) (l : list (A * Q)) : list (A * Q) :=
  filter (fun x => Qeq_bool (snd x) m) l.

(** [l'] is a stable rearrangement of [l]: entries of equal mass keep their
    relative order. *)
Definition stable_rearrangement {A : Type} (l l' : list (A * Q)) : Prop :=
  Permutation l l' /\ forall m, with_mass m l' = with_mass m l.

(** ** Base fragments *)

(** The tuple appended by the N-terminal walk at a cleavage index, given
    the cursor [(mod_i, mod_mass)] after its two loops; likewise for the
    C-terminal walk. *)
Definition n_entry (p : Proteoform) (t : string) (xs : nat * (nat * Q))
  : base_fragment :=
  (substring 0 (fst xs) (sequence p), t, FragInt (Z.of_nat (fst xs)),
   snd (snd xs)).

Definition c_entry (p : Proteoform) (t : string)
    (xs : nat * (option Z * Q)) : base_fragment :=
  (substring (fst xs) (String.length (sequence p) - fst xs) (sequence p), t,
   FragInt (Z.of_nat (String.length (sequence p)) - Z.of_nat (fst xs)),
   snd (snd xs)).

(** The tuple appended for the internal fragment [[start_i, stop_i)]. *)
Definition m_entry (p : Proteoform) (start_i stop_i : nat) (mod_mass : Q)
  : base_fragment :=
  (substring start_i (stop_i - start_i) (sequence p), "b",
   FragStr (fmt_int (Z.of_nat start_i + 1) ++ ":"
              ++ fmt_int (Z.of_nat stop_i + 1)),
   mod_mass).

(** All internal ranges: the start from 1 to [len - 1], the stop from
    [start + 2] to [len - 1]. *)
Definition internal_ranges (p : Proteoform) : list (nat * nat) :=
  flat_map (fun start_i =>
              map (fun stop_i => (start_i, stop_i))
                (range (start_i + 2) (String.length (sequence p))))
    (range 1 (String.length (sequence p))).

(** The tuple appended for the precursor. *)
Definition p_entry (p : Proteoform) : base_fragment :=
  (sequence p, "M", FragStr "p",
   match modifications p with
   | Some ms => sum (map mass ms)
   | None => 0%Q
   end).

(** ** Fragments *)

(** The annotation of a fragment generated with an ion type and a charge
    only. *)
Definition plain_annotation (ion_type : string) (charge : Z)
  : FragmentAnnotation :=
  {| ion_type := ion_type; neutral_loss := None; isotope := 0;
     charge := Some charge; adduct := "[M+" ++ fmt_int charge ++ "H]";
     analyte_number := None; mz_delta := None |}.

(** The residues that get an immonium ion: the table without the
    wildcard. *)
Definition immonium_residues (E : Pyteomics) : list (string * Q) :=
  filter (fun item => negb (fst item =? "X")%string) (_aa_mass E).

(** The tuple appended for the immonium ion of a residue. *)
Definition immonium_entry (E : Pyteomics) (item : string * Q)
  : fragment_mass :=
  (plain_annotation ("I" ++ fst item) 1,
   (snd item - (calculate_mass E "CO" - calculate_mass E "H"))%Q).

(** The output has a fragment without neutral loss for an ion type and a
    charge. *)
Definition has_fragment (out : list fragment_mass) (token : string)
    (ch : Z) : Prop :=
  exists a M,
    In (a, M) out /\ ion_type a = token /\ charge a = Some ch
    /\ neutral_loss a = None.

(** The generation has completed for all the requested ion types and
    charges: every terminal category that was asked for has its fragment at
    every cleavage index and charge, and so have the internal ranges (for
    "m"), the precursor (for "p") and the residues of the table but the
    wildcard (for "I"). *)
Definition generation_complete (E : Pyteomics) (p : Proteoform)
    (ion_types : string) (max_charge : Z) (out : list fragment_mass)
  : Prop :=
  (forall c i ch,
      In c (list_ascii_of_string "abcxyz") ->
      char_in c ion_types = true ->
      (1 <= i < String.length (sequence p))%nat ->
      1 <= ch <= max_charge ->
      has_fragment out (str1 c ++ fmt_int (Z.of_nat i)) ch)
  /\ (char_in "m" ion_types = true ->
      forall start_i stop_i ch,
        (1 <= start_i)%nat ->
        (start_i + 2 <= stop_i < String.length (sequence p))%nat ->
        1 <= ch <= max_charge ->
        has_fragment out
          ("m" ++ fmt_int (Z.of_nat start_i + 1) ++ ":"
             ++ fmt_int (Z.of_nat stop_i + 1)) ch)
  /\ (char_in "p" ion_types = true ->
      forall ch, 1 <= ch <= max_charge -> has_fragment out "p" ch)
  /\ (char_in "I" ion_types = true ->
      forall aa m,
        In (aa, m) (_aa_mass E) -> aa <> "X" ->
        has_fragment out ("I" ++ aa) 1).

(** The entries of the output for an ion type that carry no neutral
    loss. *)
Definition plain_fragments_of (token : string) (out : list fragment_mass)
  : list fragment_mass :=
  filter (fun x => (ion_type (fst x) =? token)%string
                   && negb (is_some (neutral_loss (fst x)))) out.

(** ** The b ions of an unmodified peptide *)



(** ** Modification masses of the terminal fragments *)

(** The part of the sequence that an N-terminal fragment cleaved at
    [fragment_i] retains carries the modifications at "N-term" and at the
    indices below [fragment_i]; a C-terminal fragment retains those at
    "C-term" and at the indices from [fragment_i] on. *)
Definition retained_prefix (fragment_i : nat) (m : Modification) : bool :=
  pos_eq (position m) "N-term" || int_lt (position m) (Z.of_nat fragment_i).

Definition retained_suffix (fragment_i : nat) (m : Modification) : bool :=
  pos_eq (position m) "C-term" || int_ge (position m) (Z.of_nat fragment_i).

(** The sum of the mass deltas of the modifications that [keep] selects. *)
Definition modification_sum (keep : Modification -> bool) (p : Proteoform)
  : Q :=
  match modifications p with
  | Some ms => sum (map mass (filter keep ms))
  | None => 0%Q
  end.

(** Every fragment of an N-terminal category in the output for a single
    charge carries the modification mass of its retained prefix. *)
Definition prefix_masses_as_specified (E : Pyteomics) (order : SetOrder)
    (p : Proteoform) (ion_types : string) : Prop :=
  forall out c i a M,
    get_theoretical_fragments E order p ion_types 1 None = Ok out ->
    In c (list_ascii_of_string "abc") ->
    In (a, M) out ->
    ion_type a = str1 c ++ fmt_int (Z.of_nat i) ->
    exists m,
      fast_mass E (substring 0 i (sequence p)) (str1 c) 1 (_aa_mass E) = Ok m
      /\ (M == m + modification_sum (retained_prefix i) p / inject_Z 1)%Q.

(** Modelled from the spec: the order in which [spectrum_utils.proforma]
    lists the modifications of a peptide, which the generator assumes: the
    unlocalized ones, then "N-term", then the localized ones by ascending
    index, then "C-term". *)
Definition position_rank (pos : position_t) : Z * Z :=
  match pos with
  | PosStr s =>
      if (s =? "N-term")%string then (1, 0)
      else if (s =? "C-term")%string then (3, 0)
      else (0, 0)
  | PosInt i => (2, i)
  end.

Definition rank_le (a b : Z * Z) : Prop :=
  fst a < fst b \/ (fst a = fst b /\ snd a <= snd b).

Definition position_le (m m' : Modification) : Prop :=
  rank_le (position_rank (position m)) (position_rank (position m')).

Definition position_sorted (p : Proteoform) : Prop :=
  match modifications p with
  | Some ms => StronglySorted position_le ms
  | None => True
  end.

(** The cursor of the N-terminal walk after the loops for a cleavage index:
    the accumulator holds the sum over the retained modifications before
    the cursor, no other localized modification precedes the cursor, and
    none that is retained follows it. *)
Definition prefix_cursor_ok (p : Proteoform) (fragment_i : nat)
    (st : nat * Q) : Prop :=
  match modifications p with
  | Some ms =>
      snd st
      = sum (map mass (filter (retained_prefix fragment_i)
                         (firstn (fst st) ms)))
      /\ Forall (fun m => retained_prefix fragment_i m = true
                          \/ is_str (position m)
                             && negb (pos_eq (position m) "N-term") = true)
           (firstn (fst st) ms)
  | None => st = (O, 0%Q)
  end.

(** The measure that the loop of the C-terminal walk decreases. *)
Definition suffix_measure (st : option Z * Q) : nat :=
  match fst st with
  | Some mod_i => Z.to_nat (mod_i + 1)
  | None => O
  end.

(** * Further parts of the module *)

(** ** PeakInterpretation *)









(** ** Assignments to the validated properties *)

(** [self.charge = charge] on an existing annotation: the setter validates
    against the ion type and stores the charge; the adduct is not touched. *)
Definition FragmentAnnotation_set_charge (self : FragmentAnnotation)
    (new_charge : option Z) : result FragmentAnnotation :=
  charge' <- charge_setter (ion_type self) new_charge ;;
  Ok {| ion_type := ion_type self;
        neutral_loss := neutral_loss self;
        isotope := isotope self;
        charge := charge';
        adduct := adduct self;
        analyte_number := analyte_number self;
        mz_delta := mz_delta self |}.

(** [self.mz_delta = mz_delta] on an existing annotation. *)
Definition FragmentAnnotation_set_mz_delta (self : FragmentAnnotation)
    (new_mz_delta : option (Q * string)) : result FragmentAnnotation :=
  mz_delta' <- mz_delta_setter new_mz_delta ;;
  Ok {| ion_type := ion_type self;
        neutral_loss := neutral_loss self;
        isotope := isotope self;
        charge := charge self;
        adduct := adduct self;
        analyte_number := analyte_number self;
        mz_delta := mz_delta' |}.

(** [FragmentAnnotation.__repr__]. *)
Definition FragmentAnnotation_repr (fmt_float : Q -> string)
    (self : FragmentAnnotation) : string :=
  FragmentAnnotation_str fmt_float self.

(** ** The table of common neutral losses *)

Definition _neutral_loss : dict (option string) Q :=
  [(None, 0);
   (Some "H", - 1.007825);
   (Some "NH3", - 17.026549);
   (Some "H2O", - 18.010565);
   (Some "CO", - 27.994915);
   (Some "CO2", - 43.989829);
   (Some "HCONH2", - 45.021464);
   (Some "HCOOH", - 46.005479);
   (Some "CH4OS", - 63.998301);
   (Some "SO3", - 79.956818);
   (Some "HPO3", - 79.966331);
   (Some "C2H5NOS", - 91.009195);
   (Some "C2H4O2S", - 91.993211);
   (Some "H3PO4", - 97.976896)]%Q.

(** ** Statements about the generator *)

(** The entries of a neutral-loss mapping whose name is not [None]. *)
Definition named_losses (d : dict (option string) Q)
  : dict (option string) Q :=
  filter (fun item => is_some (fst item)) d.

(** The number of base fragments that the generator builds for a peptide
    and a selection of ion types. *)
Definition base_fragment_count (p : Proteoform) (ion_types : string) : nat :=
  ((List.length (set_inter "abc" ion_types)
    + List.length (set_inter "xyz" ion_types))
   * (String.length (sequence p) - 1)
   + (if char_in "m" ion_types
      then (String.length (sequence p) - 2)
           * (String.length (sequence p) - 3) / 2
      else 0)
   + (if char_in "p" ion_types then 1 else 0))%nat.

(** The number of entries of the output: every base fragment at every
    charge and, when requested, the immonium ions, each once as it is and
    once for every named neutral loss. *)
Definition output_count (E : Pyteomics) (p : Proteoform)
    (ion_types : string) (max_charge : Z)
    (neutral_losses : option (dict (option string) Q)) : nat :=
  ((base_fragment_count p ion_types * Z.to_nat max_charge
    + (if char_in "I" ion_types then List.length (immonium_residues E)
       else 0))
   * (1 + List.length (named_losses (default_losses neutral_losses))))%nat.

(** Every fragment of a C-terminal category in the output for a single
    charge carries the modification mass of its retained suffix; the
    fragment labelled [k] is cleaved at the index [len - k]. *)
Definition suffix_masses_as_specified (E : Pyteomics) (order : SetOrder)
    (p : Proteoform) (ion_types : string) : Prop :=
  forall out c k a M,
    get_theoretical_fragments E order p ion_types 1 None = Ok out ->
    In c (list_ascii_of_string "xyz") ->
    In (a, M) out ->
    ion_type a = str1 c ++ fmt_int (Z.of_nat k) ->
    exists i m,
      (1 <= i < String.length (sequence p))%nat
      /\ k = (String.length (sequence p) - i)%nat
      /\ fast_mass E
           (substring i (String.length (sequence p) - i) (sequence p))
           (str1 c) 1 (_aa_mass E) = Ok m
      /\ (M == m + modification_sum (retained_suffix i) p / inject_Z 1)%Q.

(** The cursor of the C-terminal walk: every modification behind the
    cursor is retained, and the accumulator holds their masses, added from
    the last one backwards. *)
Definition suffix_cursor_ok (ms : list Modification) (fragment_i : nat)
    (st : option Z * Q) : Prop :=
  exists k : nat,
    (k <= List.length ms)%nat
    /\ fst st = Some (Z.of_nat k - 1)
    /\ snd st = sum (map mass (rev (skipn k ms)))
    /\ Forall (fun m => retained_suffix fragment_i m = true) (skipn k ms).

(** The sum of the mass deltas of all the modifications of a peptide. *)
Definition total_modification_mass (p : Proteoform) : Q :=
  match modifications p with
  | Some ms => sum (map mass ms)
  | None => 0%Q
  end.

(** The residue has an entry in the mass table. *)
Definition known_residue (E : Pyteomics) (aa : ascii) : Prop :=
  exists m, dict_get (_aa_mass E) (str1 aa) = Some m.

(** The modifications that the walk of the internal fragments skips for the
    start index [start_i]: the ones with a string position and the ones
    localized below [start_i]. *)
Definition skipped_before (start_i : nat) (m : Modification) : bool :=
  is_str (position m) || int_lt (position m) (Z.of_nat start_i).

(** The first modification of the list that is localized at an index of
    at least 1. *)
Definition first_inner_modification (p : Proteoform) : option Modification :=
  match modifications p with
  | Some ms => find (fun m => negb (skipped_before 1 m)) ms
  | None => None
  end.

(** The peptide has an internal range, and the first modification that is
    localized at an index of at least 1 lies below the last index. *)
Definition inner_modification (p : Proteoform) : bool :=
  (4 <=? String.length (sequence p))%nat
  && match first_inner_modification p with
     | Some m => int_lt (position m) (Z.of_nat (String.length (sequence p)) - 1)
     | None => false
     end.

(** * Properties *)

(** ** Strings *)

Lemma append_empty_r (s : string) : s ++ "" = s.
Proof. induction s as [|c s IH]; simpl; [reflexivity | now rewrite IH]. Qed.

Lemma append_assoc (s1 s2 s3 : string) : (s1 ++ s2) ++ s3 = s1 ++ s2 ++ s3.
Proof. induction s1 as [|c s1 IH]; simpl; [reflexivity | now rewrite IH]. Qed.

Lemma concat_empty_app (l1 l2 : list string) :
  String.concat "" (l1 ++ l2) = String.concat "" l1 ++ String.concat "" l2.
Proof.
  induction l1 as [|x l1 IH]; simpl; [reflexivity|].
  destruct l1 as [|y l1].
  - simpl. destruct l2; simpl; [now rewrite append_empty_r | reflexivity].
  - change ((y :: l1) ++ l2)%list with (y :: (l1 ++ l2))%list in *.
    simpl in *. rewrite IH. now rewrite append_assoc.
Qed.

Lemma concat_empty_append (l : list string) (x : string) :
  String.concat "" (append l x) = String.concat "" l ++ x.
Proof. unfold append. now rewrite concat_empty_app. Qed.

Lemma char_in_In (c : ascii) (s : string) :
  char_in c s = true <-> In c (list_ascii_of_string s).
Proof.
  unfold char_in. rewrite existsb_exists. split.
  - intros (x & Hx & Heq). apply Ascii.eqb_eq in Heq. now subst.
  - intros H. exists c. split; [assumption | apply Ascii.eqb_refl].
Qed.

Lemma char_in_first (c : ascii) (r allowed : string) :
  char_in c allowed = true <-> first_char_in (String c r) allowed.
Proof.
  rewrite char_in_In. unfold first_char_in. split.
  - intros H. now exists c, r.
  - intros (c' & r' & Heq & Hin). now inversion Heq; subst.
Qed.

(** ** Construction of annotations *)

Lemma is_some_false {A : Type} (o : option A) : is_some o = false <-> o = None.
Proof. destruct o; simpl; split; congruence. Qed.

Lemma is_some_true {A : Type} (o : option A) : is_some o = true <-> o <> None.
Proof. destruct o; simpl; split; congruence. Qed.

Lemma mz_delta_setter_raises (mz : option (Q * string)) :
  raises (mz_delta_setter mz)
  <-> exists delta unit, mz = Some (delta, unit) /\ unit <> "Da" /\ unit <> "ppm".
Proof.
  unfold raises, mz_delta_setter. destruct mz as [[d u]|].
  - destruct (String.eqb_spec u "Da") as [->|HDa]; simpl.
    + split; [intros (e & He); discriminate|].
      intros (d' & u' & Heq & H1 & _). now inversion Heq; subst.
    + destruct (String.eqb_spec u "ppm") as [->|Hppm]; simpl.
      * split; [intros (e & He); discriminate|].
        intros (d' & u' & Heq & _ & H2). now inversion Heq; subst.
      * split; [|now exists ValueError]. intros _. now exists d, u.
  - split; [intros (e & He); discriminate|].
    intros (d & u & Heq & _). discriminate.
Qed.

Lemma charge_setter_raises (ion_type : string) (ch : option Z) :
  raises (charge_setter ion_type ch)
  <-> (ion_type = "?" /\ ch <> None)
      \/ (ion_type <> "?" /\ (ch = None \/ exists c, ch = Some c /\ c <= 0)).
Proof.
  unfold raises, charge_setter.
  destruct (String.eqb_spec ion_type "?") as [->|Hne]; simpl.
  - destruct ch as [c|]; simpl.
    + split; [|now exists ValueError]. intros _. left. split; congruence.
    + split; [intros (e & He); discriminate|].
      intros [[_ H]|[H _]]; congruence.
  - destruct ch as [c|]; simpl.
    + destruct (Z.leb_spec c 0) as [Hle|Hgt].
      * split; [|now exists ValueError]. intros _. right. split; [assumption|].
        right. now exists c.
      * split; [intros (e & He); discriminate|].
        intros [[H _]|[_ [H|(c' & Heq & Hle)]]]; try congruence.
        inversion Heq; subst. lia.
    + split; [|now exists ValueError]. intros _. right. split; [assumption|].
      now left.
Qed.

Lemma raises_Raise {A : Type} (e : exn) : raises (@Raise A e).
Proof. now exists e. Qed.

Lemma not_raises_Ok {A : Type} (a : A) : ~ raises (Ok a).
Proof. intros (e & He). discriminate. Qed.

Lemma raises_bind {A B : Type} (m : result A) (k : A -> result B) :
  raises (bind m k) <-> raises m \/ exists a, m = Ok a /\ raises (k a).
Proof.
  destruct m as [a|e]; simpl.
  - split.
    + intros H. right. now exists a.
    + intros [H|(a' & Heq & H)]; [now apply not_raises_Ok in H|].
      now inversion Heq; subst.
  - split; [intros _; left; apply raises_Raise|intros _; apply raises_Raise].
Qed.

Lemma init_raises_first_char (c : ascii) (r : string) nl iso ch ad an mz :
  char_in c "GLXS" = false ->
  char_in c "?abcxyzIm_prf" = true ->
  raises (FragmentAnnotation_init (String c r) nl iso ch ad an mz)
  <-> (String c r = "?"
       /\ (nl <> None \/ iso <> 0 \/ ch <> None \/ ad <> None \/ an <> None
           \/ mz <> None))
      \/ (String c r <> "?"
          /\ (ch = None \/ exists c, ch = Some c /\ c <= 0))
      \/ (exists delta unit,
             mz = Some (delta, unit) /\ unit <> "Da" /\ unit <> "ppm").
Proof.
  intros HG HA. unfold FragmentAnnotation_init. rewrite HG, HA. simpl negb.
  cbv iota.
  destruct (String.eqb_spec (String c r) "?") as [Heq|Hne].
  - rewrite Heq. simpl andb.
    destruct (is_some nl || negb (iso =? 0) || is_some ch || is_some ad
              || is_some an || is_some mz) eqn:Hextra.
    + split; [intros _; left; split; [reflexivity|]|intros _; apply raises_Raise].
      repeat (apply orb_true_iff in Hextra; destruct Hextra as [Hextra|Hextra]);
        try (apply is_some_true in Hextra; tauto).
      apply negb_true_iff, Z.eqb_neq in Hextra. tauto.
    + repeat (apply orb_false_iff in Hextra; destruct Hextra as [Hextra ?]).
      repeat match goal with
             | H : is_some _ = false |- _ => apply is_some_false in H; subst
             end.
      apply negb_false_iff, Z.eqb_eq in H3. subst. simpl.
      split; [intros H; now apply not_raises_Ok in H|].
      intros [(_ & H)|[(H & _)|(d & u & H & _)]];
        [intuition congruence|congruence|discriminate].
  - simpl andb. rewrite raises_bind, charge_setter_raises. split.
    + intros [[(Heq & _)|H]|(ch' & Hch & H)]; [contradiction|tauto|].
      apply raises_bind in H. destruct H as [H|(mz' & _ & H)].
      * apply mz_delta_setter_raises in H. tauto.
      * now apply not_raises_Ok in H.
    + intros [(Heq & _)|[H|H]]; [contradiction|tauto|].
      destruct (charge_setter (String c r) ch) as [ch'|e] eqn:Hch.
      * right. exists ch'. split; [reflexivity|].
        apply raises_bind. left. now apply mz_delta_setter_raises.
      * left. rewrite <- charge_setter_raises, Hch. apply raises_Raise.
Qed.

(** C5.  Construction fails exactly in the listed cases, and each of them is
    an error of [__init__] itself (the result is a [Raise], there is no
    object to defer a failure to): an advanced first character (one of
    "GLXS"); no first character among "?abcxyzIm_prf" (this covers the
    empty ion type, on which the indexing [ion_type[0]] raises); the ion
    type "?" with a field off its default; another ion type with the charge
    missing or not strictly positive; an m/z delta whose unit is neither
    "Da" nor "ppm".  In particular [("?", charge=1)] fails, [("?")]
    succeeds, [("b", charge=0)] and [("b", charge=None)] fail. *)
Theorem init_fails_exactly_when_invalid :
  (forall ion_type nl iso ch ad an mz,
      raises (FragmentAnnotation_init ion_type nl iso ch ad an mz)
      <-> construction_invalid ion_type nl iso ch ad an mz)
  /\ raises (FragmentAnnotation_init "?" None 0 (Some 1) None None None)
  /\ ~ raises (FragmentAnnotation_init "?" None 0 None None None None)
  /\ raises (FragmentAnnotation_init "b" None 0 (Some 0) None None None)
  /\ raises (FragmentAnnotation_init "b" None 0 None None None None).
Proof.
  split; [|repeat split; try apply raises_Raise; apply not_raises_Ok].
  intros ion_type nl iso ch ad an mz. unfold construction_invalid.
  destruct ion_type as [|c r].
  - split; [intros _|intros _; apply raises_Raise].
    right; left. intros (c & r & Heq & _). discriminate.
  - destruct (char_in c "GLXS") eqn:HG.
    + split; [intros _; left; now apply char_in_first|].
      intros _. unfold FragmentAnnotation_init. rewrite HG. apply raises_Raise.
    + destruct (char_in c "?abcxyzIm_prf") eqn:HA.
      * rewrite (init_raises_first_char c r nl iso ch ad an mz HG HA).
        split; [tauto|].
        intros [H|[H|H]]; [|exfalso; apply H; now apply char_in_first|tauto].
        apply char_in_first in H. congruence.
      * split.
        -- intros _. right; left. intros H. apply char_in_first in H. congruence.
        -- intros _. unfold FragmentAnnotation_init. rewrite HG, HA.
           apply raises_Raise.
Qed.

Lemma charge_setter_ok (it : string) (ch ch' : option Z) :
  charge_setter it ch = Ok ch' ->
  ch' = ch
  /\ (it <> "?" -> exists c, ch = Some c /\ 0 < c)
  /\ (it = "?" -> ch = None).
Proof.
  unfold charge_setter.
  destruct (String.eqb_spec it "?") as [->|Hne]; simpl.
  - destruct ch as [c|]; simpl; [discriminate|].
    intros H. inversion H. repeat split; congruence.
  - destruct ch as [c|]; simpl; [|discriminate].
    destruct (Z.leb_spec c 0) as [Hle|Hgt]; [discriminate|].
    intros H. inversion H. repeat split; [|congruence].
    intros _. now exists c.
Qed.

Lemma mz_delta_setter_ok (mz mz' : option (Q * string)) :
  mz_delta_setter mz = Ok mz' ->
  mz' = mz /\ forall d u, mz = Some (d, u) -> u = "Da" \/ u = "ppm".
Proof.
  unfold mz_delta_setter. destruct mz as [[d u]|].
  - destruct (String.eqb_spec u "Da") as [->|HDa]; simpl.
    + intros H. inversion H. split; [reflexivity|].
      intros d' u' Heq. inversion Heq. now left.
    + destruct (String.eqb_spec u "ppm") as [->|Hppm]; simpl; [|discriminate].
      intros H. inversion H. split; [reflexivity|].
      intros d' u' Heq. inversion Heq. now right.
  - intros H. inversion H. split; [reflexivity|discriminate].
Qed.

(** What a successful construction stores, and what it has checked. *)
Lemma init_ok (it : string) nl iso ch ad an mz (a : FragmentAnnotation) :
  FragmentAnnotation_init it nl iso ch ad an mz = Ok a ->
  a = {| ion_type := it; neutral_loss := nl; isotope := iso; charge := ch;
         adduct := match ad with
                   | None => "[M+" ++ fmt_opt_int ch ++ "H]"
                   | Some x => x
                   end;
         analyte_number := an; mz_delta := mz |}
  /\ (it <> "?" -> exists c, ch = Some c /\ 0 < c)
  /\ (it = "?" -> ch = None /\ ad = None)
  /\ (forall d u, mz = Some (d, u) -> u = "Da" \/ u = "ppm").
Proof.
  unfold FragmentAnnotation_init. destruct it as [|c0 r]; [discriminate|].
  destruct (char_in c0 "GLXS"); [discriminate|].
  destruct (negb (char_in c0 "?abcxyzIm_prf")); [discriminate|].
  match goal with
  | |- (if ?b then _ else _) = _ -> _ => destruct b eqn:Hextra
  end; [discriminate|].
  destruct (charge_setter (String c0 r) ch) as [ch'|e] eqn:Hch;
    [|discriminate].
  destruct (mz_delta_setter mz) as [mz'|e] eqn:Hmz; [|discriminate].
  simpl. intros H. inversion H; subst a; clear H.
  apply charge_setter_ok in Hch. destruct Hch as (-> & Hknown & Hunknown).
  apply mz_delta_setter_ok in Hmz. destruct Hmz as (-> & Hunit).
  repeat split; try assumption.
  - now apply Hunknown.
  - apply andb_false_iff in Hextra. destruct Hextra as [Hextra|Hextra].
    + apply String.eqb_neq in Hextra. contradiction.
    + repeat (apply orb_false_iff in Hextra; destruct Hextra as [Hextra ?]).
      now apply is_some_false.
Qed.

(** ** The default-adduct pattern *)

Lemma skip_digits_app (ds rest : string) :
  forallb is_digit (list_ascii_of_string ds) = true ->
  skip_digits (ds ++ "H]" ++ rest) = "H]" ++ rest.
Proof.
  induction ds as [|d ds IH]; simpl; [reflexivity|].
  intros H. apply andb_true_iff in H. destruct H as [Hd Hds].
  rewrite Hd. now apply IH.
Qed.

Lemma skip_digits_split (s : string) :
  exists ds,
    forallb is_digit (list_ascii_of_string ds) = true
    /\ s = ds ++ skip_digits s.
Proof.
  induction s as [|c s (ds & Hds & Heq)]; [now exists ""|].
  simpl. destruct (is_digit c) eqn:Hc.
  - exists (String c ds). simpl. rewrite Hc, Hds. split; [reflexivity|].
    now rewrite <- Heq.
  - now exists "".
Qed.

Lemma startswith_split (s p : string) :
  startswith s p = true -> exists rest, s = p ++ rest.
Proof.
  unfold startswith. revert s. induction p as [|c p IH]; intros s H.
  - now exists s.
  - destruct s as [|c' s]; simpl in H; [discriminate|].
    destruct (ascii_dec c c') as [->|Hne]; [|discriminate].
    destruct (IH s H) as (rest & ->). now exists rest.
Qed.

Lemma re_match_default_adduct_iff (s : string) :
  re_match_default_adduct s = true <-> default_adduct_prefix s.
Proof.
  unfold default_adduct_prefix. split.
  - destruct s as [|c1 [|c2 [|c3 [|d r]]]]; simpl; try discriminate.
    intros H. repeat (apply andb_true_iff in H; destruct H as [H ?]).
    apply Ascii.eqb_eq in H, H2, H3. subst c1 c2 c3.
    rename H1 into Hd, H0 into Hpre.
    destruct (skip_digits_split r) as (ds & Hds & Hr).
    apply startswith_split in Hpre. destruct Hpre as (rest & Hrest).
    exists (String d ds), rest. repeat split; [discriminate| |].
    + simpl. now rewrite Hd, Hds.
    + simpl. rewrite Hr at 1. now rewrite Hrest.
  - intros (digits & rest & Hne & Hdigits & ->).
    destruct digits as [|d ds]; [contradiction|].
    simpl in Hdigits. apply andb_true_iff in Hdigits.
    destruct Hdigits as [Hd Hds].
    change ("[M+" ++ String d ds ++ "H]" ++ rest)
      with (String "[" (String "M" (String "+"
              (String d (ds ++ "H]" ++ rest))))).
    unfold re_match_default_adduct.
    rewrite (skip_digits_app ds rest Hds), Hd. unfold startswith.
    simpl. now destruct rest.
Qed.

Lemma string_of_uint_digits (d : Decimal.uint) :
  forallb is_digit (list_ascii_of_string (NilEmpty.string_of_uint d)) = true.
Proof. induction d; simpl; try reflexivity; assumption. Qed.

Lemma fmt_int_pos_digits (c : Z) :
  0 < c ->
  fmt_int c <> ""
  /\ forallb is_digit (list_ascii_of_string (fmt_int c)) = true.
Proof.
  intros Hc. destruct c as [|p|p]; try lia.
  unfold fmt_int. simpl.
  pose proof (DecimalPos.Unsigned.to_uint_nonnil p) as Hnil.
  destruct (Pos.to_uint p) eqn:Hp; try contradiction;
    (split; [discriminate|]); simpl; apply string_of_uint_digits.
Qed.

(** The adduct that [__init__] stores by default matches the pattern. *)
Lemma default_adduct_matches (c : Z) :
  0 < c -> re_match_default_adduct ("[M+" ++ fmt_int c ++ "H]") = true.
Proof.
  intros Hc. apply re_match_default_adduct_iff.
  destruct (fmt_int_pos_digits c Hc) as (Hne & Hdigits).
  exists (fmt_int c), "". repeat split; try assumption.
Qed.


(** The pattern in the words of the specification. *)
Lemma leading_digits_app (ds rest : string) :
  forallb is_digit (list_ascii_of_string ds) = true ->
  leading_digits (ds ++ "H]" ++ rest) = ds.
Proof.
  induction ds as [|d ds IH]; [reflexivity|].
  cbn [list_ascii_of_string forallb]. intros H.
  apply andb_true_iff in H. destruct H as [Hd Hds].
  change (String d ds ++ "H]" ++ rest) with (String d (ds ++ "H]" ++ rest)).
  cbn [leading_digits]. rewrite Hd. f_equal. now apply IH.
Qed.

Lemma leading_digits_digits (s : string) :
  forallb is_digit (list_ascii_of_string (leading_digits s)) = true.
Proof.
  induction s as [|c s IH]; simpl; [reflexivity|].
  destruct (is_digit c) eqn:Hc; simpl; [now rewrite Hc|reflexivity].
Qed.

Lemma prefix_app (p rest : string) : String.prefix p (p ++ rest) = true.
Proof.
  induction p as [|c p IH]; simpl; [now destruct rest|].
  destruct (ascii_dec c c); [assumption | contradiction].
Qed.

Lemma substring_0_length (s : string) : substring 0 (String.length s) s = s.
Proof. induction s as [|c s IH]; simpl; [reflexivity | now rewrite IH]. Qed.

Lemma begins_with_default_adduct_iff (s : string) :
  begins_with_default_adduct s = true <-> default_adduct_prefix s.
Proof.
  unfold begins_with_default_adduct, default_adduct_prefix. split.
  - set (digits := leading_digits (substring 3 (String.length s - 3) s)).
    intros H. apply andb_true_iff in H. destruct H as (Hne & Hpre).
    apply negb_true_iff, String.eqb_neq in Hne.
    apply (startswith_split s) in Hpre. destruct Hpre as (rest & Hs).
    exists digits, rest. split; [assumption|].
    split; [apply leading_digits_digits|].
    rewrite Hs at 1. now rewrite !append_assoc.
  - intros (digits & rest & Hne & Hdigits & ->).
    change ("[M+" ++ digits ++ "H]" ++ rest)
      with (String "[" (String "M" (String "+" (digits ++ "H]" ++ rest)))).
    cbn [String.length Nat.sub substring]. rewrite Nat.sub_0_r.
    rewrite substring_0_length, (leading_digits_app digits rest Hdigits).
    apply andb_true_iff. split.
    + now apply negb_true_iff, String.eqb_neq.
    + change (String "[" (String "M" (String "+" (digits ++ "H]" ++ rest))))
        with ("[M+" ++ digits ++ "H]" ++ rest).
      rewrite <- (append_assoc digits "H]" rest).
      rewrite <- (append_assoc "[M+" (digits ++ "H]") rest).
      apply prefix_app.
Qed.

(** The matcher of the code finds the pattern exactly where the
    specification sees it. *)
Lemma begins_with_re_match (s : string) :
  begins_with_default_adduct s = re_match_default_adduct s.
Proof.
  destruct (begins_with_default_adduct s) eqn:Hb,
           (re_match_default_adduct s) eqn:Hr; try reflexivity.
  - apply begins_with_default_adduct_iff, re_match_default_adduct_iff in Hb.
    congruence.
  - apply re_match_default_adduct_iff, begins_with_default_adduct_iff in Hr.
    congruence.
Qed.

Lemma default_adduct_begins (c : Z) :
  0 < c -> begins_with_default_adduct ("[M+" ++ fmt_int c ++ "H]") = true.
Proof.
  intros Hc. rewrite begins_with_re_match. now apply default_adduct_matches.
Qed.

(** [f"{n:+}"] writes the sign and the digits of the absolute value. *)
Lemma fmt_int_signed_decimal (n : Z) : fmt_int_signed n = signed_decimal n.
Proof. destruct n as [|q|q]; reflexivity. Qed.

Section AnnotationProperties.

Variable fmt_float : Q -> string.

Lemma isotope_cases (iso : Z) :
  iso = 0 \/ iso = 1 \/ iso = -1
  \/ ((Z.abs iso =? 1) = false /\ (iso =? 0) = false /\ (iso =? 1) = false
      /\ (iso =? -1) = false).
Proof.
  destruct (Z.eq_dec iso 0); [tauto|]. destruct (Z.eq_dec iso 1); [tauto|].
  destruct (Z.eq_dec iso (-1)); [tauto|].
  right; right; right. repeat split; apply Z.eqb_neq; lia.
Qed.

(** The string built by [__str__] is the concatenation of the tokens. *)
Lemma str_tokens (a : FragmentAnnotation) :
  (forall c, charge a = Some c -> 0 < c) ->
  (forall d u, mz_delta a = Some (d, u) -> u = "Da" \/ u = "ppm") ->
  FragmentAnnotation_str fmt_float a = Render fmt_float a.
Proof.
  intros Hcharge Hunit. unfold FragmentAnnotation_str, Render.
  destruct (ion_type a =? "?")%string; [reflexivity|].
  unfold analyte_token, neutral_loss_token, isotope_token, charge_token,
    adduct_token, mz_delta_token.
  rewrite begins_with_re_match, fmt_int_signed_decimal.
  destruct a as [it nl iso ch ad an mz]; simpl in *.
  assert (Hmz :
    match mz with
    | Some (d, u) => (if (u =? "ppm")%string then "ppm" else "")
                     = (if (u =? "Da")%string then "" else u)
    | None => True
    end).
  { destruct mz as [[d u]|]; [|exact I].
    destruct (Hunit d u eq_refl) as [->| ->]; reflexivity. }
  assert (Hch :
    match ch with
    | Some c => (c >? 1) = negb (c <=? 1)
    | None => True
    end).
  { destruct ch as [c|]; [|exact I]. rewrite Z.gtb_ltb.
    destruct (Z.ltb_spec 1 c), (Z.leb_spec c 1); simpl; lia. }
  destruct mz as [[d u]|]; [rewrite Hmz|]; clear Hmz Hunit;
    (destruct ch as [c|]; [rewrite Hch; destruct (c <=? 1)|]; clear Hch Hcharge);
    destruct (re_match_default_adduct ad); destruct an, nl;
    destruct (isotope_cases iso) as [->|[->|[->|(H1 & H2 & H3 & H4)]]];
    try rewrite H1, H2, H3, H4; simpl;
    repeat rewrite concat_empty_append; simpl;
    repeat rewrite append_assoc; simpl;
    repeat rewrite append_empty_r; reflexivity.
Qed.

End AnnotationProperties.

(** ** Rendering *)

Lemma init_str_Render (fmt_float : Q -> string) it nl iso ch ad an mz
    (a : FragmentAnnotation) :
  FragmentAnnotation_init it nl iso ch ad an mz = Ok a ->
  FragmentAnnotation_str fmt_float a = Render fmt_float a.
Proof.
  intros Hinit.
  destruct (init_ok _ _ _ _ _ _ _ _ Hinit) as (-> & Hknown & Hunknown & Hunit).
  apply str_tokens; simpl; [|assumption].
  intros c ->. destruct (String.eqb_spec it "?") as [->|Hne].
  - destruct (Hunknown eq_refl). discriminate.
  - destruct (Hknown Hne) as (c' & Heq & Hpos). now inversion Heq; subst.
Qed.

(** C6.  The canonical string of a validly constructed annotation is the
    concatenation, in this order, of the analyte token ["{n}@"], the ion
    type, the neutral loss verbatim, the isotope token (["+i"], ["-i"],
    the sign and the digits of other values followed by ["i"], nothing for
    0), the charge token (["^{charge}"], only above 1), the adduct (left
    out when it begins with the default pattern [[M+<digits>H]], verbatim
    otherwise) and the m/z delta (["/{delta}"], followed by ["ppm"] for
    that unit and by nothing for ["Da"]); the ion type ["?"] renders as
    ["?"]. *)
Theorem str_of_constructed_is_Render :
  forall (fmt_float : Q -> string) ion_type nl iso ch ad an mz a,
    FragmentAnnotation_init ion_type nl iso ch ad an mz = Ok a ->
    FragmentAnnotation_str fmt_float a = Render fmt_float a
    /\ (ion_type = "?" -> FragmentAnnotation_str fmt_float a = "?")
    /\ (default_adduct_prefix (adduct a) -> adduct_token a = "")
    /\ (~ default_adduct_prefix (adduct a) -> adduct_token a = adduct a).
Proof.
  intros fmt_float it nl iso ch ad an mz a Hinit.
  split; [now apply (init_str_Render fmt_float it nl iso ch ad an mz)|].
  split; [|split].
  - destruct (init_ok _ _ _ _ _ _ _ _ Hinit) as (-> & _).
    intros ->. reflexivity.
  - intros Hprefix. apply begins_with_default_adduct_iff in Hprefix.
    unfold adduct_token. now rewrite Hprefix.
  - intros Hprefix. unfold adduct_token.
    destruct (begins_with_default_adduct (adduct a)) eqn:Hb; [|reflexivity].
    now apply begins_with_default_adduct_iff in Hb.
Qed.

Lemma str_of_constructed_is_Render_witness :
  let fmt_float := fun _ : Q => "0.5" in
  (exists a,
      FragmentAnnotation_init "y" None 0 (Some 3) None None None = Ok a
      /\ adduct a = "[M+3H]"
      /\ Render fmt_float a = "y^3"
      /\ FragmentAnnotation_str fmt_float a = "y^3")
  /\ (exists a,
         FragmentAnnotation_init "y" None 0 (Some 3) (Some "[M+2Na+H]") None
           None = Ok a
         /\ Render fmt_float a = "y^3[M+2Na+H]"
         /\ FragmentAnnotation_str fmt_float a = "y^3[M+2Na+H]")
  /\ (exists a,
         FragmentAnnotation_init "y4" (Some "-H2O") 2 (Some 2)
           (Some "[M+H+Na]") (Some 1) (Some (0.5%Q, "ppm")) = Ok a
         /\ Render fmt_float a = "1@y4-H2O+2i^2[M+H+Na]/0.5ppm"
         /\ FragmentAnnotation_str fmt_float a
            = "1@y4-H2O+2i^2[M+H+Na]/0.5ppm")
  /\ (exists a,
         FragmentAnnotation_init "b2" None (-3) (Some 1) None None
           (Some (0.5%Q, "Da")) = Ok a
         /\ Render fmt_float a = "b2-3i/0.5"
         /\ FragmentAnnotation_str fmt_float a = "b2-3i/0.5").
Proof.
  intros fmt_float.
  split; [|split; [|split]]; eexists; (split; [reflexivity|]).
  - split; [reflexivity|]. split; [reflexivity|].
    now rewrite (proj1 (str_of_constructed_is_Render fmt_float "y" None 0
                          (Some 3) None None None _ eq_refl)).
  - split; [reflexivity|].
    now rewrite (proj1 (str_of_constructed_is_Render fmt_float "y" None 0
                          (Some 3) (Some "[M+2Na+H]") None None _ eq_refl)).
  - split; [reflexivity|].
    now rewrite (proj1 (str_of_constructed_is_Render fmt_float "y4"
                          (Some "-H2O") 2 (Some 2) (Some "[M+H+Na]") (Some 1)
                          (Some (0.5%Q, "ppm")) _ eq_refl)).
  - split; [reflexivity|].
    now rewrite (proj1 (str_of_constructed_is_Render fmt_float "b2" None
                          (-3) (Some 1) None None (Some (0.5%Q, "Da")) _
                          eq_refl)).
Defined.

(** C10.  [re.match] anchors the pattern at the start of the adduct only:
    an adduct that merely begins with [[M+<digits>H]] is stored verbatim
    but left out of the canonical string, which is then the string of the
    annotation constructed with the default adduct, so that the two are
    equal for [__eq__]. *)
Theorem adduct_with_default_prefix_is_omitted :
  forall (fmt_float : Q -> string) ion_type nl iso ch ad an mz a,
    default_adduct_prefix ad ->
    FragmentAnnotation_init ion_type nl iso ch (Some ad) an mz = Ok a ->
    adduct a = ad
    /\ FragmentAnnotation_str fmt_float a
       = analyte_token a ++ ion_type ++ neutral_loss_token a
           ++ isotope_token a ++ charge_token a ++ mz_delta_token fmt_float a
    /\ exists a0,
         FragmentAnnotation_init ion_type nl iso ch None an mz = Ok a0
         /\ FragmentAnnotation_str fmt_float a
            = FragmentAnnotation_str fmt_float a0
         /\ FragmentAnnotation_eq fmt_float a a0 = true.
Proof.
  intros fmt_float it nl iso ch ad an mz a Hprefix Hinit.
  pose proof (init_str_Render fmt_float _ _ _ _ _ _ _ _ Hinit) as Hstr.
  destruct (init_ok _ _ _ _ _ _ _ _ Hinit) as (Ha & Hknown & Hunknown & Hunit).
  assert (Hne : it <> "?").
  { intros ->. destruct (Hunknown eq_refl). discriminate. }
  destruct (Hknown Hne) as (c & -> & Hc).
  apply begins_with_default_adduct_iff in Hprefix.
  assert (Hit : (it =? "?")%string = false) by now apply String.eqb_neq.
  split; [now subst a|]. split.
  - rewrite Hstr. subst a. unfold Render, adduct_token. simpl.
    now rewrite Hit, Hprefix.
  - pose (a0 := {| ion_type := it; neutral_loss := nl; isotope := iso;
                   charge := Some c;
                   adduct := "[M+" ++ fmt_int c ++ "H]";
                   analyte_number := an; mz_delta := mz |}).
    assert (Hinit0 :
      FragmentAnnotation_init it nl iso (Some c) None an mz = Ok a0).
    { revert Hinit. unfold FragmentAnnotation_init.
      destruct it as [|c0 r]; [discriminate|].
      destruct (char_in c0 "GLXS"); [discriminate|].
      destruct (negb (char_in c0 "?abcxyzIm_prf")); [discriminate|].
      rewrite Hit. simpl andb.
      destruct (charge_setter (String c0 r) (Some c)) as [ch'|e] eqn:Hch;
        [|discriminate].
      destruct (mz_delta_setter mz) as [mz'|e] eqn:Hmz; [|discriminate].
      apply charge_setter_ok in Hch. destruct Hch as (-> & _).
      apply mz_delta_setter_ok in Hmz. destruct Hmz as (-> & _).
      reflexivity. }
    exists a0. split; [exact Hinit0|].
    pose proof (init_str_Render fmt_float _ _ _ _ _ _ _ _ Hinit0) as Hstr0.
    assert (Heq :
      FragmentAnnotation_str fmt_float a = FragmentAnnotation_str fmt_float a0).
    { rewrite Hstr, Hstr0. subst a a0. unfold Render, adduct_token,
        analyte_token, neutral_loss_token, isotope_token, charge_token,
        mz_delta_token.
      cbn [ion_type neutral_loss isotope charge adduct analyte_number
           mz_delta].
      now rewrite Hprefix, (default_adduct_begins c Hc). }
    split; [exact Heq|].
    unfold FragmentAnnotation_eq. rewrite Heq. apply String.eqb_refl.
Qed.

Lemma adduct_with_default_prefix_is_omitted_witness :
  default_adduct_prefix "[M+2H]extra"
  /\ exists a a0,
       FragmentAnnotation_init "y4" None 0 (Some 2) (Some "[M+2H]extra")
         None None = Ok a
       /\ FragmentAnnotation_init "y4" None 0 (Some 2) None None None = Ok a0
       /\ adduct a = "[M+2H]extra"
       /\ adduct a0 = "[M+2H]"
       /\ FragmentAnnotation_str (fun _ => "") a = "y4^2"
       /\ FragmentAnnotation_eq (fun _ => "") a a0 = true.
Proof.
  assert (Hprefix : default_adduct_prefix "[M+2H]extra").
  { exists "2", "extra". split; [discriminate|]. split; reflexivity. }
  split; [exact Hprefix|].
  eexists. eexists. split; [reflexivity|]. split; [reflexivity|].
  split; [reflexivity|]. split; [reflexivity|].
  destruct (adduct_with_default_prefix_is_omitted (fun _ => "") "y4" None 0
              (Some 2) "[M+2H]extra" None None _ Hprefix eq_refl)
    as (_ & Hstr & _).
  split; [exact Hstr|reflexivity].
Defined.

(** ** Loops *)

Lemma bind_ok {A B : Type} (m : result A) (k : A -> result B) (b : B) :
  bind m k = Ok b -> exists a, m = Ok a /\ k a = Ok b.
Proof. destruct m as [a|e]; simpl; [now exists a | discriminate]. Qed.

Lemma while_false {S : Type} (fuel : nat) (cond : S -> bool) (body : S -> S)
    (s : S) :
  cond s = false -> while fuel cond body s = s.
Proof. intros H. destruct fuel; simpl; [reflexivity | now rewrite H]. Qed.

(** Fuel that covers a measure which every iteration decreases is enough:
    the loop stops because its condition is false. *)
Lemma while_exit {S : Type} (measure : S -> nat) (cond : S -> bool)
    (body : S -> S) :
  (forall s, cond s = true -> (measure (body s) < measure s)%nat) ->
  forall fuel s,
    (measure s <= fuel)%nat -> cond (while fuel cond body s) = false.
Proof.
  intros Hdec. induction fuel as [|fuel IH]; intros s Hfuel; simpl.
  - destruct (cond s) eqn:Hc; [|reflexivity].
    specialize (Hdec s Hc). lia.
  - destruct (cond s) eqn:Hc; [|assumption].
    apply IH. specialize (Hdec s Hc). lia.
Qed.

(** More fuel than that does not change the result. *)
Lemma while_fuel_irrelevant {S : Type} (measure : S -> nat)
    (cond : S -> bool) (body : S -> S) :
  (forall s, cond s = true -> (measure (body s) < measure s)%nat) ->
  forall fuel fuel' s,
    (measure s <= fuel)%nat -> (measure s <= fuel')%nat ->
    while fuel cond body s = while fuel' cond body s.
Proof.
  intros Hdec. induction fuel as [|fuel IH]; intros fuel' s Hfuel Hfuel'.
  - simpl. destruct (cond s) eqn:Hc.
    + specialize (Hdec s Hc). lia.
    + now rewrite while_false.
  - destruct fuel' as [|fuel']; simpl.
    + destruct (cond s) eqn:Hc; [|reflexivity].
      specialize (Hdec s Hc). lia.
    + destruct (cond s) eqn:Hc; [|reflexivity].
      specialize (Hdec s Hc). apply IH; lia.
Qed.

Lemma for_r_append_map_r {A B : Type}
    (f : list B -> A -> result (list B)) (g : A -> result B) :
  (forall acc x, f acc x = (y <- g x ;; Ok (append acc y))) ->
  forall l acc,
    for_r f l acc = (ys <- map_r g l ;; Ok (acc ++ ys)%list).
Proof.
  intros Hf. induction l as [|x l IH]; intros acc; simpl.
  - now rewrite app_nil_r.
  - rewrite Hf. destruct (g x) as [y|e]; simpl; [|reflexivity].
    rewrite IH. destruct (map_r g l) as [ys|e]; simpl; [|reflexivity].
    unfold append. now rewrite <- app_assoc.
Qed.

Lemma for_r_extend_map_r {A B : Type}
    (f : list B -> A -> result (list B)) (G : A -> result (list B)) :
  (forall acc x, f acc x = (ys <- G x ;; Ok (acc ++ ys)%list)) ->
  forall l acc,
    for_r f l acc = (yss <- map_r G l ;; Ok (acc ++ List.concat yss)%list).
Proof.
  intros Hf. induction l as [|x l IH]; intros acc; simpl.
  - now rewrite app_nil_r.
  - rewrite Hf. destruct (G x) as [ys|e]; simpl; [|reflexivity].
    rewrite IH. destruct (map_r G l) as [yss|e]; simpl; [|reflexivity].
    now rewrite <- app_assoc.
Qed.

Lemma map_r_In {A B : Type} (g : A -> result B) (l : list A) (ys : list B) :
  map_r g l = Ok ys ->
  forall x, In x l -> exists y, g x = Ok y /\ In y ys.
Proof.
  revert ys. induction l as [|x0 l IH]; intros ys H x Hx; [contradiction|].
  simpl in H. apply bind_ok in H. destruct H as (y0 & Hy0 & H).
  apply bind_ok in H. destruct H as (ys' & Hys' & H). inversion H; subst ys.
  destruct Hx as [->|Hx].
  - exists y0. split; [assumption | now left].
  - destruct (IH ys' Hys' x Hx) as (y & Hy & Hin).
    exists y. split; [assumption | now right].
Qed.

Lemma map_r_In_inv {A B : Type} (g : A -> result B) (l : list A)
    (ys : list B) :
  map_r g l = Ok ys ->
  forall y, In y ys -> exists x, In x l /\ g x = Ok y.
Proof.
  revert ys. induction l as [|x0 l IH]; intros ys H y Hy; simpl in H.
  - inversion H; subst. contradiction.
  - apply bind_ok in H. destruct H as (y0 & Hy0 & H).
    apply bind_ok in H. destruct H as (ys' & Hys' & H). inversion H; subst ys.
    destruct Hy as [->|Hy].
    + exists x0. split; [now left | assumption].
    + destruct (IH ys' Hys' y Hy) as (x & Hx & Hg).
      exists x. split; [now right | assumption].
Qed.

Lemma map_r_total {A B : Type} (g : A -> result B) (l : list A) :
  (forall x, In x l -> exists y, g x = Ok y) ->
  exists ys, map_r g l = Ok ys.
Proof.
  induction l as [|x l IH]; intros H; [now exists []|].
  destruct (H x (or_introl eq_refl)) as (y & Hy).
  destruct IH as (ys & Hys); [intros x' Hx'; apply H; now right|].
  exists (y :: ys). simpl. now rewrite Hy, Hys.
Qed.

Lemma map_r_pure {A B : Type} (g : A -> B) (l : list A) :
  map_r (fun x => Ok (g x)) l = Ok (map g l).
Proof.
  induction l as [|x l IH]; simpl; [reflexivity | now rewrite IH].
Qed.

Lemma scan_In {A S : Type} (g : S -> A -> S) (l : list A) (s : S) (x : A) :
  In x l -> exists s', In (x, s') (scan g l s).
Proof.
  revert s. induction l as [|x0 l IH]; intros s Hx; [contradiction|].
  destruct Hx as [->|Hx]; simpl.
  - exists (g s x). now left.
  - destruct (IH (g s x0) Hx) as (s' & Hs'). exists s'. now right.
Qed.

Lemma scan_In_inv {A S : Type} (g : S -> A -> S) (l : list A) (s : S)
    (x : A) (s' : S) :
  In (x, s') (scan g l s) -> In x l.
Proof.
  revert s. induction l as [|x0 l IH]; intros s H; [contradiction|].
  destruct H as [H|H]; [inversion H; now left | right; now apply (IH _ H)].
Qed.

Lemma range_In (lo hi i : nat) : In i (range lo hi) <-> (lo <= i < hi)%nat.
Proof. unfold range. rewrite in_seq. lia. Qed.

(** ** Sorting *)

Lemma Qltb_lt (x y : Q) : Qltb x y = true <-> (x < y)%Q.
Proof.
  unfold Qltb. rewrite negb_true_iff. split.
  - intros H. apply Qnot_le_lt. intros Hle.
    apply Qle_bool_iff in Hle. congruence.
  - intros H. destruct (Qle_bool y x) eqn:Hle; [|reflexivity].
    apply Qle_bool_iff in Hle. now apply Qlt_not_le in H.
Qed.

Lemma Qltb_ge (x y : Q) : Qltb x y = false <-> (y <= x)%Q.
Proof.
  unfold Qltb. rewrite negb_false_iff. apply Qle_bool_iff.
Qed.

Lemma insert_by_mass_perm {A : Type} (x : A * Q) (l : list (A * Q)) :
  Permutation (x :: l) (insert_by_mass x l).
Proof.
  induction l as [|y l IH]; simpl; [apply Permutation_refl|].
  destruct (Qltb (snd y) (snd x)); [|apply Permutation_refl].
  eapply Permutation_trans; [apply perm_swap|]. now apply perm_skip.
Qed.

Lemma sorted_by_mass_perm {A : Type} (l : list (A * Q)) :
  Permutation l (sorted_by_mass l).
Proof.
  induction l as [|x l IH]; simpl; [apply Permutation_refl|].
  eapply Permutation_trans; [|apply insert_by_mass_perm].
  now apply perm_skip.
Qed.

Lemma insert_by_mass_sorted {A : Type} (x : A * Q) (l : list (A * Q)) :
  StronglySorted mass_le l -> StronglySorted mass_le (insert_by_mass x l).
Proof.
  induction l as [|y l IH]; intros Hs; simpl.
  - constructor; constructor.
  - apply StronglySorted_inv in Hs. destruct Hs as (Hs & Hy).
    destruct (Qltb (snd y) (snd x)) eqn:Hlt.
    + constructor; [now apply IH|].
      apply (Permutation_Forall (insert_by_mass_perm x l)).
      constructor; [|assumption].
      apply Qltb_lt in Hlt. now apply Qlt_le_weak.
    + apply Qltb_ge in Hlt. constructor.
      * now constructor.
      * constructor; [assumption|].
        eapply Forall_impl; [|exact Hy].
        intros z Hz. unfold mass_le in *. now apply Qle_trans with (snd y).
Qed.

Lemma sorted_by_mass_sorted {A : Type} (l : list (A * Q)) :
  StronglySorted mass_le (sorted_by_mass l).
Proof.
  induction l as [|x l IH]; simpl; [constructor|].
  now apply insert_by_mass_sorted.
Qed.

(** An inserted entry only moves past strictly lighter ones, so it never
    overtakes an entry of its own mass. *)
Lemma insert_by_mass_stable {A : Type} (m : Q) (x : A * Q)
    (l : list (A * Q)) :
  with_mass m (insert_by_mass x l) = with_mass m (x :: l).
Proof.
  induction l as [|y l IH]; [reflexivity|].
  simpl insert_by_mass.
  destruct (Qltb (snd y) (snd x)) eqn:Hlt; [|reflexivity].
  apply Qltb_lt in Hlt.
  unfold with_mass in *. simpl in *. rewrite IH.
  destruct (Qeq_bool (snd y) m) eqn:Hy, (Qeq_bool (snd x) m) eqn:Hx;
    try reflexivity.
  apply Qeq_bool_eq in Hy, Hx. rewrite Hy, Hx in Hlt.
  now apply Qlt_irrefl in Hlt.
Qed.

Lemma sorted_by_mass_stable {A : Type} (l : list (A * Q)) :
  stable_rearrangement l (sorted_by_mass l).
Proof.
  split; [apply sorted_by_mass_perm|].
  intros m. induction l as [|x l IH]; [reflexivity|].
  simpl sorted_by_mass. rewrite insert_by_mass_stable.
  unfold with_mass in *. simpl. now rewrite IH.
Qed.

Lemma with_mass_In {A : Type} (x : A * Q) (l : list (A * Q)) :
  In x l <-> In x (with_mass (snd x) l).
Proof.
  unfold with_mass. rewrite filter_In. split; [|tauto].
  intros H. split; [assumption | apply Qeq_bool_refl].
Qed.

(** Ascending order and stability determine the arrangement. *)
Lemma stable_sorted_unique {A : Type} (l1 l2 : list (A * Q)) :
  StronglySorted mass_le l1 ->
  StronglySorted mass_le l2 ->
  (forall m, with_mass m l1 = with_mass m l2) ->
  l1 = l2.
Proof.
  revert l2. induction l1 as [|x l1 IH]; intros l2 Hs1 Hs2 Heq.
  - destruct l2 as [|y l2]; [reflexivity|].
    specialize (Heq (snd y)). unfold with_mass in Heq. simpl in Heq.
    rewrite Qeq_bool_refl in Heq. discriminate.
  - destruct l2 as [|y l2].
    + specialize (Heq (snd x)). unfold with_mass in Heq. simpl in Heq.
      rewrite Qeq_bool_refl in Heq. discriminate.
    + apply StronglySorted_inv in Hs1, Hs2.
      destruct Hs1 as (Hs1 & Hx), Hs2 as (Hs2 & Hy).
      assert (Hxy : (snd x == snd y)%Q).
      { apply Qle_antisym.
        - assert (Hin : In y (x :: l1)).
          { apply (proj2 (with_mass_In y (x :: l1))). rewrite Heq.
            apply (proj1 (with_mass_In y (y :: l2))). now left. }
          destruct Hin as [->|Hin]; [apply Qle_refl|].
          rewrite Forall_forall in Hx. exact (Hx y Hin).
        - assert (Hin : In x (y :: l2)).
          { apply (proj2 (with_mass_In x (y :: l2))). rewrite <- Heq.
            apply (proj1 (with_mass_In x (x :: l1))). now left. }
          destruct Hin as [->|Hin]; [apply Qle_refl|].
          rewrite Forall_forall in Hy. exact (Hy x Hin). }
      assert (Hhead : x = y).
      { specialize (Heq (snd x)). unfold with_mass in Heq. simpl in Heq.
        rewrite Qeq_bool_refl in Heq.
        rewrite (Qeq_eq_bool _ _ (Qeq_sym _ _ Hxy)) in Heq. congruence. }
      subst y. f_equal. apply IH; try assumption.
      intros m. specialize (Heq m). unfold with_mass in *. simpl in Heq.
      destruct (Qeq_bool (snd x) m); congruence.
Qed.

(** ** The generator: the order of the categories *)

Lemma set_iter_nil (order : SetOrder) (s2 : string) :
  set_iter order s2 [] = [].
Proof. apply Permutation_nil, Permutation_sym, set_iter_perm. Qed.

(** A set with at most one element is iterated in one way only. *)
Lemma set_iter_short (o1 o2 : SetOrder) (s1 s2 : string)
    (l : list ascii) :
  (List.length l <= 1)%nat -> set_iter o1 s1 l = set_iter o2 s2 l.
Proof.
  intros Hlen. destruct l as [|c [|c' l]]; [| |simpl in Hlen; lia].
  - now rewrite !set_iter_nil.
  - now rewrite !(Permutation_length_1_inv
                    (Permutation_sym (set_iter_perm _ _ [c]))).
Qed.

(** The generator depends on the iteration order of the sets only through
    the two lists of categories it visits. *)
Lemma get_theoretical_fragments_order (E : Pyteomics) (o1 o2 : SetOrder)
    (p : Proteoform) (ion_types : string) (max_charge : Z) nl :
  set_iter o1 ion_types (set_inter "abc" ion_types)
  = set_iter o2 ion_types (set_inter "abc" ion_types) ->
  set_iter o1 ion_types (set_inter "xyz" ion_types)
  = set_iter o2 ion_types (set_inter "xyz" ion_types) ->
  get_theoretical_fragments E o1 p ion_types max_charge nl
  = get_theoretical_fragments E o2 p ion_types max_charge nl.
Proof.
  intros H1 H2.
  unfold get_theoretical_fragments, get_fragments_masses, get_base_fragments,
    n_terminal_fragments, c_terminal_fragments.
  now rewrite H1, H2.
Qed.

(** ** The generator: neutral losses and the final sort *)

Section GeneratorProperties.

Variable E : Pyteomics.
Variable order : SetOrder.

Lemma get_theoretical_fragments_ok (p : Proteoform) (ion_types : string)
    (max_charge : Z) nl (out : list fragment_mass) :
  get_theoretical_fragments E order p ion_types max_charge nl = Ok out ->
  exists fm nlf,
    get_fragments_masses E order p ion_types max_charge = Ok fm
    /\ neutral_loss_fragments_of (default_losses nl) fm = Ok nlf
    /\ out = sorted_by_mass (fm ++ nlf).
Proof.
  unfold get_theoretical_fragments. intros H.
  apply bind_ok in H. destruct H as (fm & Hfm & H).
  apply bind_ok in H. destruct H as (nlf & Hnlf & H).
  exists fm, nlf. repeat split; try assumption. now inversion H.
Qed.

Lemma neutral_loss_fragments_of_map_r (nl : dict (option string) Q)
    (fm : list fragment_mass) :
  neutral_loss_fragments_of nl fm
  = (yss <- map_r (fun item : option string * Q =>
                     match fst item with
                     | None => Ok []
                     | Some name =>
                         map_r (loss_fragment (loss_token name (snd item))
                                  (snd item)) fm
                     end) nl ;;
     Ok (List.concat yss)).
Proof.
  unfold neutral_loss_fragments_of.
  rewrite for_r_extend_map_r
    with (G := fun item : option string * Q =>
                 match fst item with
                 | None => Ok []
                 | Some name =>
                     map_r (loss_fragment (loss_token name (snd item))
                              (snd item)) fm
                 end); [reflexivity|].
  intros acc [[name|] D]; simpl; [|now rewrite app_nil_r].
  now apply for_r_append_map_r.
Qed.

Lemma loss_fragment_ok (token : string) (D : Q) (F F' : FragmentAnnotation)
    (M M' : Q) :
  loss_fragment token D (F, M) = Ok (F', M') ->
  exists c,
    charge F = Some c
    /\ M' = (M + D / inject_Z c)%Q
    /\ ion_type F' = ion_type F
    /\ charge F' = charge F
    /\ neutral_loss F' = Some token.
Proof.
  unfold loss_fragment. intros H.
  apply bind_ok in H. destruct H as (a & Ha & H).
  apply bind_ok in H. destruct H as (m & Hm & H).
  inversion H; subst a m; clear H.
  apply init_ok in Ha. destruct Ha as (-> & _).
  unfold loss_mass in Hm. destruct (charge F) as [c|]; [|discriminate].
  inversion Hm; subst. exists c. repeat split.
Qed.

Lemma loss_token_sign (name : string) (D : Q) :
  loss_token name D = (if Qlt_le_dec D 0 then "-" else "+") ++ name.
Proof.
  unfold loss_token. destruct (Qlt_le_dec D 0) as [Hlt|Hge].
  - apply Qltb_lt in Hlt. now rewrite Hlt.
  - apply Qltb_ge in Hge. now rewrite Hge.
Qed.

(** C3.  For every entry [(name, D)] of the neutral-loss mapping [d] that
    the caller supplies whose name is not [None], and every fragment
    [(F, M)] generated before the expansion, the output contains a fragment
    with the ion type and the charge of [F], the neutral loss ["-name"] if
    [D < 0] and ["+name"] otherwise, and the mass [M + D / charge(F)];
    every fragment generated before the expansion is still in the output.
    The fragments generated before the expansion are those that the call
    without neutral losses returns. *)
Theorem neutral_loss_expansion :
  forall (p : Proteoform) (ion_types : string) (max_charge : Z)
         (d : dict (option string) Q) out,
    get_theoretical_fragments E order p ion_types max_charge (Some d)
    = Ok out ->
    exists fm,
      get_fragments_masses E order p ion_types max_charge = Ok fm
      /\ (exists out0,
             get_theoretical_fragments E order p ion_types max_charge None
             = Ok out0
             /\ Permutation fm out0)
      /\ (forall x, In x fm -> In x out)
      /\ (forall name D F M,
             In (Some name, D) d ->
             In (F, M) fm ->
             exists c F',
               charge F = Some c
               /\ In (F', (M + D / inject_Z c)%Q) out
               /\ ion_type F' = ion_type F
               /\ charge F' = charge F
               /\ neutral_loss F'
                  = Some ((if Qlt_le_dec D 0 then "-" else "+") ++ name)).
Proof.
  intros p ion_types max_charge d out Hout.
  apply get_theoretical_fragments_ok in Hout.
  destruct Hout as (fm & nlf & Hfm & Hnlf & ->).
  cbn [default_losses] in Hnlf.
  exists fm. split; [assumption|]. split; [|split].
  - exists (sorted_by_mass (fm ++ [])). split.
    + unfold get_theoretical_fragments. rewrite Hfm. reflexivity.
    + rewrite app_nil_r. apply sorted_by_mass_perm.
  - intros x Hx. apply (Permutation_in _ (sorted_by_mass_perm _)).
    apply in_or_app. now left.
  - intros name D F M Hloss HF.
    rewrite neutral_loss_fragments_of_map_r in Hnlf.
    apply bind_ok in Hnlf. destruct Hnlf as (yss & Hyss & Hnlf).
    inversion Hnlf; subst nlf; clear Hnlf.
    destruct (map_r_In _ _ _ Hyss _ Hloss) as (ys & Hys & Hin).
    simpl in Hys.
    destruct (map_r_In _ _ _ Hys _ HF) as ([F' M'] & HF' & HinF').
    apply loss_fragment_ok in HF'.
    destruct HF' as (c & Hc & -> & Hit & Hch & Hnl).
    exists c, F'. repeat split; try assumption.
    + apply (Permutation_in _ (sorted_by_mass_perm _)).
      apply in_or_app. right. apply in_concat. now exists ys.
    + now rewrite Hnl, loss_token_sign.
Qed.

(** C4.  The returned list is in ascending order of mass and is a stable
    rearrangement of the generated list (the fragments, then their
    neutral-loss variants): the mass is the only key, and entries of equal
    mass keep their generation order.  That fixes the list: any ascending,
    stable rearrangement of the generated list is the returned list, and two
    calls on the same input return the same list. *)
Theorem output_sorted_by_mass_stably :
  forall (p : Proteoform) (ion_types : string) (max_charge : Z) nl out,
    get_theoretical_fragments E order p ion_types max_charge nl = Ok out ->
    exists fm nlf,
      get_fragments_masses E order p ion_types max_charge = Ok fm
      /\ neutral_loss_fragments_of (default_losses nl) fm = Ok nlf
      /\ StronglySorted mass_le out
      /\ stable_rearrangement (fm ++ nlf) out
      /\ (forall out',
             StronglySorted mass_le out' ->
             stable_rearrangement (fm ++ nlf) out' -> out' = out)
      /\ (forall out',
             get_theoretical_fragments E order p ion_types max_charge nl
             = Ok out' -> out' = out)
      /\ ((List.length (set_inter "abc" ion_types) <= 1)%nat ->
          (List.length (set_inter "xyz" ion_types) <= 1)%nat ->
          forall order' : SetOrder,
            get_theoretical_fragments E order' p ion_types max_charge nl
            = Ok out).
Proof.
  intros p ion_types max_charge nl out Hout.
  destruct (get_theoretical_fragments_ok _ _ _ _ _ Hout)
    as (fm & nlf & Hfm & Hnlf & Heq).
  exists fm, nlf. split; [assumption|]. split; [assumption|].
  split; [subst out; apply sorted_by_mass_sorted|].
  split; [subst out; apply sorted_by_mass_stable|]. split; [|split].
  - intros out' Hsorted (_ & Hstable). subst out.
    apply stable_sorted_unique;
      [assumption | apply sorted_by_mass_sorted |].
    intros m. rewrite Hstable.
    symmetry. apply sorted_by_mass_stable.
  - intros out' Hout'. congruence.
  - intros Hn Hc order'. rewrite <- Hout.
    apply get_theoretical_fragments_order; apply set_iter_short;
      assumption.
Qed.

End GeneratorProperties.

Lemma neutral_loss_expansion_witness :
  let p := unmodified "PEP" in
  let d := [(Some "H2O", (-18.010565)%Q); (None, 0%Q);
            (Some "CH2", 14.01565%Q)] in
  match get_theoretical_fragments sample_pyteomics listing_order p "y" 1
          (Some d)
  with
  | Ok out =>
      map (fun x => (ion_type (fst x), neutral_loss (fst x))) out
      = [("y1", Some "-H2O"); ("y1", None); ("y1", Some "+CH2");
         ("y2", Some "-H2O"); ("y2", None); ("y2", Some "+CH2")]
      /\ exists M F',
           In (plain_annotation "y1" 1, M) out
           /\ (M == 116.07060115047)%Q
           /\ In (F', (M + (-18.010565) / inject_Z 1)%Q) out
           /\ ion_type F' = "y1"
           /\ charge F' = Some 1
           /\ neutral_loss F' = Some "-H2O"
  | Raise _ => False
  end.
Proof.
  intros p d.
  destruct (get_theoretical_fragments sample_pyteomics listing_order p "y" 1
              (Some d)) as [out|e] eqn:Hout;
    [|vm_compute in Hout; discriminate].
  split.
  - vm_compute in Hout. inversion Hout. reflexivity.
  - destruct (neutral_loss_expansion sample_pyteomics listing_order p "y" 1
                d out Hout) as (fm & Hfm & _ & Hkept & Hloss).
    vm_compute in Hfm. inversion Hfm as [Hfm']. clear Hfm.
    match type of Hfm' with
    | ((?F, ?M) :: _) = fm =>
        assert (HF : In (F, M) fm) by (rewrite <- Hfm'; left; reflexivity);
        destruct (Hloss "H2O" (-18.010565)%Q F M (or_introl eq_refl) HF)
          as (c & F' & Hc & Hin & Hit & Hch & Hnl);
        exists M, F'
    end.
    cbn [charge ion_type] in Hc, Hit, Hch. inversion Hc; subst c.
    split; [apply Hkept; exact HF|]. split; [reflexivity|].
    split; [exact Hin|]. split; [exact Hit|]. split; [exact Hch|].
    rewrite Hnl. destruct (Qlt_le_dec (-18.010565) 0) as [_|Hge];
      [reflexivity|].
    exfalso. apply Hge. reflexivity.
Defined.

Lemma output_sorted_by_mass_stably_witness :
  let p := unmodified "PEP" in
  match get_theoretical_fragments sample_pyteomics listing_order p "byI" 1
          None
  with
  | Ok out =>
      StronglySorted mass_le out
      /\ map (fun x => ion_type (fst x)) (with_mass 86.09697041251%Q out)
         = ["IL"; "II"; "IJ"]
  | Raise _ => False
  end.
Proof.
  intros p.
  destruct (get_theoretical_fragments sample_pyteomics listing_order p "byI" 1
              None) as [out|e] eqn:Hout.
  - destruct (output_sorted_by_mass_stably sample_pyteomics listing_order p
                "byI" 1 None out Hout)
      as (fm & nlf & Hfm & Hnlf & Hsorted & (_ & Hstable) & _).
    split; [exact Hsorted|].
    rewrite Hstable.
    vm_compute in Hfm. inversion Hfm; subst fm; clear Hfm.
    vm_compute in Hnlf. inversion Hnlf; subst nlf; clear Hnlf.
    vm_compute. reflexivity.
  - vm_compute in Hout. discriminate.
Defined.

(** ** The generator: base fragments *)

Section BaseFragments.

Variable order : SetOrder.
Variable p : Proteoform.

Lemma n_terminal_fragment_step (t : string) (cur : nat * Q)
    (base : list base_fragment) (i : nat) :
  n_terminal_fragment p t (cur, base) i
  = (prefix_modifications p i cur,
     append base (n_entry p t (i, prefix_modifications p i cur))).
Proof.
  destruct cur as [mod_i mod_mass]. unfold n_terminal_fragment, n_entry.
  now destruct (prefix_modifications p i (mod_i, mod_mass)).
Qed.

Lemma c_terminal_fragment_step (t : string) (cur : option Z * Q)
    (base : list base_fragment) (i : nat) :
  c_terminal_fragment p t (cur, base) i
  = (suffix_modifications p i cur,
     append base (c_entry p t (i, suffix_modifications p i cur))).
Proof.
  destruct cur as [mod_i mod_mass]. unfold c_terminal_fragment, c_entry.
  now destruct (suffix_modifications p i (mod_i, mod_mass)).
Qed.

Lemma n_terminal_walk (t : string) (l : list nat) (cur : nat * Q)
    (base : list base_fragment) :
  fold_left (n_terminal_fragment p t) l (cur, base)
  = (fold_left (fun c i => prefix_modifications p i c) l cur,
     (base ++ map (n_entry p t)
                (scan (fun c i => prefix_modifications p i c) l cur))%list).
Proof.
  revert cur base. induction l as [|i l IH]; intros cur base;
    cbn [fold_left scan map].
  - now rewrite app_nil_r.
  - rewrite n_terminal_fragment_step, IH. unfold append.
    now rewrite <- app_assoc.
Qed.

Lemma c_terminal_walk (t : string) (l : list nat) (cur : option Z * Q)
    (base : list base_fragment) :
  fold_left (c_terminal_fragment p t) l (cur, base)
  = (fold_left (fun c i => suffix_modifications p i c) l cur,
     (base ++ map (c_entry p t)
                (scan (fun c i => suffix_modifications p i c) l cur))%list).
Proof.
  revert cur base. induction l as [|i l IH]; intros cur base;
    cbn [fold_left scan map].
  - now rewrite app_nil_r.
  - rewrite c_terminal_fragment_step, IH. unfold append.
    now rewrite <- app_assoc.
Qed.

Lemma scan_invariant {A S : Type} (Inv : S -> Prop) (g : S -> A -> S) :
  (forall s x, Inv s -> Inv (g s x)) ->
  forall l s,
    Inv s ->
    Inv (fold_left g l s)
    /\ forall x s', In (x, s') (scan g l s) -> Inv s'.
Proof.
  intros Hg. induction l as [|x0 l IH]; intros s Hs; simpl.
  - split; [assumption | contradiction].
  - destruct (IH (g s x0) (Hg s x0 Hs)) as (Hfold & Hscan).
    split; [assumption|].
    intros x s' [Heq|Hin]; [inversion Heq; subst; now apply Hg|].
    now apply (Hscan x).
Qed.

(** What a walk over several categories appends: for every category and
    every cleavage index one entry, and nothing else; an invariant of the
    cursor holds at every entry. *)
Lemma terminal_walks {C : Type}
    (step : string -> C * list base_fragment -> nat
            -> C * list base_fragment)
    (g : C -> nat -> C) (entry : string -> nat * C -> base_fragment)
    (rng : list nat) (Inv : C -> Prop) :
  (forall t l cur base,
      fold_left (step t) l (cur, base)
      = (fold_left g l cur,
         (base ++ map (entry t) (scan g l cur))%list)) ->
  (forall s i, Inv s -> Inv (g s i)) ->
  forall (cats : list ascii) cur base,
  Inv cur ->
  exists cur' added,
    fold_left (fun st c => fold_left (step (str1 c)) rng st) cats (cur, base)
    = (cur', (base ++ added)%list)
    /\ Inv cur'
    /\ (forall c i,
           In c cats -> In i rng ->
           exists s, In (entry (str1 c) (i, s)) added)
    /\ (forall bf,
           In bf added ->
           exists c i s,
             In c cats /\ In i rng /\ Inv s /\ bf = entry (str1 c) (i, s)).
Proof.
  intros Hwalk Hg. induction cats as [|c cats IH]; intros cur base Hcur;
    simpl.
  - exists cur, []. rewrite app_nil_r. repeat split; try assumption;
      contradiction.
  - rewrite Hwalk.
    destruct (scan_invariant Inv g Hg rng cur Hcur) as (Hfold & Hscan).
    destruct (IH (fold_left g rng cur)
                (base ++ map (entry (str1 c)) (scan g rng cur))%list Hfold)
      as (cur' & added & Heq & Hcur' & Hall & Honly).
    exists cur', (map (entry (str1 c)) (scan g rng cur) ++ added)%list.
    rewrite Heq, <- app_assoc. split; [reflexivity|].
    split; [assumption|]. split.
    + intros c' i [->|Hc'] Hi.
      * destruct (scan_In g rng cur i Hi) as (s & Hs).
        exists s. apply in_or_app. left.
        now apply (in_map (entry (str1 c')) _ (i, s)).
      * destruct (Hall c' i Hc' Hi) as (s & Hs).
        exists s. apply in_or_app. now right.
    + intros bf Hbf. apply in_app_or in Hbf. destruct Hbf as [Hbf|Hbf].
      * apply in_map_iff in Hbf. destruct Hbf as ([i s] & <- & Hin).
        exists c, i, s. split; [now left|].
        split; [now apply scan_In_inv in Hin|].
        split; [now apply (Hscan i)|reflexivity].
      * destruct (Honly bf Hbf) as (c' & i & s & Hc' & Hi & Hs & ->).
        exists c', i, s. repeat split; [now right | assumption | assumption].
Qed.

Lemma mod_at_Some_len (i : nat) (m : Modification) :
  mod_at p i = Some m -> (i < mods_len p)%nat.
Proof.
  unfold mod_at, mods_len. destruct (modifications p) as [ms|]; [|discriminate].
  intros H. apply nth_error_Some. congruence.
Qed.

(** Whenever the loop over the internal modifications returns, it has not
    run its body, which raises, and its condition is false. *)
Lemma while_r_internal_ok (stop_i : nat) (st st' : nat * Q) :
  while_r (mods_len p) (internal_cond p stop_i) (internal_body p) st = Ok st'
  -> st' = st /\ internal_cond p stop_i st = Ok false.
Proof.
  unfold internal_cond, internal_body.
  destruct (mod_at p (fst st)) as [m|] eqn:Hm.
  - apply mod_at_Some_len in Hm as Hlen.
    destruct (mods_len p) as [|fuel]; [lia|]. simpl. rewrite Hm.
    destruct (lt_unguarded (position m) (Z.of_nat stop_i)) as [[|]|e];
      simpl; try discriminate.
    intros H. inversion H. now split.
  - destruct (mods_len p) as [|fuel]; simpl; [|rewrite Hm; simpl];
      intros H; inversion H; now split.
Qed.

Lemma internal_fragment_ok (start_i stop_i : nat) (cur : nat * Q)
    (base : list base_fragment) st' :
  internal_fragment p start_i (cur, base) stop_i = Ok st' ->
  st' = (cur, append base (m_entry p start_i stop_i (snd cur))).
Proof.
  destruct cur as [mod_i mod_mass]. unfold internal_fragment. intros H.
  apply bind_ok in H. destruct H as (st1 & Hst1 & H).
  apply while_r_internal_ok in Hst1. destruct Hst1 as (-> & _).
  now inversion H.
Qed.

Lemma internal_stops_ok (start_i : nat) (stops : list nat) (cur : nat * Q)
    (base : list base_fragment) st' :
  for_r (internal_fragment p start_i) stops (cur, base) = Ok st' ->
  st' = (cur,
         (base ++ map (fun stop_i => m_entry p start_i stop_i (snd cur))
                    stops)%list).
Proof.
  revert base. induction stops as [|stop_i stops IH]; intros base H;
    cbn [for_r map] in *.
  - inversion H. now rewrite app_nil_r.
  - apply bind_ok in H. destruct H as (st1 & Hst1 & H).
    apply internal_fragment_ok in Hst1. subst st1.
    apply IH in H. rewrite H. unfold append. now rewrite <- app_assoc.
Qed.

Lemma internal_fragments_from_ok (base base' : list base_fragment)
    (start_i : nat) :
  internal_fragments_from p base start_i = Ok base' ->
  base'
  = (base ++ map (fun stop_i => m_entry p start_i stop_i 0%Q)
               (range (start_i + 2) (String.length (sequence p))))%list.
Proof.
  unfold internal_fragments_from. intros H.
  apply bind_ok in H. destruct H as (st & Hst & H).
  apply internal_stops_ok in Hst. subst st. now inversion H.
Qed.

(** When the generation of the internal fragments returns, every internal
    range has got its tuple, with the modification mass 0. *)
Lemma internal_fragments_ok (starts : list nat)
    (base base' : list base_fragment) :
  for_r (internal_fragments_from p) starts base = Ok base' ->
  base'
  = (base ++ flat_map
               (fun start_i =>
                  map (fun stop_i => m_entry p start_i stop_i 0%Q)
                    (range (start_i + 2) (String.length (sequence p))))
               starts)%list.
Proof.
  revert base. induction starts as [|start_i starts IH]; intros base H;
    cbn [for_r flat_map] in *.
  - inversion H. now rewrite app_nil_r.
  - apply bind_ok in H. destruct H as (base1 & Hbase1 & H).
    apply internal_fragments_from_ok in Hbase1. subst base1.
    apply IH in H. rewrite H. now rewrite <- app_assoc.
Qed.

Lemma internal_entries_ranges (starts : list nat) (len : nat) :
  flat_map (fun start_i =>
              map (fun stop_i => m_entry p start_i stop_i 0%Q)
                (range (start_i + 2) len)) starts
  = map (fun r => m_entry p (fst r) (snd r) 0%Q)
      (flat_map (fun start_i =>
                   map (fun stop_i => (start_i, stop_i))
                     (range (start_i + 2) len)) starts).
Proof.
  induction starts as [|start_i starts IH]; [reflexivity|].
  cbn [flat_map]. rewrite map_app, IH, map_map. reflexivity.
Qed.

(** The shape of the list of base fragments when its generation returns;
    [InvN] is any invariant of the cursor of the N-terminal walk. *)
Lemma get_base_fragments_inv (InvN : nat * Q -> Prop) (ion_types : string)
    (base : list base_fragment) :
  InvN (O, 0%Q) ->
  (forall s i, InvN s -> InvN (prefix_modifications p i s)) ->
  get_base_fragments order p ion_types = Ok base ->
  exists n_added c_added,
    n_added = snd (n_terminal_fragments order p ion_types (O, 0%Q, []))
    /\ base
    = (n_added ++ c_added
         ++ (if char_in "m" ion_types
             then map (fun r => m_entry p (fst r) (snd r) 0%Q)
                    (internal_ranges p)
             else [])
         ++ (if char_in "p" ion_types then [p_entry p] else []))%list
    /\ (forall c i,
           In c (set_inter "abc" ion_types) ->
           In i (range 1 (String.length (sequence p))) ->
           exists s, In (n_entry p (str1 c) (i, s)) n_added)
    /\ (forall bf,
           In bf n_added ->
           exists c i s,
             In c (set_inter "abc" ion_types)
             /\ In i (range 1 (String.length (sequence p)))
             /\ InvN s
             /\ bf = n_entry p (str1 c) (i, s))
    /\ (forall c i,
           In c (set_inter "xyz" ion_types) ->
           In i (range 1 (String.length (sequence p))) ->
           exists s, In (c_entry p (str1 c) (i, s)) c_added)
    /\ (forall bf,
           In bf c_added ->
           exists c i s,
             In c (set_inter "xyz" ion_types)
             /\ In i (range 1 (String.length (sequence p)))
             /\ bf = c_entry p (str1 c) (i, s)).
Proof.
  intros Hinit Hpres.
  unfold get_base_fragments, n_terminal_fragments, c_terminal_fragments.
  destruct (terminal_walks (n_terminal_fragment p)
              (fun c i => prefix_modifications p i c) (n_entry p)
              (range 1 (String.length (sequence p))) InvN n_terminal_walk
              Hpres (set_iter order ion_types (set_inter "abc" ion_types))
              (O, 0%Q) []
              Hinit)
    as (ncur & n_added & -> & _ & Hn_all & Hn_only).
  destruct ncur as [n_i n_mass]. cbn [app].
  set (ccur0 := match modifications p with
                | Some ms => (Some (Z.of_nat (List.length ms) - 1), 0%Q)
                | None => (None, n_mass)
                end).
  destruct ccur0 as [c_i c_mass] eqn:Hccur0.
  destruct (terminal_walks (c_terminal_fragment p)
              (fun c i => suffix_modifications p i c) (c_entry p)
              (rev (range 1 (String.length (sequence p))))
              (fun _ => True) c_terminal_walk (fun _ _ _ => I)
              (set_iter order ion_types (set_inter "xyz" ion_types))
              (c_i, c_mass)
              n_added I)
    as (ccur & c_added & -> & _ & Hc_all & Hc_only).
  destruct ccur as [c_i' c_mass'].
  intros H. apply bind_ok in H. destruct H as (base1 & Hbase1 & H).
  inversion H; subst base; clear H.
  exists n_added, c_added. split; [reflexivity|]. split.
  - destruct (char_in "m" ion_types).
    + apply internal_fragments_ok in Hbase1. subst base1.
      rewrite internal_entries_ranges. fold (internal_ranges p).
      destruct (char_in "p" ion_types); unfold append, p_entry;
        now rewrite <- ?app_assoc, ?app_nil_r.
    + inversion Hbase1; subst base1.
      destruct (char_in "p" ion_types); unfold append, p_entry; cbn [app];
        now rewrite <- ?app_assoc, ?app_nil_r.
  - assert (Hperm : forall s c,
               In c (set_iter order ion_types (set_inter s ion_types))
               <-> In c (set_inter s ion_types)).
    { intros s c. split; apply Permutation_in;
        [|apply Permutation_sym]; apply set_iter_perm. }
    repeat split.
    + intros c i Hc Hi. apply Hn_all; [now apply Hperm | assumption].
    + intros bf Hbf.
      destruct (Hn_only bf Hbf) as (c & i & s & Hc & Hi & Hs & ->).
      exists c, i, s. repeat split; [now apply Hperm | assumption..].
    + intros c i Hc Hi. apply Hc_all; [now apply Hperm|].
      now apply in_rev in Hi.
    + intros bf Hbf.
      destruct (Hc_only bf Hbf) as (c & i & s & Hc & Hi & _ & ->).
      exists c, i, s. repeat split; [now apply Hperm|].
      now apply in_rev.
Qed.

Lemma get_base_fragments_ok (ion_types : string)
    (base : list base_fragment) :
  get_base_fragments order p ion_types = Ok base ->
  exists n_added c_added,
    base
    = (n_added ++ c_added
         ++ (if char_in "m" ion_types
             then map (fun r => m_entry p (fst r) (snd r) 0%Q)
                    (internal_ranges p)
             else [])
         ++ (if char_in "p" ion_types then [p_entry p] else []))%list
    /\ (forall c i,
           In c (set_inter "abc" ion_types) ->
           In i (range 1 (String.length (sequence p))) ->
           exists s, In (n_entry p (str1 c) (i, s)) n_added)
    /\ (forall bf,
           In bf n_added ->
           exists c i s,
             In c (set_inter "abc" ion_types)
             /\ In i (range 1 (String.length (sequence p)))
             /\ bf = n_entry p (str1 c) (i, s))
    /\ (forall c i,
           In c (set_inter "xyz" ion_types) ->
           In i (range 1 (String.length (sequence p))) ->
           exists s, In (c_entry p (str1 c) (i, s)) c_added)
    /\ (forall bf,
           In bf c_added ->
           exists c i s,
             In c (set_inter "xyz" ion_types)
             /\ In i (range 1 (String.length (sequence p)))
             /\ bf = c_entry p (str1 c) (i, s)).
Proof.
  intros Hbase.
  destruct (get_base_fragments_inv (fun _ => True) ion_types base I
              (fun _ _ _ => I) Hbase)
    as (n_added & c_added & _ & Heq & Hn_all & Hn_only & Hc).
  exists n_added, c_added. split; [assumption|]. split; [assumption|].
  split; [|assumption].
  intros bf Hbf. destruct (Hn_only bf Hbf) as (c & i & s & Hc0 & Hi & _ & ->).
  now exists c, i, s.
Qed.

End BaseFragments.

(** ** The generator: charged masses and immonium ions *)

Section Fragments.

Variable E : Pyteomics.
Variable order : SetOrder.

Lemma charged_fragments_map_r (max_charge : Z) (base : list base_fragment) :
  charged_fragments E max_charge base
  = (yss <- map_r (fun bf => map_r (charged_mass E bf) (charges max_charge))
              base ;;
     Ok (List.concat yss)).
Proof.
  unfold charged_fragments.
  rewrite for_r_extend_map_r
    with (G := fun bf => map_r (charged_mass E bf) (charges max_charge));
    [reflexivity|].
  intros acc bf. now apply for_r_append_map_r.
Qed.

Lemma charged_mass_ok (s t : string) (fi : frag_index) (mm : Q) (ch : Z)
    (a : FragmentAnnotation) (M : Q) :
  charged_mass E (s, t, fi, mm) ch = Ok (a, M) ->
  a = plain_annotation (annot_type_of t fi) ch
  /\ exists m,
       fast_mass E s t ch (_aa_mass E) = Ok m
       /\ M = (m + mm / inject_Z ch)%Q.
Proof.
  unfold charged_mass. intros H.
  apply bind_ok in H. destruct H as (a' & Ha' & H).
  apply bind_ok in H. destruct H as (m & Hm & H).
  inversion H; subst a' M; clear H.
  apply init_ok in Ha'. destruct Ha' as (-> & _).
  split; [reflexivity|]. now exists m.
Qed.

Lemma charges_In (max_charge ch : Z) :
  In ch (charges max_charge) <-> 1 <= ch <= max_charge.
Proof.
  unfold charges. rewrite in_map_iff. split.
  - intros (n & <- & Hn). apply range_In in Hn. lia.
  - intros H. exists (Z.to_nat ch). split; [lia|]. apply range_In. lia.
Qed.

Lemma immonium_mass_ok (mass_diff : Q) (aa : string) (m : Q) :
  immonium_mass mass_diff aa m
  = Ok (plain_annotation ("I" ++ aa) 1, (m - mass_diff)%Q).
Proof. reflexivity. Qed.

Lemma immonium_fragments_ok (fm : list fragment_mass) :
  immonium_fragments E fm
  = Ok (fm ++ map (immonium_entry E) (immonium_residues E))%list.
Proof.
  unfold immonium_fragments, immonium_residues.
  generalize (_aa_mass E) as d. intros d. revert fm.
  induction d as [|[aa m] d IH]; intros fm; cbn [for_r filter map fst].
  - now rewrite app_nil_r.
  - destruct (negb (aa =? "X")%string).
    + rewrite immonium_mass_ok. cbn [bind]. rewrite IH. unfold append.
      rewrite <- app_assoc. reflexivity.
    + cbn [bind]. apply IH.
Qed.

Lemma get_fragments_masses_ok (p : Proteoform) (ion_types : string)
    (max_charge : Z) (fm : list fragment_mass) :
  get_fragments_masses E order p ion_types max_charge = Ok fm ->
  char_in "B" (sequence p) = false
  /\ char_in "Z" (sequence p) = false
  /\ exists base yss,
       get_base_fragments order p ion_types = Ok base
       /\ map_r (fun bf => map_r (charged_mass E bf) (charges max_charge))
            base = Ok yss
       /\ fm = (List.concat yss
                  ++ (if char_in "I" ion_types
                      then map (immonium_entry E) (immonium_residues E)
                      else []))%list.
Proof.
  unfold get_fragments_masses.
  destruct (char_in "B" (sequence p)); [discriminate|].
  destruct (char_in "Z" (sequence p)); [discriminate|].
  intros H. split; [reflexivity|]. split; [reflexivity|].
  apply bind_ok in H. destruct H as (base & Hbase & H).
  apply bind_ok in H. destruct H as (fm0 & Hfm0 & H).
  rewrite charged_fragments_map_r in Hfm0.
  apply bind_ok in Hfm0. destruct Hfm0 as (yss & Hyss & Hfm0).
  inversion Hfm0; subst fm0; clear Hfm0.
  exists base, yss. split; [assumption|]. split; [assumption|].
  destruct (char_in "I" ion_types).
  - rewrite immonium_fragments_ok in H. now inversion H.
  - inversion H. now rewrite app_nil_r.
Qed.

(** Every base fragment and every charge has its fragment. *)
Lemma charged_In (max_charge : Z) (base : list base_fragment)
    (yss : list (list fragment_mass)) (bf : base_fragment) (ch : Z) :
  map_r (fun bf => map_r (charged_mass E bf) (charges max_charge)) base
  = Ok yss ->
  In bf base -> 1 <= ch <= max_charge ->
  exists x, charged_mass E bf ch = Ok x /\ In x (List.concat yss).
Proof.
  intros Hyss Hbf Hch.
  destruct (map_r_In _ _ _ Hyss _ Hbf) as (ys & Hys & Hin).
  apply charges_In in Hch.
  destruct (map_r_In _ _ _ Hys _ Hch) as (x & Hx & Hinx).
  exists x. split; [assumption|]. apply in_concat. now exists ys.
Qed.

Lemma charged_In_inv (max_charge : Z) (base : list base_fragment)
    (yss : list (list fragment_mass)) (x : fragment_mass) :
  map_r (fun bf => map_r (charged_mass E bf) (charges max_charge)) base
  = Ok yss ->
  In x (List.concat yss) ->
  exists bf ch,
    In bf base /\ 1 <= ch <= max_charge /\ charged_mass E bf ch = Ok x.
Proof.
  intros Hyss Hx. apply in_concat in Hx. destruct Hx as (ys & Hys & Hx).
  destruct (map_r_In_inv _ _ _ Hyss _ Hys) as (bf & Hbf & Hmap).
  destruct (map_r_In_inv _ _ _ Hmap _ Hx) as (ch & Hch & Hcharged).
  exists bf, ch. split; [assumption|].
  split; [now apply charges_In | assumption].
Qed.

End Fragments.

(** ** The generator: all or nothing *)

Section Completeness.

Variable E : Pyteomics.
Variable order : SetOrder.

Lemma has_fragment_incl (l l' : list fragment_mass) (token : string)
    (ch : Z) :
  (forall x, In x l -> In x l') ->
  has_fragment l token ch -> has_fragment l' token ch.
Proof.
  intros Hincl (a & M & Hin & H). exists a, M. split; [now apply Hincl|exact H].
Qed.

Lemma charged_has_fragment (max_charge : Z) (base : list base_fragment)
    (yss : list (list fragment_mass)) s t fi mm (ch : Z) :
  map_r (fun bf => map_r (charged_mass E bf) (charges max_charge)) base
  = Ok yss ->
  In (s, t, fi, mm) base -> 1 <= ch <= max_charge ->
  has_fragment (List.concat yss) (annot_type_of t fi) ch.
Proof.
  intros Hyss Hbf Hch.
  destruct (charged_In E _ _ _ _ _ Hyss Hbf Hch) as ([a M] & Hx & Hin).
  apply charged_mass_ok in Hx. destruct Hx as (-> & _).
  exists (plain_annotation (annot_type_of t fi) ch), M.
  repeat split. assumption.
Qed.

Lemma char_in_app_String (c : ascii) (s1 s2 : string) :
  char_in c (s1 ++ String c s2) = true.
Proof.
  apply char_in_In. induction s1 as [|c1 s1 IH]; simpl; [now left|now right].
Qed.

Lemma char_in_app_cons (c : ascii) (s1 s2 : string) :
  char_in c (s1 ++ String c "" ++ s2) = true.
Proof. apply char_in_app_String. Qed.

Lemma set_inter_In (c : ascii) (s1 s2 : string) :
  In c (set_inter s1 s2)
  <-> In c (list_ascii_of_string s1) /\ char_in c s2 = true.
Proof. unfold set_inter. apply filter_In. Qed.

Lemma char_in_seq_false (c : ascii) (s : string) :
  ~ In c (list_ascii_of_string s) -> char_in c s = false.
Proof.
  intros H. destruct (char_in c s) eqn:Hc; [|reflexivity].
  now apply char_in_In in Hc.
Qed.

Lemma generation_complete_ok (p : Proteoform) (ion_types : string)
    (max_charge : Z) nl (out : list fragment_mass) :
  get_theoretical_fragments E order p ion_types max_charge nl = Ok out ->
  generation_complete E p ion_types max_charge out.
Proof.
  intros Hout. apply get_theoretical_fragments_ok in Hout.
  destruct Hout as (fm & nlf & Hfm & _ & ->).
  apply get_fragments_masses_ok in Hfm.
  destruct Hfm as (_ & _ & base & yss & Hbase & Hyss & ->).
  apply get_base_fragments_ok in Hbase.
  destruct Hbase as (n_added & c_added & -> & Hn & _ & Hc & _).
  assert (Hcharged : forall s t fi mm ch,
             In (s, t, fi, mm)
               (n_added ++ c_added
                  ++ (if char_in "m" ion_types
                      then map (fun r => m_entry p (fst r) (snd r) 0%Q)
                             (internal_ranges p)
                      else [])
                  ++ (if char_in "p" ion_types then [p_entry p] else []))%list
             -> 1 <= ch <= max_charge ->
             has_fragment
               (sorted_by_mass
                  ((List.concat yss
                      ++ (if char_in "I" ion_types
                          then map (immonium_entry E) (immonium_residues E)
                          else [])) ++ nlf))
               (annot_type_of t fi) ch).
  { intros s t fi mm ch Hin Hch.
    apply has_fragment_incl with (l := List.concat yss).
    - intros x Hx. apply (Permutation_in _ (sorted_by_mass_perm _)).
      apply in_or_app. left. apply in_or_app. now left.
    - now apply (charged_has_fragment _ _ _ s t fi mm ch Hyss). }
  repeat split.
  - intros c i ch Hc0 Hreq Hi Hch.
    assert (Hcases : In c (list_ascii_of_string "abc")
                     \/ In c (list_ascii_of_string "xyz")).
    { simpl in *. tauto. }
    destruct Hcases as [Habc|Hxyz].
    + destruct (Hn c i) as (s & Hs);
        [now apply set_inter_In | now apply range_In|].
      apply (Hcharged (substring 0 i (sequence p)) (str1 c)
               (FragInt (Z.of_nat i)) (snd s) ch); [|assumption].
      apply in_or_app. left. exact Hs.
    + destruct (Hc c (String.length (sequence p) - i)%nat) as (s & Hs);
        [now apply set_inter_In | apply range_In; lia|].
      replace (Z.of_nat i)
        with (Z.of_nat (String.length (sequence p))
              - Z.of_nat (String.length (sequence p) - i)) by lia.
      apply (Hcharged
               (substring (String.length (sequence p) - i)
                  (String.length (sequence p)
                   - (String.length (sequence p) - i)) (sequence p))
               (str1 c)
               (FragInt (Z.of_nat (String.length (sequence p))
                         - Z.of_nat (String.length (sequence p) - i)))
               (snd s) ch); [|assumption].
      apply in_or_app. right. apply in_or_app. left. exact Hs.
  - intros Hm start_i stop_i ch Hstart Hstop Hch. rewrite Hm in Hcharged.
    pose proof (Hcharged
                  (substring start_i (stop_i - start_i) (sequence p)) "b"
                  (FragStr (fmt_int (Z.of_nat start_i + 1) ++ ":"
                              ++ fmt_int (Z.of_nat stop_i + 1))) 0%Q ch)
      as H.
    cbn [annot_type_of] in H.
    rewrite (char_in_app_cons ":" _ _) in H. apply H; [|assumption].
    apply in_or_app. right. apply in_or_app. right. apply in_or_app. left.
    apply (in_map (fun r => m_entry p (fst r) (snd r) 0%Q) _
             (start_i, stop_i)).
    unfold internal_ranges. apply in_flat_map. exists start_i.
    split; [apply range_In; lia|].
    apply (in_map (fun stop_i => (start_i, stop_i))). apply range_In. lia.
  - intros Hp ch Hch. rewrite Hp in Hcharged.
    apply (Hcharged (sequence p) "M" (FragStr "p")
             match modifications p with
             | Some ms => sum (map mass ms)
             | None => 0%Q
             end ch); [|assumption].
    apply in_or_app. right. apply in_or_app. right. apply in_or_app. right.
    now left.
  - intros HI aa m Hin Hne. rewrite HI.
    exists (plain_annotation ("I" ++ aa) 1),
      (m - (calculate_mass E "CO" - calculate_mass E "H"))%Q.
    repeat split.
    apply (Permutation_in _ (sorted_by_mass_perm _)).
    apply in_or_app. left. apply in_or_app. right.
    apply (in_map (immonium_entry E) _ (aa, m)).
    unfold immonium_residues. apply filter_In. split; [assumption|].
    simpl. apply negb_true_iff. now apply String.eqb_neq.
Qed.

(** C7.  A peptide whose sequence contains "B" or "Z" makes the generator
    raise, whatever the other arguments, and a raise carries no list.  On
    any other sequence a call either raises, again without a list, or
    returns a list that is complete for all the requested ion types and
    charges. *)
Theorem ambiguous_residue_fails_without_output :
  forall (p : Proteoform) (ion_types : string) (max_charge : Z) nl,
    (In "B"%char (list_ascii_of_string (sequence p))
     \/ In "Z"%char (list_ascii_of_string (sequence p)) ->
     get_theoretical_fragments E order p ion_types max_charge nl
     = Raise ValueError)
    /\ (~ In "B"%char (list_ascii_of_string (sequence p)) ->
        ~ In "Z"%char (list_ascii_of_string (sequence p)) ->
        raises (get_theoretical_fragments E order p ion_types max_charge nl)
        \/ exists out,
             get_theoretical_fragments E order p ion_types max_charge nl
             = Ok out
             /\ generation_complete E p ion_types max_charge out).
Proof.
  intros p ion_types max_charge nl. split.
  - intros H. unfold get_theoretical_fragments, get_fragments_masses.
    destruct (char_in "B" (sequence p)) eqn:HB; [reflexivity|].
    destruct (char_in "Z" (sequence p)) eqn:HZ; [reflexivity|].
    destruct H as [H|H]; apply char_in_In in H; congruence.
  - intros _ _.
    destruct (get_theoretical_fragments E order p ion_types max_charge nl)
      as [out|e] eqn:Hout.
    + right. exists out. split; [reflexivity|].
      now apply generation_complete_ok with (nl := nl).
    + left. apply raises_Raise.
Qed.

End Completeness.

Lemma ambiguous_residue_fails_without_output_witness :
  get_theoretical_fragments sample_pyteomics listing_order
    (unmodified "PEBTIDE") "by" 2 None = Raise ValueError
  /\ exists out,
       get_theoretical_fragments sample_pyteomics listing_order
         (unmodified "PEPTIDE") "byImp" 2 None = Ok out
       /\ generation_complete sample_pyteomics (unmodified "PEPTIDE") "byImp"
            2 out.
Proof.
  split.
  - apply (ambiguous_residue_fails_without_output sample_pyteomics
             listing_order (unmodified "PEBTIDE") "by" 2 None).
    left. simpl. tauto.
  - destruct (ambiguous_residue_fails_without_output sample_pyteomics
                listing_order (unmodified "PEPTIDE") "byImp" 2 None)
      as (_ & H).
    destruct H as [(e & He)|H].
    + simpl. intros H. repeat (destruct H as [H|H]; [discriminate|]).
      exact H.
    + simpl. intros H. repeat (destruct H as [H|H]; [discriminate|]).
      exact H.
    + vm_compute in He. discriminate.
    + exact H.
Defined.

(** ** The generator: immonium ions *)

Lemma dict_set_keys {V : Type} (d : dict string V) (k : string) (v : V)
    (k' : string) :
  In k' (map fst (dict_set d k v)) <-> k' = k \/ In k' (map fst d).
Proof.
  induction d as [|[k0 v0] d IH]; simpl.
  - intuition congruence.
  - destruct (String.eqb_spec k0 k) as [->|Hne]; simpl.
    + intuition congruence.
    + rewrite IH. intuition congruence.
Qed.

Lemma dict_set_NoDup {V : Type} (d : dict string V) (k : string) (v : V) :
  NoDup (map fst d) -> NoDup (map fst (dict_set d k v)).
Proof.
  induction d as [|[k0 v0] d IH]; intros Hnd; simpl.
  - constructor; [intros []|constructor].
  - inversion Hnd as [|? ? Hnotin Hnd']; subst.
    destruct (String.eqb_spec k0 k) as [->|Hne]; simpl.
    + now constructor.
    + constructor; [|now apply IH].
      rewrite dict_set_keys. intros [Heq|Hin]; [congruence|contradiction].
Qed.

Lemma dict_copy_NoDup {V : Type} (l : list (string * V)) :
  NoDup (map fst (dict_copy l)).
Proof.
  unfold dict_copy.
  assert (H : forall acc : dict string V,
             NoDup (map fst acc) ->
             NoDup (map fst (fold_left
                               (fun acc kv => dict_set acc (fst kv) (snd kv))
                               l acc))).
  { induction l as [|kv l IH]; intros acc Hacc; simpl; [assumption|].
    apply IH. now apply dict_set_NoDup. }
  apply H. constructor.
Qed.

(** The keys of the residue table are pairwise different. *)
Lemma aa_mass_NoDup (E : Pyteomics) : NoDup (map fst (_aa_mass E)).
Proof.
  unfold _aa_mass. do 2 apply dict_set_NoDup. apply dict_copy_NoDup.
Qed.

Lemma filter_none {A : Type} (f : A -> bool) (l : list A) :
  (forall x, In x l -> f x = false) -> filter f l = [].
Proof.
  induction l as [|x l IH]; intros H; [reflexivity|]. simpl.
  rewrite (H x (or_introl eq_refl)). apply IH.
  intros y Hy. apply H. now right.
Qed.

Lemma filter_perm {A : Type} (f : A -> bool) (l l' : list A) :
  Permutation l l' -> Permutation (filter f l) (filter f l').
Proof.
  induction 1 as [|x l l' Hp IH|x y l|l l' l'' Hp1 IH1 Hp2 IH2]; simpl.
  - constructor.
  - destruct (f x); [now constructor | assumption].
  - destruct (f x), (f y); try apply Permutation_refl. apply perm_swap.
  - now apply Permutation_trans with (filter f l').
Qed.

Lemma NoDup_keys_filter {V : Type} (d : list (string * V)) (k : string)
    (v : V) (f : string * V -> bool) :
  NoDup (map fst d) ->
  In (k, v) d ->
  (forall item, f item = true <-> fst item = k) ->
  filter f d = [(k, v)].
Proof.
  intros Hnd Hin Hf. induction d as [|[k0 v0] d IH]; [contradiction|].
  simpl in Hnd. inversion Hnd as [|? ? Hnotin Hnd']; subst.
  simpl. destruct Hin as [Heq|Hin].
  - inversion Heq; subst k0 v0.
    rewrite (proj2 (Hf (k, v)) eq_refl). f_equal.
    apply filter_none. intros [k1 v1] Hin1.
    destruct (f (k1, v1)) eqn:Hf1; [|reflexivity].
    apply Hf in Hf1. simpl in Hf1. subst k1. exfalso. apply Hnotin.
    now apply (in_map fst _ (k, v1)).
  - destruct (f (k0, v0)) eqn:Hf0.
    + apply Hf in Hf0. simpl in Hf0. subst k0. exfalso. apply Hnotin.
      now apply (in_map fst _ (k, v)).
    + now apply IH.
Qed.

Section Immonium.

Variable E : Pyteomics.
Variable order : SetOrder.

(** The ion type of a fragment made from a base fragment starts with the
    letter of a terminal category, with "m" or with "p". *)
Lemma base_annot_first_char (p : Proteoform) (ion_types : string)
    (base : list base_fragment) s t fi mm :
  get_base_fragments order p ion_types = Ok base ->
  In (s, t, fi, mm) base ->
  first_char_in (annot_type_of t fi) "abcxyzmp".
Proof.
  intros Hbase Hin. apply get_base_fragments_ok in Hbase.
  destruct Hbase as (n_added & c_added & -> & _ & Hn & _ & Hc).
  apply in_app_or in Hin. destruct Hin as [Hin|Hin].
  { destruct (Hn _ Hin) as (c & i & st & Hc0 & _ & Heq).
    inversion Heq; subst. apply set_inter_In in Hc0. destruct Hc0 as (Hc0 & _).
    exists c, (fmt_int (Z.of_nat i)). split; [reflexivity|].
    simpl in *. tauto. }
  apply in_app_or in Hin. destruct Hin as [Hin|Hin].
  { destruct (Hc _ Hin) as (c & i & st & Hc0 & _ & Heq).
    inversion Heq; subst. apply set_inter_In in Hc0. destruct Hc0 as (Hc0 & _).
    eexists c, _. split; [reflexivity|]. simpl in *. tauto. }
  apply in_app_or in Hin. destruct Hin as [Hin|Hin].
  - destruct (char_in "m" ion_types); [|contradiction].
    apply in_map_iff in Hin. destruct Hin as ([start_i stop_i] & Heq & _).
    inversion Heq; subst. cbn [annot_type_of fst snd].
    rewrite char_in_app_String. eexists "m"%char, _. split; [reflexivity|].
    simpl. tauto.
  - destruct (char_in "p" ion_types); [|contradiction].
    destruct Hin as [Heq|[]]. inversion Heq; subst.
    exists "p"%char, "". split; [reflexivity|]. simpl. tauto.
Qed.

Lemma fragment_origin (p : Proteoform) (ion_types : string)
    (max_charge : Z) (fm : list fragment_mass) (x : fragment_mass) :
  get_fragments_masses E order p ion_types max_charge = Ok fm ->
  In x fm ->
  (first_char_in (ion_type (fst x)) "abcxyzmp"
   /\ neutral_loss (fst x) = None)
  \/ (char_in "I" ion_types = true
      /\ exists item,
           In item (immonium_residues E) /\ x = immonium_entry E item).
Proof.
  intros Hfm Hx. apply get_fragments_masses_ok in Hfm.
  destruct Hfm as (_ & _ & base & yss & Hbase & Hyss & ->).
  apply in_app_or in Hx. destruct Hx as [Hx|Hx].
  - left. destruct (charged_In_inv E _ _ _ _ Hyss Hx)
      as ([[[s t] fi] mm] & ch & Hbf & _ & Hcharged).
    destruct x as [a M]. apply charged_mass_ok in Hcharged.
    destruct Hcharged as (-> & _). split; [|reflexivity].
    now apply (base_annot_first_char p ion_types base s t fi mm).
  - right. destruct (char_in "I" ion_types); [|contradiction].
    split; [reflexivity|]. apply in_map_iff in Hx.
    destruct Hx as (item & <- & Hitem). now exists item.
Qed.

Lemma loss_origin (nl : dict (option string) Q)
    (fm nlf : list fragment_mass) (x : fragment_mass) :
  neutral_loss_fragments_of nl fm = Ok nlf ->
  In x nlf ->
  exists F M token,
    In (F, M) fm
    /\ neutral_loss (fst x) = Some token
    /\ ion_type (fst x) = ion_type F
    /\ charge (fst x) = charge F.
Proof.
  intros Hnlf Hx. rewrite neutral_loss_fragments_of_map_r in Hnlf.
  apply bind_ok in Hnlf. destruct Hnlf as (yss & Hyss & Hnlf).
  inversion Hnlf; subst nlf; clear Hnlf.
  apply in_concat in Hx. destruct Hx as (ys & Hys & Hx).
  destruct (map_r_In_inv _ _ _ Hyss _ Hys) as ([[name|] D] & _ & Hmap);
    simpl in Hmap.
  - destruct (map_r_In_inv _ _ _ Hmap _ Hx) as ([F M] & HF & Hloss).
    destruct x as [F' M']. apply loss_fragment_ok in Hloss.
    destruct Hloss as (c & _ & _ & Hit & Hch & Hnl).
    exists F, M, (loss_token name D). now repeat split.
  - inversion Hmap; subst. contradiction.
Qed.

Lemma first_char_I_not_base (s : string) :
  first_char_in s "I" -> ~ first_char_in s "abcxyzmp".
Proof.
  intros (c & r & -> & Hc) (c' & r' & Heq & Hc'). inversion Heq; subst c' r'.
  simpl in Hc, Hc'. destruct Hc as [<-|[]].
  repeat (destruct Hc' as [Hc'|Hc']; [discriminate|]). exact Hc'.
Qed.

(** C8.  When "I" is requested, the output has, for every residue code of
    the mass table other than "X", exactly one immonium-ion entry without
    neutral loss; its charge is 1 and its mass is the mass of the residue
    minus the mass of CO plus the mass of H.  Every entry with an immonium
    ion type belongs to such a residue, none to "X", whatever the sequence
    of the peptide is. *)
Theorem immonium_ions_one_per_residue :
  forall (p : Proteoform) (ion_types : string) (max_charge : Z) nl out,
    char_in "I" ion_types = true ->
    get_theoretical_fragments E order p ion_types max_charge nl = Ok out ->
    (forall aa m,
        In (aa, m) (_aa_mass E) -> aa <> "X" ->
        exists M,
          plain_fragments_of ("I" ++ aa) out
          = [(plain_annotation ("I" ++ aa) 1, M)]
          /\ M = (m - (calculate_mass E "CO" - calculate_mass E "H"))%Q
          /\ (M == m - calculate_mass E "CO" + calculate_mass E "H")%Q)
    /\ (forall x,
           In x out -> first_char_in (ion_type (fst x)) "I" ->
           exists aa m,
             In (aa, m) (_aa_mass E) /\ aa <> "X"
             /\ ion_type (fst x) = "I" ++ aa
             /\ charge (fst x) = Some 1).
Proof.
  intros p ion_types max_charge nl out HI Hout.
  apply get_theoretical_fragments_ok in Hout.
  destruct Hout as (fm & nlf & Hfm & Hnlf & ->).
  assert (Hres : forall item,
             In item (immonium_residues E)
             <-> In item (_aa_mass E) /\ fst item <> "X").
  { intros item. unfold immonium_residues. rewrite filter_In.
    rewrite negb_true_iff, String.eqb_neq. reflexivity. }
  split.
  - intros aa m Hin Hne.
    exists (m - (calculate_mass E "CO" - calculate_mass E "H"))%Q.
    split; [|split; [reflexivity | unfold Qminus; ring]].
    pose proof (sorted_by_mass_perm (fm ++ nlf)) as Hperm.
    apply (filter_perm
             (fun x => (ion_type (fst x) =? "I" ++ aa)%string
                       && negb (is_some (neutral_loss (fst x)))))
      in Hperm.
    fold (plain_fragments_of ("I" ++ aa) (fm ++ nlf)) in Hperm.
    fold (plain_fragments_of ("I" ++ aa) (sorted_by_mass (fm ++ nlf)))
      in Hperm.
    assert (Hgen : plain_fragments_of ("I" ++ aa) (fm ++ nlf)
                   = [(plain_annotation ("I" ++ aa) 1,
                       (m - (calculate_mass E "CO"
                             - calculate_mass E "H"))%Q)]).
    { unfold plain_fragments_of. rewrite filter_app.
      rewrite (filter_none _ nlf).
      2:{ intros x Hx.
          destruct (loss_origin _ _ _ _ Hnlf Hx) as (F & M & tok & _ & Hnl & _).
          rewrite Hnl. simpl. apply andb_false_r. }
      rewrite app_nil_r.
      pose proof (get_fragments_masses_ok E order _ _ _ _ Hfm)
        as (_ & _ & base & yss & Hbase & Hyss & Heq).
      rewrite HI in Heq. subst fm. rewrite filter_app.
      rewrite (filter_none _ (List.concat yss)).
      2:{ intros x Hx.
          destruct (charged_In_inv E _ _ _ _ Hyss Hx)
            as ([[[s t] fi] mm] & ch & Hbf & _ & Hcharged).
          destruct x as [a M]. apply charged_mass_ok in Hcharged.
          destruct Hcharged as (-> & _). simpl. rewrite andb_true_r.
          apply String.eqb_neq. intros Heq.
          apply (first_char_I_not_base (annot_type_of t fi)).
          - rewrite Heq. exists "I"%char, aa. split; [reflexivity|now left].
          - now apply (base_annot_first_char p ion_types base s t fi mm). }
      cbn [app]. unfold immonium_residues.
      pose proof (aa_mass_NoDup E) as Hnd.
      assert (Hin' : In (aa, m) (immonium_residues E)).
      { apply Hres. now split. }
      assert (Hnd' : NoDup (map fst (immonium_residues E))).
      { unfold immonium_residues. clear - Hnd.
        induction (_aa_mass E) as [|[k v] d IH]; simpl; [constructor|].
        inversion Hnd; subst. destruct (negb (k =? "X")%string); simpl.
        - constructor; [|now apply IH]. intros Hin. apply H1.
          apply in_map_iff in Hin. destruct Hin as (item & <- & Hitem).
          apply filter_In in Hitem. now apply in_map.
        - now apply IH. }
      fold (immonium_residues E).
      rewrite filter_map_swap.
      rewrite (NoDup_keys_filter (immonium_residues E) aa m _ Hnd' Hin').
      - reflexivity.
      - intros [k v]. simpl. rewrite andb_true_r.
        rewrite String.eqb_eq. split; [now intros H; inversion H | now intros ->]. }
    rewrite Hgen in Hperm. now apply Permutation_length_1_inv in Hperm.
  - intros x Hx Hfirst.
    apply (Permutation_in _ (Permutation_sym (sorted_by_mass_perm _))) in Hx.
    assert (Hfm_case : forall y,
               In y fm -> first_char_in (ion_type (fst y)) "I" ->
               exists aa m,
                 In (aa, m) (_aa_mass E) /\ aa <> "X"
                 /\ ion_type (fst y) = "I" ++ aa
                 /\ charge (fst y) = Some 1).
    { intros y Hy Hfirsty.
      destruct (fragment_origin _ _ _ _ _ Hfm Hy)
        as [(Hbase & _)|(_ & [aa m] & Hitem & ->)].
      - exfalso. now apply (first_char_I_not_base _ Hfirsty).
      - apply Hres in Hitem. destruct Hitem as (Hitem & Hne).
        exists aa, m. now repeat split. }
    apply in_app_or in Hx. destruct Hx as [Hx|Hx]; [now apply Hfm_case|].
    destruct (loss_origin _ _ _ _ Hnlf Hx) as (F & M & tok & HF & _ & Hit & Hch).
    rewrite Hit, Hch. apply (Hfm_case (F, M) HF). simpl. now rewrite <- Hit.
Qed.

End Immonium.

(** ** The generator: b ions of an unmodified peptide *)

Lemma fmt_int_inj (a b : Z) : fmt_int a = fmt_int b -> a = b.
Proof.
  unfold fmt_int. intros H. apply DecimalZ.to_int_inj.
  assert (Hnorm : forall z,
             NilZero.int_of_string (NilZero.string_of_int (Z.to_int z))
             = Some (Z.to_int z)).
  { intros z. apply NilZero.isi; destruct z as [|q|q]; simpl;
      try discriminate; intros Heq; inversion Heq;
      now apply (DecimalPos.Unsigned.to_uint_nonnil q). }
  pose proof (Hnorm a) as Ha. rewrite H, Hnorm in Ha. now inversion Ha.
Qed.

Lemma list_ascii_substring_0 (n : nat) (s : string) :
  list_ascii_of_string (substring 0 n s) = firstn n (list_ascii_of_string s).
Proof.
  revert s. induction n as [|n IH]; intros [|c s]; simpl; try reflexivity.
  now rewrite IH.
Qed.

Lemma list_ascii_length (s : string) :
  List.length (list_ascii_of_string s) = String.length s.
Proof. induction s as [|c s IH]; simpl; [reflexivity | now rewrite IH]. Qed.



Lemma map_r_Forall {A B : Type} (g : A -> result B) (P : B -> Prop)
    (l : list A) (ys : list B) :
  map_r g l = Ok ys ->
  (forall x y, In x l -> g x = Ok y -> P y) ->
  Forall P ys /\ List.length ys = List.length l.
Proof.
  revert ys. induction l as [|x l IH]; intros ys H HP; simpl in H.
  - inversion H. split; [constructor | reflexivity].
  - apply bind_ok in H. destruct H as (y & Hy & H).
    apply bind_ok in H. destruct H as (ys' & Hys' & H). inversion H; subst ys.
    destruct (IH ys' Hys') as (Hall & Hlen).
    + intros x' y' Hx'. apply HP. now right.
    + split; [|simpl; now rewrite Hlen].
      constructor; [|assumption]. apply (HP x y); [now left | assumption].
Qed.



Lemma sum_app (l1 l2 : list Q) :
  sum (l1 ++ l2) = fold_left Qplus l2 (sum l1).
Proof. unfold sum. apply fold_left_app. Qed.




Section BIons.

Variable E : Pyteomics.
Variable order : SetOrder.





End BIons.




Lemma immonium_ions_one_per_residue_witness :
  let nl := Some [(Some "H2O", (-18.010565)%Q)] in
  match get_theoretical_fragments sample_pyteomics listing_order
          (unmodified "PEPTIDE") "bI" 2 nl
  with
  | Ok out =>
      exists M,
        plain_fragments_of "IG" out = [(plain_annotation "IG" 1, M)]
        /\ (M == 57.02146 - 27.99491461956 + 1.00782503207)%Q
  | Raise _ => False
  end.
Proof.
  intros nl.
  destruct (get_theoretical_fragments sample_pyteomics listing_order
              (unmodified "PEPTIDE") "bI" 2 nl) as [out|e] eqn:Hout.
  - destruct (immonium_ions_one_per_residue sample_pyteomics listing_order
                (unmodified "PEPTIDE") "bI" 2 nl out eq_refl Hout)
      as (Hone & _).
    destruct (Hone "G" 57.02146%Q) as (M & Hplain & _ & HM).
    + vm_compute. left. reflexivity.
    + discriminate.
    + exists M. split; [exact Hplain | exact HM].
  - vm_compute in Hout. discriminate.
Defined.

(** C2, at an input on which the code departs from it: "PEPTIDE" with a
    modification at index 3, which lies inside internal ranges such as
    [1, 4).  The loop over the internal modifications adds the modification
    object, not its mass, to the accumulator, and the generator raises
    instead of emitting the internal fragments. *)
Theorem internal_fragments_raise_on_inner_modification :
  forall (E : Pyteomics) (order : SetOrder) (max_charge : Z) nl,
    get_theoretical_fragments E order oxidised_PEPTIDE "m" max_charge nl
    = Raise TypeError.
Proof.
  intros E order max_charge nl.
  rewrite (get_theoretical_fragments_order E order listing_order).
  - reflexivity.
  - change (set_inter "abc" "m") with (@nil ascii). apply set_iter_nil.
  - change (set_inter "xyz" "m") with (@nil ascii). apply set_iter_nil.
Qed.

(** C1, at an input on which the code departs from it: "PEPTIDE" with a
    modification of 15.9949 at index 3, ion types "ab".  The cursor and the
    accumulator of the N-terminal walk are initialised once, before the loop
    over the categories, so whichever category is visited second starts
    with the mass accumulated by the first: its fragment at index 1 carries
    15.9949 although the prefix "P" holds no modification. *)
Theorem second_category_starts_with_accumulated_mass :
  forall (order : SetOrder),
    ~ prefix_masses_as_specified sample_pyteomics order oxidised_PEPTIDE "ab".
Proof.
  intros order Hspec.
  assert (Hcases :
    get_theoretical_fragments sample_pyteomics order oxidised_PEPTIDE "ab" 1
      None
    = get_theoretical_fragments sample_pyteomics listing_order
        oxidised_PEPTIDE "ab" 1 None
    \/ get_theoretical_fragments sample_pyteomics order oxidised_PEPTIDE "ab"
         1 None
       = get_theoretical_fragments sample_pyteomics reverse_order
           oxidised_PEPTIDE "ab" 1 None).
  { pose proof (Permutation_sym
                  (set_iter_perm order "ab" (set_inter "abc" "ab")))
      as Hperm.
    change (set_inter "abc" "ab") with ["a"%char; "b"%char] in Hperm at 1.
    apply Permutation_length_2_inv in Hperm.
    destruct Hperm as [Hab|Hba]; [left|right];
      apply get_theoretical_fragments_order;
      try (change (set_inter "xyz" "ab") with (@nil ascii);
           now rewrite !set_iter_nil);
      rewrite Hab || rewrite Hba; reflexivity. }
  destruct Hcases as [Hcase|Hcase].
  - destruct (get_theoretical_fragments sample_pyteomics listing_order
                oxidised_PEPTIDE "ab" 1 None) as [out|e] eqn:Hout;
      [|vm_compute in Hout; discriminate].
    pose proof Hout as Hout'. vm_compute in Hout'.
    inversion Hout'; subst out; clear Hout' Hout.
    match type of Hcase with
    | _ = Ok ?out =>
        destruct (find (fun x => (ion_type (fst x) =? "b1")%string) out)
          as [[a M]|] eqn:Hfind; [|vm_compute in Hfind; discriminate]
    end.
    pose proof (find_some _ _ Hfind) as (Hin & _).
    vm_compute in Hfind. inversion Hfind; subst a M; clear Hfind.
    destruct (Hspec _ "b"%char 1%nat _ _ Hcase
                (or_intror (or_introl eq_refl)) Hin eq_refl)
      as (m & Hm & HM).
    vm_compute in Hm. inversion Hm; subst m; clear Hm.
    vm_compute in HM. discriminate.
  - destruct (get_theoretical_fragments sample_pyteomics reverse_order
                oxidised_PEPTIDE "ab" 1 None) as [out|e] eqn:Hout;
      [|vm_compute in Hout; discriminate].
    pose proof Hout as Hout'. vm_compute in Hout'.
    inversion Hout'; subst out; clear Hout' Hout.
    match type of Hcase with
    | _ = Ok ?out =>
        destruct (find (fun x => (ion_type (fst x) =? "a1")%string) out)
          as [[a M]|] eqn:Hfind; [|vm_compute in Hfind; discriminate]
    end.
    pose proof (find_some _ _ Hfind) as (Hin & _).
    vm_compute in Hfind. inversion Hfind; subst a M; clear Hfind.
    destruct (Hspec _ "a"%char 1%nat _ _ Hcase (or_introl eq_refl) Hin
                eq_refl)
      as (m & Hm & HM).
    vm_compute in Hm. inversion Hm; subst m; clear Hm.
    vm_compute in HM. discriminate.
Qed.

(** ** The loops of the terminal walks terminate *)

Section Termination.

Variable p : Proteoform.

Lemma while_invariant {S : Type} (P : S -> Prop) (cond : S -> bool)
    (body : S -> S) :
  (forall s, P s -> cond s = true -> P (body s)) ->
  forall fuel s, P s -> P (while fuel cond body s).
Proof.
  intros Hbody. induction fuel as [|fuel IH]; intros s Hs; simpl;
    [assumption|].
  destruct (cond s) eqn:Hc; [|assumption]. apply IH. now apply Hbody.
Qed.

Lemma unlocalized_loop_exit (mod_i : nat) :
  unlocalized_cond p (while (mods_len p) (unlocalized_cond p) S mod_i)
  = false.
Proof.
  apply (while_exit (fun s => mods_len p - s)%nat); [|lia].
  intros s Hs. unfold unlocalized_cond in Hs.
  destruct (mod_at p s) as [m|] eqn:Hm; [|discriminate].
  apply mod_at_Some_len in Hm. lia.
Qed.

Lemma prefix_loop_exit (fragment_i : nat) (st : nat * Q) :
  prefix_cond p fragment_i
    (while (mods_len p) (prefix_cond p fragment_i) (prefix_body p) st)
  = false.
Proof.
  apply (while_exit (fun s => mods_len p - fst s)%nat); [|lia].
  intros s Hs. unfold prefix_cond in Hs. unfold prefix_body.
  destruct (mod_at p (fst s)) as [m|] eqn:Hm; [|discriminate].
  apply mod_at_Some_len in Hm. simpl. lia.
Qed.

Lemma suffix_body_decreases (fragment_i : nat) (st : option Z * Q) :
  suffix_cond p fragment_i st = true ->
  (suffix_measure (suffix_body p st) < suffix_measure st)%nat.
Proof.
  unfold suffix_cond, suffix_body, suffix_measure.
  destruct (modifications p) as [ms|]; [|discriminate].
  destruct (fst st) as [mod_i|] eqn:Hst; [|discriminate].
  intros H. apply andb_true_iff in H. destruct H as (Hge & H).
  destruct (nth_error ms (Z.to_nat mod_i)) as [m|]; [|discriminate].
  simpl. lia.
Qed.

Lemma suffix_loop_exit (fragment_i : nat) (st : option Z * Q) :
  (suffix_measure st <= S (mods_len p))%nat ->
  suffix_cond p fragment_i (suffix_modifications p fragment_i st) = false
  /\ (suffix_measure (suffix_modifications p fragment_i st)
      <= S (mods_len p))%nat.
Proof.
  intros Hfuel. unfold suffix_modifications. split.
  - apply (while_exit suffix_measure); [|assumption].
    apply suffix_body_decreases.
  - apply (while_invariant (fun s => suffix_measure s <= S (mods_len p))%nat);
      [|assumption].
    intros s Hs Hc. apply suffix_body_decreases in Hc. lia.
Qed.

(** The cursor with which the C-terminal walk starts is covered by the
    fuel of its loop. *)
Lemma suffix_start_measure (mod_mass : Q) :
  (suffix_measure
     match modifications p with
     | Some ms => (Some (Z.of_nat (List.length ms) - 1)%Z, 0%Q)
     | None => (None, mod_mass)
     end
   <= S (mods_len p))%nat.
Proof.
  unfold suffix_measure, mods_len.
  destruct (modifications p) as [ms|]; simpl; lia.
Qed.

End Termination.

(** ** The N-terminal walk of a single category *)

Section SingleCategory.

Variable p : Proteoform.

Lemma prefix_cond_retained (fragment_i k : nat) (acc : Q)
    (m : Modification) :
  mod_at p k = Some m ->
  prefix_cond p fragment_i (k, acc) = retained_prefix fragment_i m.
Proof.
  unfold prefix_cond, retained_prefix. simpl. intros ->.
  destruct (position m); reflexivity.
Qed.

Lemma skippable_not_retained (fragment_i : nat) (m : Modification) :
  is_str (position m) && negb (pos_eq (position m) "N-term") = true ->
  retained_prefix fragment_i m = false.
Proof.
  unfold retained_prefix. destruct (position m) as [v|s]; simpl;
    [discriminate|].
  intros H. apply negb_true_iff in H. rewrite H. reflexivity.
Qed.

Lemma retained_prefix_mono (i i' : nat) (m : Modification) :
  (i <= i')%nat ->
  retained_prefix i m = true -> retained_prefix i' m = true.
Proof.
  unfold retained_prefix. intros Hle H.
  apply orb_true_iff in H. apply orb_true_iff.
  destruct H as [H|H]; [now left|right].
  destruct (position m) as [v|s]; simpl in *; [|discriminate].
  apply Z.ltb_lt in H. apply Z.ltb_lt. lia.
Qed.

Lemma firstn_S_nth {A : Type} (l : list A) (k : nat) (x : A) :
  nth_error l k = Some x -> firstn (S k) l = (firstn k l ++ [x])%list.
Proof.
  revert k. induction l as [|y l IH]; intros [|k] H; simpl in *;
    try discriminate.
  - now inversion H.
  - now rewrite (IH k H).
Qed.

Lemma prefix_cursor_ok_mono (i i' : nat) (st : nat * Q) :
  (i <= i')%nat -> prefix_cursor_ok p i st -> prefix_cursor_ok p i' st.
Proof.
  unfold prefix_cursor_ok. intros Hle.
  destruct (modifications p) as [ms|]; [|trivial].
  intros (Hacc & Hall). split.
  - rewrite Hacc. do 2 f_equal. apply filter_ext_in.
    intros m Hm. rewrite Forall_forall in Hall.
    destruct (Hall m Hm) as [Hret|Hskip].
    + now rewrite Hret, (retained_prefix_mono i i' m Hle Hret).
    + now rewrite !skippable_not_retained.
  - eapply Forall_impl; [|exact Hall].
    intros m [Hret|Hskip]; [left|now right].
    now apply (retained_prefix_mono i i').
Qed.

Lemma prefix_cursor_ok_loops (i : nat) (st : nat * Q) :
  prefix_cursor_ok p i st ->
  prefix_cursor_ok p i (prefix_modifications p i st).
Proof.
  destruct st as [k acc]. unfold prefix_modifications.
  intros Hst.
  assert (Hskip : prefix_cursor_ok p i
                    (while (mods_len p) (unlocalized_cond p) S k, acc)).
  { apply (while_invariant (fun k' => prefix_cursor_ok p i (k', acc)));
      [|assumption].
    intros k' Hk' Hc. unfold unlocalized_cond in Hc.
    unfold prefix_cursor_ok, mod_at in *.
    destruct (modifications p) as [ms|]; [|discriminate].
    destruct (nth_error ms k') as [m|] eqn:Hm; [|discriminate].
    destruct Hk' as (Hacc & Hall). cbn [fst snd] in *.
    rewrite (firstn_S_nth ms k' m Hm), filter_app. cbn [filter].
    rewrite (skippable_not_retained i m Hc), app_nil_r.
    split; [assumption|]. apply Forall_app. split; [assumption|].
    constructor; [now right | constructor]. }
  apply (while_invariant (prefix_cursor_ok p i)); [|assumption].
  intros [k' acc'] Hk' Hc. unfold prefix_body.
  unfold prefix_cursor_ok, mod_at in *. cbn [fst snd] in *.
  destruct (modifications p) as [ms|] eqn:Hms.
  - destruct (nth_error ms k') as [m|] eqn:Hm.
    + assert (Hret : retained_prefix i m = true).
      { rewrite <- Hc. symmetry. apply prefix_cond_retained.
        unfold mod_at. now rewrite Hms. }
      destruct Hk' as (Hacc & Hall). cbn [fst snd].
      rewrite (firstn_S_nth ms k' m Hm), filter_app. cbn [filter].
      rewrite Hret, map_app. split.
      * unfold sum in *. rewrite fold_left_app. cbn [map fold_left].
        now rewrite Hacc.
      * apply Forall_app. split; [assumption|].
        constructor; [now left | constructor].
    + unfold prefix_cond, mod_at in Hc. cbn [fst] in Hc.
      rewrite Hms, Hm in Hc. discriminate.
  - unfold prefix_cond, mod_at in Hc. cbn [fst] in Hc.
    rewrite Hms in Hc. discriminate.
Qed.

Lemma ssorted_middle {A : Type} (R : A -> A -> Prop) (l1 l2 : list A)
    (x : A) :
  StronglySorted R (l1 ++ x :: l2) ->
  Forall (fun a => R a x) l1 /\ Forall (R x) l2.
Proof.
  induction l1 as [|y l1 IH]; simpl; intros Hs.
  - apply StronglySorted_inv in Hs. split; [constructor | tauto].
  - apply StronglySorted_inv in Hs. destruct Hs as (Hs & Hy).
    destruct (IH Hs) as (H1 & H2). split; [|assumption].
    constructor; [|assumption].
    rewrite Forall_forall in Hy. apply Hy. apply in_or_app. right. now left.
Qed.

Lemma rank_cases (m : Modification) :
  (exists v, position m = PosInt v /\ position_rank (position m) = (2, v))
  \/ (position m = PosStr "N-term" /\ position_rank (position m) = (1, 0))
  \/ (position m = PosStr "C-term" /\ position_rank (position m) = (3, 0))
  \/ (is_str (position m) && negb (pos_eq (position m) "N-term") = true
      /\ position_rank (position m) = (0, 0)).
Proof.
  destruct (position m) as [v|s]; [left; now exists v|right].
  simpl. destruct (String.eqb_spec s "N-term") as [->|HN]; [now left|right].
  destruct (String.eqb_spec s "C-term") as [->|HC]; [now left|right].
  now split.
Qed.

(** After the two loops no modification from the cursor on is retained,
    when the list is sorted by position. *)
Lemma prefix_loops_exit_sorted (i : nat) (st : nat * Q)
    (ms : list Modification) :
  modifications p = Some ms ->
  StronglySorted position_le ms ->
  Forall (fun m => retained_prefix i m = false)
    (skipn (fst (prefix_modifications p i st)) ms).
Proof.
  intros Hms Hsorted. destruct st as [k acc]. unfold prefix_modifications.
  set (k1 := while (mods_len p) (unlocalized_cond p) S k).
  pose proof (unlocalized_loop_exit p k) as Hexit1. fold k1 in Hexit1.
  pose proof (prefix_loop_exit p i (k1, acc)) as Hexit2.
  assert (Hmono : (k1 <= fst (while (mods_len p) (prefix_cond p i)
                                 (prefix_body p) (k1, acc)))%nat).
  { apply (while_invariant (fun s => k1 <= fst s)%nat); [|simpl; lia].
    intros s Hs _. unfold prefix_body.
    destruct (mod_at p (fst s)); simpl; lia. }
  destruct (while (mods_len p) (prefix_cond p i) (prefix_body p) (k1, acc))
    as [k2 acc2]. cbn [fst] in *.
  destruct (nth_error ms k2) as [m2|] eqn:Hm2.
  2:{ apply nth_error_None in Hm2. rewrite skipn_all2 by assumption.
      constructor. }
  assert (Hret2 : retained_prefix i m2 = false).
  { rewrite <- Hexit2. symmetry. apply prefix_cond_retained.
    unfold mod_at. now rewrite Hms. }
  pose proof (firstn_skipn_middle k2 ms Hm2) as Hsplit.
  rewrite <- Hsplit in Hsorted.
  apply ssorted_middle in Hsorted. destruct Hsorted as (Hbefore & Hafter).
  assert (Hrank2 : (exists v, position m2 = PosInt v
                              /\ position_rank (position m2) = (2, v)
                              /\ Z.of_nat i <= v)
                   \/ position_rank (position m2) = (3, 0)).
  { destruct (rank_cases m2) as [(v & Hpos & Hr)|[(Hpos & Hr)|[(Hpos & Hr)|
                                 (Hskip & Hr)]]].
    - left. exists v. repeat split; try assumption.
      unfold retained_prefix in Hret2. rewrite Hpos in Hret2. simpl in Hret2.
      apply Z.ltb_ge in Hret2. exact Hret2.
    - unfold retained_prefix in Hret2. rewrite Hpos in Hret2. discriminate.
    - now right.
    - exfalso.
      assert (Hk1 : (k1 < k2)%nat).
      { destruct (Nat.eq_dec k1 k2) as [->|Hne]; [|lia].
        unfold unlocalized_cond, mod_at in Hexit1.
        rewrite Hms, Hm2 in Hexit1. congruence. }
      destruct (nth_error ms k1) as [m1|] eqn:Hm1.
      2:{ apply nth_error_None in Hm1.
          assert (k2 < List.length ms)%nat by (apply nth_error_Some; congruence).
          lia. }
      assert (Hin1 : In m1 (firstn k2 ms)).
      { apply (nth_error_In _ k1). rewrite nth_error_firstn.
        destruct (Nat.ltb_spec k1 k2); [assumption | lia]. }
      rewrite Forall_forall in Hbefore. specialize (Hbefore m1 Hin1).
      unfold position_le, rank_le in Hbefore. rewrite Hr in Hbefore.
      unfold unlocalized_cond, mod_at in Hexit1. rewrite Hms, Hm1 in Hexit1.
      destruct (rank_cases m1) as [(v & Hpos & Hr1)|[(Hpos & Hr1)|
                                   [(Hpos & Hr1)|(Hskip1 & Hr1)]]];
        rewrite Hr1 in Hbefore; simpl in Hbefore; try lia.
      congruence. }
  rewrite <- Hsplit at 1.
  rewrite skipn_app, length_firstn.
  assert (Hlen : (k2 < List.length ms)%nat)
    by (apply nth_error_Some; congruence).
  rewrite Nat.min_l by lia. rewrite skipn_all2 by (rewrite length_firstn; lia).
  rewrite Nat.sub_diag. cbn [app skipn].
  constructor; [assumption|].
  eapply Forall_impl; [|exact Hafter].
  intros m Hm. unfold position_le, rank_le in Hm.
  unfold retained_prefix.
  destruct Hrank2 as [(v & Hpos & Hr & Hv)|Hr]; rewrite Hr in Hm;
    destruct (rank_cases m) as [(v' & Hpos' & Hr')|[(Hpos' & Hr')|
                                [(Hpos' & Hr')|(Hskip' & Hr')]]];
    rewrite Hr' in Hm; simpl in Hm; try lia;
    try (rewrite Hpos'; simpl; try reflexivity; apply Z.ltb_ge; lia).
Qed.

(** The accumulator after the loops for [fragment_i] is the sum of the
    retained modifications. *)
Lemma prefix_modifications_sum (i : nat) (st : nat * Q) :
  position_sorted p ->
  prefix_cursor_ok p i st ->
  snd (prefix_modifications p i st)
  = modification_sum (retained_prefix i) p.
Proof.
  intros Hsorted Hst.
  pose proof (prefix_cursor_ok_loops i st Hst) as Hok.
  unfold position_sorted, modification_sum, prefix_cursor_ok in *.
  destruct (modifications p) as [ms|] eqn:Hms.
  - pose proof (prefix_loops_exit_sorted i st ms Hms Hsorted) as Hexit.
    destruct Hok as (Hacc & _). rewrite Hacc.
    rewrite <- (firstn_skipn (fst (prefix_modifications p i st)) ms) at 2.
    rewrite filter_app.
    rewrite (filter_none _ (skipn _ ms)), app_nil_r; [reflexivity|].
    now apply Forall_forall.
  - subst st. unfold prefix_modifications, mods_len. now rewrite Hms.
Qed.

Lemma prefix_scan_sum (n a : nat) (st : nat * Q) :
  position_sorted p ->
  prefix_cursor_ok p a st ->
  forall i st',
    In (i, st') (scan (fun c i => prefix_modifications p i c) (seq a n) st)
    -> snd st' = modification_sum (retained_prefix i) p.
Proof.
  intros Hsorted. revert a st. induction n as [|n IH]; intros a st Hst i st';
    cbn [seq scan]; [contradiction|].
  intros [Heq|Hin].
  - inversion Heq; subst. now apply prefix_modifications_sum.
  - apply (IH (S a) (prefix_modifications p a st)); [|assumption].
    apply (prefix_cursor_ok_mono a); [lia|].
    now apply prefix_cursor_ok_loops.
Qed.

End SingleCategory.

(** X1.  A single N-terminal category on a peptide whose modifications are
    sorted by position: every fragment of the category carries the
    modification mass of its retained prefix.  (With two categories the
    walk of the second one starts from the cursor and the accumulator that
    the first one left.) *)
Lemma single_category_prefix_masses (E : Pyteomics) (order : SetOrder)
    (p : Proteoform) (c : ascii) (ion_types : string) :
  set_inter "abc" ion_types = [c] ->
  position_sorted p ->
  prefix_masses_as_specified E order p ion_types.
Proof.
  intros Hsingle Hsorted out c' i a M Hout Hc' Hin Hit.
  apply get_theoretical_fragments_ok in Hout.
  destruct Hout as (fm & nlf & Hfm & Hnlf & ->).
  cbn in Hnlf. inversion Hnlf; subst nlf; clear Hnlf.
  apply (Permutation_in _ (Permutation_sym (sorted_by_mass_perm _))) in Hin.
  rewrite app_nil_r in Hin.
  apply get_fragments_masses_ok in Hfm.
  destruct Hfm as (_ & _ & base & yss & Hbase & Hyss & ->).
  assert (Hnot : forall c0 r,
             ion_type a = String c0 r ->
             ~ In c0 (list_ascii_of_string "abc") -> False).
  { intros c0 r Heq Hc0. rewrite Hit in Heq. inversion Heq; subst c0.
    contradiction. }
  apply in_app_or in Hin. destruct Hin as [Hin|Hin].
  2:{ exfalso. destruct (char_in "I" ion_types); [|contradiction].
      apply in_map_iff in Hin. destruct Hin as (item & Heq & _).
      inversion Heq; subst a. apply (Hnot "I"%char (fst item) eq_refl).
      simpl. intros H. repeat (destruct H as [H|H]; [discriminate|]).
      exact H. }
  destruct (charged_In_inv E _ _ _ _ Hyss Hin)
    as ([[[s t] fi] mm] & ch & Hbf & Hch & Hcharged).
  assert (ch = 1) by lia. subst ch.
  apply charged_mass_ok in Hcharged. destruct Hcharged as (-> & m & Hm & ->).
  cbn [plain_annotation ion_type] in Hit, Hnot.
  apply (get_base_fragments_inv order p (fun _ => True)) in Hbase;
    [|exact I | intros; exact I].
  destruct Hbase as (n_added & c_added & Hn_eq & -> & _ & _ & _ & Hc_only).
  unfold n_terminal_fragments in Hn_eq. rewrite Hsingle in Hn_eq.
  rewrite (Permutation_length_1_inv
             (Permutation_sym (set_iter_perm order ion_types [c]))) in Hn_eq.
  cbn [fold_left] in Hn_eq. rewrite n_terminal_walk in Hn_eq.
  cbn [snd app] in Hn_eq. subst n_added.
  apply in_app_or in Hbf. destruct Hbf as [Hbf|Hbf].
  { apply in_map_iff in Hbf. destruct Hbf as ([i' st'] & Heq & Hscan).
    inversion Heq; subst s t fi mm; clear Heq. cbn [fst snd] in *.
    cbn [annot_type_of] in Hit. inversion Hit as [[Hc0 Hfmt]].
    apply fmt_int_inj, Nat2Z.inj in Hfmt. subst i' c'.
    exists m. split; [exact Hm|].
    unfold range in Hscan.
    rewrite (prefix_scan_sum p (String.length (sequence p) - 1) 1 (O, 0%Q)
               Hsorted) with (i := i) (st' := st');
      [reflexivity| |exact Hscan].
    unfold prefix_cursor_ok. destruct (modifications p); [|reflexivity].
    split; [reflexivity | constructor]. }
  exfalso. apply in_app_or in Hbf. destruct Hbf as [Hbf|Hbf].
  { destruct (Hc_only _ Hbf) as (c0 & i0 & st0 & Hc0 & _ & Heq).
    inversion Heq; subst s t fi mm; clear Heq.
    apply set_inter_In in Hc0. destruct Hc0 as (Hc0 & _).
    apply (Hnot c0 _ eq_refl). simpl in *. intros H.
    repeat (destruct Hc0 as [Hc0|Hc0];
            [subst c0; repeat (destruct H as [H|H]; [discriminate|]);
             exact H|]).
    exact Hc0. }
  apply in_app_or in Hbf. destruct Hbf as [Hbf|Hbf].
  - destruct (char_in "m" ion_types); [|contradiction].
    apply in_map_iff in Hbf. destruct Hbf as ([start_i stop_i] & Heq & _).
    inversion Heq; subst s t fi mm; clear Heq.
    cbn [annot_type_of fst snd] in Hnot.
    rewrite char_in_app_String in Hnot.
    apply (Hnot "m"%char _ eq_refl). simpl. intros H.
    repeat (destruct H as [H|H]; [discriminate|]). exact H.
  - destruct (char_in "p" ion_types); [|contradiction].
    destruct Hbf as [Heq|[]]. inversion Heq; subst s t fi mm; clear Heq.
    apply (Hnot "p"%char "" eq_refl). simpl. intros H.
    repeat (destruct H as [H|H]; [discriminate|]). exact H.
Qed.

(** For example, "PEPTIDE" oxidised at index 3 with the ion type "b"
    alone: the b ions from b4 on carry the modification mass, b1 to b3 do
    not. *)
Lemma oxidised_PEPTIDE_b_ions :
  prefix_masses_as_specified sample_pyteomics listing_order oxidised_PEPTIDE
    "b"
  /\ map (fun i => modification_sum (retained_prefix i) oxidised_PEPTIDE)
       [1; 2; 3; 4; 5; 6]%nat
     = [0; 0; 0; 0 + 15.9949; 0 + 15.9949; 0 + 15.9949]%Q.
Proof.
  split; [|reflexivity].
  apply (single_category_prefix_masses _ _ _ "b"%char); [reflexivity|].
  repeat constructor.
Defined.

(** ** Internal fragments when the generator returns *)

(** X4.  Whenever the generator returns with "m" requested, every internal
    range has its fragment at every charge, labelled [m{start+1}:{stop+1}],
    with the b-ion mass of the slice and the modification mass 0: the loop
    that should add the modifications of the range raises as soon as it
    meets one. *)
Lemma internal_fragment_masses (E : Pyteomics) (order : SetOrder)
    (p : Proteoform) (ion_types : string) (max_charge : Z) nl
    (out : list fragment_mass) (start_i stop_i : nat) (ch : Z) :
  get_theoretical_fragments E order p ion_types max_charge nl = Ok out ->
  char_in "m" ion_types = true ->
  (1 <= start_i)%nat ->
  (start_i + 2 <= stop_i < String.length (sequence p))%nat ->
  1 <= ch <= max_charge ->
  exists m,
    fast_mass E (substring start_i (stop_i - start_i) (sequence p)) "b" ch
      (_aa_mass E) = Ok m
    /\ In (plain_annotation
             ("m" ++ fmt_int (Z.of_nat start_i + 1) ++ ":"
                ++ fmt_int (Z.of_nat stop_i + 1)) ch,
           (m + 0 / inject_Z ch)%Q) out.
Proof.
  intros Hout Hm Hstart Hstop Hch.
  apply get_theoretical_fragments_ok in Hout.
  destruct Hout as (fm & nlf & Hfm & _ & ->).
  apply get_fragments_masses_ok in Hfm.
  destruct Hfm as (_ & _ & base & yss & Hbase & Hyss & ->).
  apply get_base_fragments_ok in Hbase.
  destruct Hbase as (n_added & c_added & -> & _).
  rewrite Hm in Hyss.
  assert (Hbf : In (m_entry p start_i stop_i 0%Q)
                  (n_added ++ c_added
                     ++ map (fun r => m_entry p (fst r) (snd r) 0%Q)
                          (internal_ranges p)
                     ++ (if char_in "p" ion_types then [p_entry p] else []))).
  { apply in_or_app. right. apply in_or_app. right. apply in_or_app. left.
    apply (in_map (fun r => m_entry p (fst r) (snd r) 0%Q) _
             (start_i, stop_i)).
    unfold internal_ranges. apply in_flat_map. exists start_i.
    split; [apply range_In; lia|].
    apply (in_map (fun stop_i => (start_i, stop_i))). apply range_In. lia. }
  destruct (charged_In E _ _ _ _ _ Hyss Hbf Hch) as ([a M] & Hx & Hin).
  apply charged_mass_ok in Hx. destruct Hx as (-> & m & Hmass & ->).
  exists m. split; [exact Hmass|].
  cbn [annot_type_of] in Hin. rewrite char_in_app_cons in Hin.
  apply (Permutation_in _ (sorted_by_mass_perm _)).
  apply in_or_app. left. apply in_or_app. left. exact Hin.
Qed.

(** ** Examples *)

(** The charge token is left out at charge 1, the default adduct is left
    out, another adduct is rendered verbatim, and the unknown ion renders
    as "?". *)
Example render_examples :
  let render r :=
    match r with
    | Ok a => Some (FragmentAnnotation_str (fun _ => "") a)
    | Raise _ => None
    end in
  map render
    [FragmentAnnotation_init "b" None 0 (Some 1) None None None;
     FragmentAnnotation_init "b" None 0 (Some 2) None None None;
     FragmentAnnotation_init "y" None 0 (Some 3) None None None;
     FragmentAnnotation_init "y" None 0 (Some 3) (Some "[M+2Na+H]") None None;
     FragmentAnnotation_init "y4" (Some "-H2O") (-1) (Some 2) None (Some 1)
       None;
     FragmentAnnotation_init "?" None 0 None None None None;
     FragmentAnnotation_init "?" None 0 (Some 1) None None None;
     FragmentAnnotation_init "Gx" None 0 (Some 1) None None None]
  = [Some "b"; Some "b^2"; Some "y^3"; Some "y^3[M+2Na+H]";
     Some "1@y4-H2O-i^2"; Some "?"; None; None].
Proof. reflexivity. Qed.

(** "PEP" without modifications, ion types "by", charge 1: the fragments
    b1, y1, b2, y2 in ascending order of mass. *)
Example PEP_by :
  match get_theoretical_fragments sample_pyteomics listing_order
          (unmodified "PEP") "by" 1 None
  with
  | Ok out =>
      map (fun x => ion_type (fst x)) out = ["b1"; "y1"; "b2"; "y2"]
      /\ map (fun x => Qred (snd x)) out
         = map Qred [98.06003646677; 116.07060115047; 227.10262646677;
                     245.11319115047]%Q
  | Raise _ => False
  end.
Proof. vm_compute. split; reflexivity. Qed.

(** "PEPTIDE" oxidised at index 3, ion types "by": the modification mass
    enters the b ions from b4 on and the y ions from y4 on. *)
Example oxidised_PEPTIDE_by :
  get_base_fragments listing_order oxidised_PEPTIDE "by"
  = Ok [("P", "b", FragInt 1, 0); ("PE", "b", FragInt 2, 0);
        ("PEP", "b", FragInt 3, 0); ("PEPT", "b", FragInt 4, 0 + 15.9949);
        ("PEPTI", "b", FragInt 5, 0 + 15.9949);
        ("PEPTID", "b", FragInt 6, 0 + 15.9949);
        ("E", "y", FragInt 1, 0); ("DE", "y", FragInt 2, 0);
        ("IDE", "y", FragInt 3, 0); ("TIDE", "y", FragInt 4, 0 + 15.9949);
        ("PTIDE", "y", FragInt 5, 0 + 15.9949);
        ("EPTIDE", "y", FragInt 6, 0 + 15.9949)]%Q.
Proof. reflexivity. Qed.

(** * Further properties *)

(** ** The exceptions of the construction *)

Lemma charge_setter_error (it : string) (ch : option Z) (e : exn) :
  charge_setter it ch = Raise e -> e = ValueError.
Proof.
  unfold charge_setter.
  destruct ((it =? "?")%string && is_some ch); [now intros H; inversion H|].
  destruct (negb (it =? "?")%string
            && match ch with Some c => c <=? 0 | None => true end);
    [now intros H; inversion H | discriminate].
Qed.

Lemma mz_delta_setter_error (mz : option (Q * string)) (e : exn) :
  mz_delta_setter mz = Raise e -> e = ValueError.
Proof.
  unfold mz_delta_setter. destruct mz as [[d u]|]; [|discriminate].
  destruct (negb ((u =? "Da")%string || (u =? "ppm")%string));
    [now intros H; inversion H | discriminate].
Qed.

(** X13.  The kind of the exception shows what was wrong, and the checks
    come in a fixed order: the construction raises [IndexError] exactly on
    the empty ion type and [NotImplementedError] exactly on an advanced
    first character ("G", "L", "X", "S"), whatever the other arguments are;
    every other failure is a [ValueError]. *)
Theorem init_exception_kinds :
  forall ion_type nl iso ch ad an mz,
    (FragmentAnnotation_init ion_type nl iso ch ad an mz = Raise IndexError
     <-> ion_type = "")
    /\ (FragmentAnnotation_init ion_type nl iso ch ad an mz
        = Raise NotImplementedError
        <-> first_char_in ion_type "GLXS")
    /\ (forall e,
           FragmentAnnotation_init ion_type nl iso ch ad an mz = Raise e ->
           e = IndexError \/ e = NotImplementedError \/ e = ValueError).
Proof.
  intros it nl iso ch ad an mz.
  assert (Hrest : forall c r e,
             it = String c r ->
             char_in c "GLXS" = false ->
             FragmentAnnotation_init it nl iso ch ad an mz = Raise e ->
             e = ValueError).
  { intros c r e -> HG. unfold FragmentAnnotation_init. rewrite HG.
    destruct (negb (char_in c "?abcxyzIm_prf")); [now intros H; inversion H|].
    match goal with
    | |- (if ?b then _ else _) = _ -> _ => destruct b
    end; [now intros H; inversion H|].
    destruct (charge_setter (String c r) ch) as [ch'|e'] eqn:Hch; simpl.
    - destruct (mz_delta_setter mz) as [mz'|e''] eqn:Hmz; simpl;
        [discriminate|].
      intros H. inversion H; subst. now apply (mz_delta_setter_error mz).
    - intros H. inversion H; subst.
      now apply (charge_setter_error (String c r) ch). }
  destruct it as [|c r].
  - repeat split; try reflexivity; try discriminate.
    + intros (c & r & H & _). discriminate.
    + intros e H. inversion H. now left.
  - destruct (char_in c "GLXS") eqn:HG.
    + assert (Hinit : FragmentAnnotation_init (String c r) nl iso ch ad an mz
                      = Raise NotImplementedError).
      { unfold FragmentAnnotation_init. now rewrite HG. }
      rewrite Hinit. repeat split; try discriminate.
      * intros _. now apply char_in_first.
      * intros e H. inversion H. right. now left.
    + repeat split; try discriminate.
      * intros H. now apply (Hrest c r _ eq_refl HG) in H.
      * intros H. now apply (Hrest c r _ eq_refl HG) in H.
      * intros H. apply char_in_first in H. congruence.
      * intros e H. right. right. now apply (Hrest c r e eq_refl HG).
Qed.

(** ** Equality and assignments *)

Section AnnotationOperations.

Variable fmt_float : Q -> string.

(** X15.  [__eq__] compares the canonical strings only, and the string
    does not separate the ion type from the neutral loss: an annotation
    with a neutral loss equals the annotation whose ion type has that loss
    appended, which can always be constructed and is a different object. *)
Theorem eq_absorbs_neutral_loss :
  forall ion_type nl iso ch ad an mz a,
    FragmentAnnotation_init ion_type (Some nl) iso ch ad an mz = Ok a ->
    exists a',
      FragmentAnnotation_init (ion_type ++ nl) None iso ch ad an mz = Ok a'
      /\ FragmentAnnotation_eq fmt_float a a' = true
      /\ a <> a'.
Proof.
  intros it nl iso ch ad an mz a Hinit.
  pose proof (init_str_Render fmt_float _ _ _ _ _ _ _ _ Hinit) as Hstr.
  destruct (init_ok _ _ _ _ _ _ _ _ Hinit) as (Ha & Hknown & Hunknown & Hunit).
  destruct it as [|c r]; [discriminate|].
  assert (Hne : forall s, (String c (r ++ s) =? "?")%string = true ->
                          (String c r =? "?")%string = true).
  { intros s H. apply String.eqb_eq in H. apply String.eqb_eq.
    destruct r; simpl in H; congruence. }
  assert (Hq : (String c r =? "?")%string = false).
  { apply String.eqb_neq. intros Heq. injection Heq as -> ->.
    cbn in Hinit. discriminate. }
  assert (Hq' : (String c (r ++ nl) =? "?")%string = false).
  { destruct (String c (r ++ nl) =? "?")%string eqn:H; [|reflexivity].
    apply Hne in H. congruence. }
  change (String c r ++ nl) with (String c (r ++ nl)).
  pose (a' := {| ion_type := String c (r ++ nl); neutral_loss := None;
                 isotope := iso; charge := ch;
                 adduct := match ad with
                           | None => "[M+" ++ fmt_opt_int ch ++ "H]"
                           | Some x => x
                           end;
                 analyte_number := an; mz_delta := mz |}).
  assert (Hinit' :
    FragmentAnnotation_init (String c (r ++ nl)) None iso ch ad an mz
    = Ok a').
  { revert Hinit. unfold FragmentAnnotation_init.
    destruct (char_in c "GLXS"); [discriminate|].
    destruct (negb (char_in c "?abcxyzIm_prf")); [discriminate|].
    rewrite Hq, Hq'. cbn [andb].
    unfold charge_setter. rewrite Hq, Hq'. cbn [andb negb].
    destruct (match ch with Some c0 => c0 <=? 0 | None => true end);
      [discriminate|]. cbn [bind].
    destruct (mz_delta_setter mz) as [mz'|e] eqn:Hmz; [|discriminate].
    apply mz_delta_setter_ok in Hmz. destruct Hmz as (-> & _).
    reflexivity. }
  exists a'. split; [exact Hinit'|]. split.
  - unfold FragmentAnnotation_eq. apply String.eqb_eq.
    rewrite Hstr, (init_str_Render fmt_float _ _ _ _ _ _ _ _ Hinit').
    subst a. unfold Render, a', analyte_token, neutral_loss_token,
      isotope_token, charge_token, adduct_token, mz_delta_token.
    cbn [ion_type neutral_loss isotope charge adduct analyte_number
         mz_delta].
    rewrite Hq, Hq'. f_equal.
    change (String c (r ++ nl)) with (String c r ++ nl).
    rewrite append_assoc. reflexivity.
  - subst a. unfold a'. intros Heq. inversion Heq.
Qed.

(** X16.  Assigning a new charge to an annotation that was constructed
    with the default adduct leaves the stored adduct at the old charge;
    the canonical string is nevertheless the one of the annotation
    constructed with the new charge, because every adduct of the default
    form is left out of it. *)
Theorem set_charge_renders_as_constructed :
  forall ion_type nl iso ch an mz a new_charge a',
    FragmentAnnotation_init ion_type nl iso ch None an mz = Ok a ->
    FragmentAnnotation_set_charge a new_charge = Ok a' ->
    adduct a' = adduct a
    /\ exists a0,
         FragmentAnnotation_init ion_type nl iso new_charge None an mz
         = Ok a0
         /\ FragmentAnnotation_str fmt_float a'
            = FragmentAnnotation_str fmt_float a0.
Proof.
  intros it nl iso ch an mz a new_charge a' Hinit Hset.
  destruct (init_ok _ _ _ _ _ _ _ _ Hinit) as (Ha & Hknown & Hunknown & Hunit).
  unfold FragmentAnnotation_set_charge in Hset.
  apply bind_ok in Hset. destruct Hset as (ch' & Hch' & Hset).
  inversion Hset; subst a'; clear Hset. split; [reflexivity|].
  subst a. cbn [ion_type neutral_loss isotope charge adduct analyte_number
                mz_delta] in *.
  pose proof (charge_setter_ok _ _ _ Hch') as (-> & Hknown' & Hunknown').
  destruct (String.eqb_spec it "?") as [->|Hne].
  - (* the unknown ion: both charges are None *)
    destruct (Hunknown eq_refl) as (-> & _). rewrite (Hunknown' eq_refl).
    exists {| ion_type := "?"; neutral_loss := nl; isotope := iso;
              charge := None; adduct := "[M+" ++ fmt_opt_int None ++ "H]";
              analyte_number := an; mz_delta := mz |}.
    split; [exact Hinit | reflexivity].
  - destruct (Hknown Hne) as (c & -> & Hc).
    destruct (Hknown' Hne) as (c' & -> & Hc').
    pose (a0 := {| ion_type := it; neutral_loss := nl; isotope := iso;
                   charge := Some c';
                   adduct := "[M+" ++ fmt_int c' ++ "H]";
                   analyte_number := an; mz_delta := mz |}).
    assert (Hinit0 :
      FragmentAnnotation_init it nl iso (Some c') None an mz = Ok a0).
    { revert Hinit. unfold FragmentAnnotation_init.
      destruct it as [|c0 r]; [discriminate|].
      destruct (char_in c0 "GLXS"); [discriminate|].
      destruct (negb (char_in c0 "?abcxyzIm_prf")); [discriminate|].
      apply String.eqb_neq in Hne. rewrite Hne. cbn [andb].
      rewrite Hch'. cbn [bind].
      destruct (charge_setter (String c0 r) (Some c)); [|discriminate].
      cbn [bind].
      destruct (mz_delta_setter mz) as [mz'|e] eqn:Hmz; [|discriminate].
      apply mz_delta_setter_ok in Hmz. destruct Hmz as (-> & _).
      reflexivity. }
    exists a0. split; [exact Hinit0|].
    rewrite (init_str_Render fmt_float _ _ _ _ _ _ _ _ Hinit0).
    rewrite str_tokens.
    + unfold Render, a0, analyte_token, neutral_loss_token, isotope_token,
        charge_token, adduct_token, mz_delta_token.
      cbn [ion_type neutral_loss isotope charge adduct analyte_number
           mz_delta fmt_opt_int].
      now rewrite (default_adduct_begins c Hc),
        (default_adduct_begins c' Hc').
    + cbn [charge]. intros c1 Heq. now inversion Heq; subst.
    + exact Hunit.
Qed.

End AnnotationOperations.

(** ** PeakInterpretation *)






(** ** The generator: its arguments *)

Section GeneratorArguments.

Variable E : Pyteomics.
Variable order : SetOrder.

Lemma set_inter_ext (s s1 s2 : string) :
  (forall c, char_in c s1 = char_in c s2) ->
  set_inter s s1 = set_inter s s2.
Proof. intros H. unfold set_inter. apply filter_ext. exact H. Qed.

(** X6.  The selector of the ion types is read as a set of characters
    as far as the selection goes, but the order in which the selected
    categories are walked belongs to the set that was built from it.  Two
    selectors with the same characters, in whatever order and with
    whatever repetitions, give the same result when at most one N-terminal
    and one C-terminal category are selected.  With two categories they
    need not: when "ab" and "ba" are walked in different orders, the
    accumulated modification mass goes to another category and the
    results differ. *)
Theorem ion_types_read_as_set :
  (forall (p : Proteoform) (s1 s2 : string) (max_charge : Z) nl,
      (forall c, char_in c s1 = char_in c s2) ->
      (List.length (set_inter "abc" s1) <= 1)%nat ->
      (List.length (set_inter "xyz" s1) <= 1)%nat ->
      get_theoretical_fragments E order p s1 max_charge nl
      = get_theoretical_fragments E order p s2 max_charge nl)
  /\ ((forall c, char_in c "ab" = char_in c "ba")
      /\ get_theoretical_fragments sample_pyteomics operand_order
           oxidised_PEPTIDE "ab" 1 None
         <> get_theoretical_fragments sample_pyteomics operand_order
              oxidised_PEPTIDE "ba" 1 None).
Proof.
  split.
  - intros p s1 s2 max_charge nl H Hn Hc.
    unfold get_theoretical_fragments, get_fragments_masses,
      get_base_fragments, n_terminal_fragments, c_terminal_fragments.
    rewrite <- (set_inter_ext "abc" s1 s2 H),
      <- (set_inter_ext "xyz" s1 s2 H).
    rewrite (set_iter_short order order s2 s1 (set_inter "abc" s1) Hn),
      (set_iter_short order order s2 s1 (set_inter "xyz" s1) Hc).
    now rewrite (H "m"%char), (H "p"%char), (H "I"%char).
  - split.
    + intros c. destruct c as [[] [] [] [] [] [] [] []]; reflexivity.
    + intros Heq. vm_compute in Heq. discriminate Heq.
Qed.

Lemma neutral_loss_fragments_of_named (d : dict (option string) Q)
    (fm : list fragment_mass) :
  neutral_loss_fragments_of d fm
  = neutral_loss_fragments_of (named_losses d) fm.
Proof.
  unfold neutral_loss_fragments_of, named_losses.
  generalize (@nil fragment_mass) as acc.
  induction d as [|[[name|] D] d IH]; intros acc; cbn [filter fst is_some].
  - reflexivity.
  - cbn [for_r].
    match goal with
    | |- bind ?m _ = bind ?m _ => destruct m as [acc'|e]
    end; [apply IH | reflexivity].
  - cbn [for_r bind]. apply IH.
Qed.

(** X7.  The entries of the neutral-loss mapping under the key [None] are
    skipped, whatever their delta: the result is that of the mapping
    without them, and omitting the mapping is the same as passing an empty
    one. *)
Theorem null_losses_are_skipped :
  forall (p : Proteoform) (ion_types : string) (max_charge : Z),
    (forall d,
        get_theoretical_fragments E order p ion_types max_charge (Some d)
        = get_theoretical_fragments E order p ion_types max_charge
            (Some (named_losses d)))
    /\ get_theoretical_fragments E order p ion_types max_charge None
       = get_theoretical_fragments E order p ion_types max_charge (Some []).
Proof.
  intros p ion_types max_charge. split.
  - intros d. unfold get_theoretical_fragments. cbn [default_losses].
    destruct (get_fragments_masses E order p ion_types max_charge)
      as [fm|e]; [|reflexivity].
    cbn [bind]. now rewrite neutral_loss_fragments_of_named.
  - reflexivity.
Qed.

(** Where an entry of the output comes from: a base fragment at a charge
    up to [max_charge], the immonium ion of a residue, or one of those with
    a neutral loss. *)
Lemma output_origin (p : Proteoform) (ion_types : string) (max_charge : Z)
    nl (out : list fragment_mass) (a : FragmentAnnotation) (M : Q) :
  get_theoretical_fragments E order p ion_types max_charge nl = Ok out ->
  In (a, M) out ->
  exists token ch,
    ion_type a = token /\ charge a = Some ch
    /\ isotope a = 0 /\ analyte_number a = None /\ mz_delta a = None
    /\ adduct a = "[M+" ++ fmt_int ch ++ "H]"
    /\ ((exists base s t fi mm,
            get_base_fragments order p ion_types = Ok base
            /\ In (s, t, fi, mm) base
            /\ token = annot_type_of t fi
            /\ 1 <= ch <= max_charge)
        \/ (char_in "I" ion_types = true
            /\ ch = 1
            /\ exists item,
                 In item (immonium_residues E)
                 /\ token = "I" ++ fst item)).
Proof.
  intros Hout Hin. apply get_theoretical_fragments_ok in Hout.
  destruct Hout as (fm & nlf & Hfm & Hnlf & ->).
  apply (Permutation_in _ (Permutation_sym (sorted_by_mass_perm _))) in Hin.
  assert (Hfm_case : forall F M0,
             In (F, M0) fm ->
             exists token ch,
               F = plain_annotation token ch
               /\ ((exists base s t fi mm,
                       get_base_fragments order p ion_types = Ok base
                       /\ In (s, t, fi, mm) base
                       /\ token = annot_type_of t fi
                       /\ 1 <= ch <= max_charge)
                   \/ (char_in "I" ion_types = true
                       /\ ch = 1
                       /\ exists item,
                            In item (immonium_residues E)
                            /\ token = "I" ++ fst item))).
  { intros F M0 HF. apply get_fragments_masses_ok in Hfm.
    destruct Hfm as (_ & _ & base & yss & Hbase & Hyss & ->).
    apply in_app_or in HF. destruct HF as [HF|HF].
    - destruct (charged_In_inv E _ _ _ _ Hyss HF)
        as ([[[s t] fi] mm] & ch & Hbf & Hch & Hcharged).
      apply charged_mass_ok in Hcharged. destruct Hcharged as (-> & _).
      exists (annot_type_of t fi), ch. split; [reflexivity|]. left.
      now exists base, s, t, fi, mm.
    - destruct (char_in "I" ion_types); [|contradiction].
      apply in_map_iff in HF. destruct HF as (item & Heq & Hitem).
      inversion Heq; subst F M0.
      exists ("I" ++ fst item), 1. split; [reflexivity|]. right.
      split; [reflexivity|]. split; [reflexivity|]. now exists item. }
  apply in_app_or in Hin. destruct Hin as [Hin|Hin].
  - destruct (Hfm_case a M Hin) as (token & ch & -> & Hcase).
    exists token, ch. now repeat split.
  - rewrite neutral_loss_fragments_of_map_r in Hnlf.
    apply bind_ok in Hnlf. destruct Hnlf as (yss & Hyss & Hnlf).
    inversion Hnlf; subst nlf; clear Hnlf.
    apply in_concat in Hin. destruct Hin as (ys & Hys & Hin).
    destruct (map_r_In_inv _ _ _ Hyss _ Hys) as ([[name|] D] & _ & Hmap);
      simpl in Hmap; [|inversion Hmap; subst; contradiction].
    destruct (map_r_In_inv _ _ _ Hmap _ Hin) as ([F M0] & HF & Hloss).
    destruct (Hfm_case F M0 HF) as (token & ch & -> & Hcase).
    unfold loss_fragment in Hloss.
    apply bind_ok in Hloss. destruct Hloss as (a' & Ha' & Hloss).
    apply bind_ok in Hloss. destruct Hloss as (m' & _ & Hloss).
    inversion Hloss; subst a' M; clear Hloss.
    apply init_ok in Ha'. destruct Ha' as (-> & _).
    exists token, ch. now repeat split.
Qed.

(** X9.  With a maximal charge below 1 no base fragment gets a charge:
    whatever the output holds is an immonium ion, which is always singly
    charged, or a neutral-loss variant of one, and it holds nothing when
    "I" is not requested. *)
Theorem no_charge_only_immonium :
  forall (p : Proteoform) (ion_types : string) (max_charge : Z) nl out,
    max_charge <= 0 ->
    get_theoretical_fragments E order p ion_types max_charge nl = Ok out ->
    (forall a M,
        In (a, M) out ->
        charge a = Some 1
        /\ exists item,
             In item (immonium_residues E)
             /\ ion_type a = "I" ++ fst item)
    /\ (char_in "I" ion_types = false -> out = []).
Proof.
  intros p ion_types max_charge nl out Hmax Hout.
  assert (Hall : forall a M,
             In (a, M) out ->
             char_in "I" ion_types = true
             /\ charge a = Some 1
             /\ exists item,
                  In item (immonium_residues E)
                  /\ ion_type a = "I" ++ fst item).
  { intros a M Hin.
    destruct (output_origin _ _ _ _ _ _ _ Hout Hin)
      as (token & ch & Hit & Hch & _ & _ & _ & _ & Hcase).
    destruct Hcase as [(base & s & t & fi & mm & _ & _ & _ & Hrange)
                      |(HI & -> & item & Hitem & ->)]; [lia|].
    split; [assumption|]. split; [assumption|]. now exists item. }
  split.
  - intros a M Hin. now destruct (Hall a M Hin) as (_ & H).
  - intros HI. destruct out as [|[a M] out]; [reflexivity|].
    destruct (Hall a M (or_introl eq_refl)) as (HI' & _). congruence.
Qed.

(** X10.  A sequence of fewer than two residues has no cleavage site: the
    output holds the precursor, the immonium ions and their neutral-loss
    variants at most, and nothing when neither "p" nor "I" is requested. *)
Theorem short_sequence_has_no_fragments :
  forall (p : Proteoform) (ion_types : string) (max_charge : Z) nl out,
    (String.length (sequence p) <= 1)%nat ->
    get_theoretical_fragments E order p ion_types max_charge nl = Ok out ->
    (forall a M,
        In (a, M) out ->
        (ion_type a = "p" /\ char_in "p" ion_types = true)
        \/ (first_char_in (ion_type a) "I"
            /\ char_in "I" ion_types = true))
    /\ (char_in "p" ion_types = false -> char_in "I" ion_types = false ->
        out = []).
Proof.
  intros p ion_types max_charge nl out Hlen Hout.
  assert (Hrange : forall i, ~ In i (range 1 (String.length (sequence p)))).
  { intros i Hi. apply range_In in Hi. lia. }
  assert (Hall : forall a M,
             In (a, M) out ->
             (ion_type a = "p" /\ char_in "p" ion_types = true)
             \/ (first_char_in (ion_type a) "I"
                 /\ char_in "I" ion_types = true)).
  { intros a M Hin.
    destruct (output_origin _ _ _ _ _ _ _ Hout Hin)
      as (token & ch & Hit & _ & _ & _ & _ & _ & Hcase).
    destruct Hcase as [(base & s & t & fi & mm & Hbase & Hbf & -> & _)
                      |(HI & _ & item & _ & ->)].
    2:{ right. split; [|assumption]. rewrite Hit.
        exists "I"%char, (fst item). split; [reflexivity | now left]. }
    left. apply get_base_fragments_ok in Hbase.
    destruct Hbase as (n_added & c_added & -> & _ & Hn & _ & Hc).
    apply in_app_or in Hbf. destruct Hbf as [Hbf|Hbf].
    { destruct (Hn _ Hbf) as (c & i & st & _ & Hi & _). now apply Hrange in Hi. }
    apply in_app_or in Hbf. destruct Hbf as [Hbf|Hbf].
    { destruct (Hc _ Hbf) as (c & i & st & _ & Hi & _). now apply Hrange in Hi. }
    apply in_app_or in Hbf. destruct Hbf as [Hbf|Hbf].
    - destruct (char_in "m" ion_types); [|contradiction].
      apply in_map_iff in Hbf. destruct Hbf as ([start_i stop_i] & _ & Hr).
      unfold internal_ranges in Hr. apply in_flat_map in Hr.
      destruct Hr as (i & Hi & _). now apply Hrange in Hi.
    - destruct (char_in "p" ion_types); [|contradiction].
      destruct Hbf as [Heq|[]]. inversion Heq; subst.
      split; [exact Hit | reflexivity]. }
  split; [exact Hall|].
  intros Hp HI. destruct out as [|[a M] out]; [reflexivity|].
  destruct (Hall a M (or_introl eq_refl)) as [(_ & H)|(_ & H)]; congruence.
Qed.

End GeneratorArguments.

(** ** The generator: what the output holds *)

Section GeneratorOutput.

Variable E : Pyteomics.
Variable order : SetOrder.

Lemma first_char_not_unknown (s allowed : string) :
  first_char_in s allowed ->
  ~ In "?"%char (list_ascii_of_string allowed) ->
  (s =? "?")%string = false.
Proof.
  intros (c & r & -> & Hc) Hnot. apply String.eqb_neq. intros Heq.
  inversion Heq; subst. contradiction.
Qed.

(** X12.  Every annotation of the output is of the plainest kind: a
    positive charge (at most [max_charge], or 1 for an immonium ion), the
    monoisotopic peak, the default adduct of its charge, no analyte number
    and no m/z delta; its canonical string is the ion type, the neutral loss
    if any, and the charge token above charge 1. *)
Theorem output_annotations_are_plain :
  forall (p : Proteoform) (ion_types : string) (max_charge : Z) nl out a M,
    get_theoretical_fragments E order p ion_types max_charge nl = Ok out ->
    In (a, M) out ->
    exists ch,
      charge a = Some ch
      /\ 1 <= ch /\ (ch <= max_charge \/ ch = 1)
      /\ isotope a = 0
      /\ analyte_number a = None
      /\ mz_delta a = None
      /\ adduct a = "[M+" ++ fmt_int ch ++ "H]"
      /\ forall fmt_float,
           FragmentAnnotation_str fmt_float a
           = ion_type a ++ neutral_loss_token a
               ++ (if ch <=? 1 then "" else "^" ++ fmt_int ch).
Proof.
  intros p ion_types max_charge nl out a M Hout Hin.
  destruct (output_origin E order _ _ _ _ _ _ _ Hout Hin)
    as (token & ch & Hit & Hch & Hiso & Han & Hmz & Had & Hcase).
  assert (Hpos : 1 <= ch /\ (ch <= max_charge \/ ch = 1)).
  { destruct Hcase as [(base & s & t & fi & mm & _ & _ & _ & Hr)
                      |(_ & -> & _)]; lia. }
  assert (Hknown : (ion_type a =? "?")%string = false).
  { rewrite Hit.
    destruct Hcase as [(base & s & t & fi & mm & Hbase & Hbf & -> & _)
                      |(_ & _ & item & _ & ->)].
    - apply (first_char_not_unknown _ "abcxyzmp").
      + now apply (base_annot_first_char order p ion_types base s t fi mm).
      + simpl. intros H. repeat (destruct H as [H|H]; [discriminate|]).
        exact H.
    - reflexivity. }
  exists ch. destruct Hpos as (Hpos & Hmax).
  repeat (split; [assumption|]).
  intros fmt_float. rewrite str_tokens.
  - unfold Render, analyte_token, isotope_token, charge_token, adduct_token,
      mz_delta_token.
    rewrite Hknown, Han, Hiso, Hch, Hmz, Had.
    rewrite (default_adduct_begins ch) by lia.
    cbn [Z.eqb append]. now rewrite !append_empty_r.
  - rewrite Hch. intros c Heq. inversion Heq. lia.
  - rewrite Hmz. discriminate.
Qed.

(** X3.  When "p" is requested, the output holds the precursor at every
    charge up to [max_charge]: the whole sequence with the ion type "M",
    and the mass deltas of all the modifications, wherever they are
    positioned, divided by the charge. *)
Theorem precursor_carries_all_modifications :
  forall (p : Proteoform) (ion_types : string) (max_charge : Z) nl out ch,
    get_theoretical_fragments E order p ion_types max_charge nl = Ok out ->
    char_in "p" ion_types = true ->
    1 <= ch <= max_charge ->
    exists m,
      fast_mass E (sequence p) "M" ch (_aa_mass E) = Ok m
      /\ In (plain_annotation "p" ch,
             (m + total_modification_mass p / inject_Z ch)%Q) out.
Proof.
  intros p ion_types max_charge nl out ch Hout Hp Hch.
  apply get_theoretical_fragments_ok in Hout.
  destruct Hout as (fm & nlf & Hfm & _ & ->).
  apply get_fragments_masses_ok in Hfm.
  destruct Hfm as (_ & _ & base & yss & Hbase & Hyss & ->).
  apply get_base_fragments_ok in Hbase.
  destruct Hbase as (n_added & c_added & -> & _).
  rewrite Hp in Hyss.
  assert (Hbf : In (p_entry p)
                  (n_added ++ c_added
                     ++ (if char_in "m" ion_types
                         then map (fun r => m_entry p (fst r) (snd r) 0%Q)
                                (internal_ranges p)
                         else [])
                     ++ [p_entry p])).
  { apply in_or_app. right. apply in_or_app. right. apply in_or_app. right.
    now left. }
  destruct (charged_In E _ _ _ _ _ Hyss Hbf Hch) as ([a M] & Hx & Hin).
  apply charged_mass_ok in Hx. destruct Hx as (-> & m & Hmass & ->).
  exists m. split; [exact Hmass|].
  apply (Permutation_in _ (sorted_by_mass_perm _)).
  apply in_or_app. left. apply in_or_app. left. exact Hin.
Qed.

Lemma list_ascii_substring (n m : nat) (s : string) :
  list_ascii_of_string (substring n m s)
  = firstn m (skipn n (list_ascii_of_string s)).
Proof.
  revert s. induction n as [|n IH]; intros s.
  - apply list_ascii_substring_0.
  - destruct s as [|c s]; simpl.
    + now destruct m.
    + apply IH.
Qed.

Lemma map_r_all_ok {A B : Type} (g : A -> result B) (l : list A)
    (ys : list B) :
  map_r g l = Ok ys -> forall x, In x l -> exists y, g x = Ok y.
Proof.
  intros H x Hx. destruct (map_r_In g l ys H x Hx) as (y & Hy & _).
  now exists y.
Qed.

(** When [fast_mass] returns, it has found every residue in the table. *)
Lemma fast_mass_residues_known (s t : string) (ch : Z) (m : Q) :
  fast_mass E s t ch (_aa_mass E) = Ok m ->
  forall aa, In aa (list_ascii_of_string s) -> known_residue E aa.
Proof.
  unfold fast_mass. intros H aa Haa.
  rewrite (for_r_append_map_r _ (residue_mass (_aa_mass E))) in H
    by reflexivity.
  apply bind_ok in H. destruct H as (res0 & Hres0 & _).
  apply bind_ok in Hres0. destruct Hres0 as (residues & Hres & _).
  destruct (map_r_all_ok _ _ _ Hres aa Haa) as (y & Hy).
  unfold residue_mass in Hy. unfold known_residue.
  destruct (dict_get (_aa_mass E) (str1 aa)) as [v|]; [|discriminate].
  now exists v.
Qed.

(** X11.  No residue is given a mass that the table does not hold: when
    the generator returns with a charge of at least 1, every residue that
    lies in a generated fragment has an entry in [_aa_mass] -- all residues
    but the last for an N-terminal category, all but the first for a
    C-terminal one, all of them for the precursor.  A residue without an
    entry in such a place makes the generator raise. *)
Theorem fragment_residues_are_known :
  forall (p : Proteoform) (ion_types : string) (max_charge : Z) nl out,
    get_theoretical_fragments E order p ion_types max_charge nl = Ok out ->
    1 <= max_charge ->
    let residues := list_ascii_of_string (sequence p) in
    (set_inter "abc" ion_types <> [] ->
     forall aa, In aa (removelast residues) -> known_residue E aa)
    /\ (set_inter "xyz" ion_types <> [] ->
        forall aa, In aa (tl residues) -> known_residue E aa)
    /\ (char_in "p" ion_types = true ->
        forall aa, In aa residues -> known_residue E aa).
Proof.
  intros p ion_types max_charge nl out Hout Hmax residues.
  apply get_theoretical_fragments_ok in Hout.
  destruct Hout as (fm & nlf & Hfm & _ & _).
  apply get_fragments_masses_ok in Hfm.
  destruct Hfm as (_ & _ & base & yss & Hbase & Hyss & _).
  apply get_base_fragments_ok in Hbase.
  destruct Hbase as (n_added & c_added & -> & Hn & _ & Hc & _).
  assert (Hknown : forall s t fi mm,
             In (s, t, fi, mm)
               (n_added ++ c_added
                  ++ (if char_in "m" ion_types
                      then map (fun r => m_entry p (fst r) (snd r) 0%Q)
                             (internal_ranges p)
                      else [])
                  ++ (if char_in "p" ion_types then [p_entry p] else []))
             -> forall aa, In aa (list_ascii_of_string s) ->
                           known_residue E aa).
  { intros s t fi mm Hbf aa Haa.
    destruct (charged_In E _ _ _ _ 1 Hyss Hbf) as ([a M] & Hx & _); [lia|].
    apply charged_mass_ok in Hx. destruct Hx as (_ & m & Hmass & _).
    now apply (fast_mass_residues_known s t 1 m Hmass). }
  assert (Hlen : List.length residues = String.length (sequence p))
    by apply list_ascii_length.
  split; [|split].
  - intros Hcat aa Haa.
    destruct (set_inter "abc" ion_types) as [|c cats] eqn:Hcats;
      [contradiction|].
    destruct (Nat.le_gt_cases (List.length residues) 1) as [Hshort|Hlong].
    { destruct residues as [|x [|y l]]; simpl in *; try contradiction; lia. }
    destruct (Hn c (String.length (sequence p) - 1)%nat) as (st & Hst);
      [now left | apply range_In; lia|].
    apply (Hknown _ _ _ _ (in_or_app _ _ _ (or_introl Hst))).
    cbn [fst]. rewrite list_ascii_substring_0. fold residues.
    rewrite removelast_firstn_len in Haa.
    replace (String.length (sequence p) - 1)%nat
      with (Init.Nat.pred (List.length residues)) by lia.
    exact Haa.
  - intros Hcat aa Haa.
    destruct (set_inter "xyz" ion_types) as [|c cats] eqn:Hcats;
      [contradiction|].
    destruct (Nat.le_gt_cases (List.length residues) 1) as [Hshort|Hlong].
    { destruct residues as [|x [|y l]]; simpl in *; try contradiction; lia. }
    destruct (Hc c 1%nat) as (st & Hst);
      [now left | apply range_In; lia|].
    apply (Hknown _ _ _ _
             (in_or_app _ _ _ (or_intror (in_or_app _ _ _ (or_introl Hst))))).
    cbn [fst]. rewrite list_ascii_substring. fold residues.
    rewrite <- Hlen, firstn_all2 by (rewrite length_skipn; lia).
    destruct residues; exact Haa.
  - intros Hp aa Haa. rewrite Hp in Hknown.
    apply (Hknown (sequence p) "M" (FragStr "p") (total_modification_mass p));
      [|exact Haa].
    apply in_or_app. right. apply in_or_app. right. apply in_or_app. right.
    now left.
Qed.

End GeneratorOutput.

(** ** The generator: the size of the output *)

Section GeneratorSize.

Variable E : Pyteomics.
Variable order : SetOrder.

Lemma scan_length {A S : Type} (g : S -> A -> S) (l : list A) (s : S) :
  List.length (scan g l s) = List.length l.
Proof.
  revert s. induction l as [|x l IH]; intros s; simpl; [reflexivity|].
  now rewrite IH.
Qed.

Lemma terminal_walks_length {C : Type}
    (step : string -> C * list base_fragment -> nat
            -> C * list base_fragment)
    (g : C -> nat -> C) (entry : string -> nat * C -> base_fragment)
    (rng : list nat) :
  (forall t l cur base,
      fold_left (step t) l (cur, base)
      = (fold_left g l cur,
         (base ++ map (entry t) (scan g l cur))%list)) ->
  forall (cats : list ascii) cur base,
    List.length
      (snd (fold_left (fun st c => fold_left (step (str1 c)) rng st) cats
              (cur, base)))
    = (List.length base + List.length cats * List.length rng)%nat.
Proof.
  intros Hwalk. induction cats as [|c cats IH]; intros cur base; simpl.
  - lia.
  - rewrite Hwalk, IH, length_app, length_map, scan_length. lia.
Qed.

Lemma internal_ranges_length (len k a : nat) :
  (a + k = len)%nat ->
  (2 * List.length
         (flat_map (fun start_i =>
                      map (fun stop_i => (start_i, stop_i))
                        (range (start_i + 2) len)) (seq a k))
   = (k - 1) * (k - 2))%nat.
Proof.
  revert a. induction k as [|k IH]; intros a Hlen; [reflexivity|].
  cbn [seq flat_map]. rewrite length_app, length_map.
  unfold range at 1. rewrite length_seq.
  specialize (IH (S a) ltac:(lia)). unfold range in IH |- *.
  destruct k as [|[|k]]; simpl in IH |- *; nia.
Qed.

Lemma internal_ranges_count (p : Proteoform) :
  List.length (internal_ranges p)
  = ((String.length (sequence p) - 2) * (String.length (sequence p) - 3)
     / 2)%nat.
Proof.
  unfold internal_ranges, range at 2.
  set (len := String.length (sequence p)).
  destruct (Nat.le_gt_cases len 0) as [Hz|Hpos].
  - replace len with O by lia. reflexivity.
  - pose proof (internal_ranges_length len (len - 1) 1 ltac:(lia)) as H.
    replace (len - 1 - 1)%nat with (len - 2)%nat in H by lia.
    replace (len - 1 - 2)%nat with (len - 3)%nat in H by lia.
    rewrite <- H, Nat.mul_comm, Nat.div_mul by discriminate. reflexivity.
Qed.

Lemma get_base_fragments_length (p : Proteoform) (ion_types : string)
    (base : list base_fragment) :
  get_base_fragments order p ion_types = Ok base ->
  List.length base = base_fragment_count p ion_types.
Proof.
  unfold get_base_fragments, n_terminal_fragments, c_terminal_fragments.
  pose proof (terminal_walks_length (n_terminal_fragment p)
                (fun c i => prefix_modifications p i c) (n_entry p)
                (range 1 (String.length (sequence p)))
                (n_terminal_walk p)
                (set_iter order ion_types (set_inter "abc" ion_types))
                (O, 0%Q) [])
    as Hn.
  destruct (fold_left _
              (set_iter order ion_types (set_inter "abc" ion_types)) _)
    as [[n_i n_mass] n_base].
  set (ccur0 := match modifications p with
                | Some ms => (Some (Z.of_nat (List.length ms) - 1), 0%Q)
                | None => (None, n_mass)
                end).
  destruct ccur0 as [c_i c_mass].
  pose proof (terminal_walks_length (c_terminal_fragment p)
                (fun c i => suffix_modifications p i c) (c_entry p)
                (rev (range 1 (String.length (sequence p))))
                (c_terminal_walk p)
                (set_iter order ion_types (set_inter "xyz" ion_types))
                (c_i, c_mass)
                n_base)
    as Hc.
  destruct (fold_left _
              (set_iter order ion_types (set_inter "xyz" ion_types)) _)
    as [[c_i' c_mass'] c_base].
  cbn [snd] in Hn, Hc.
  rewrite (Permutation_length (set_iter_perm order _ _)) in Hn.
  rewrite (Permutation_length (set_iter_perm order _ _)) in Hc.
  rewrite length_rev in Hc. unfold range in Hn, Hc.
  rewrite length_seq in Hn, Hc. cbn [List.length] in Hn.
  intros H. apply bind_ok in H. destruct H as (base1 & Hbase1 & H).
  inversion H; subst base; clear H.
  assert (Hbase1_len :
            List.length base1
            = (List.length c_base
               + (if char_in "m" ion_types
                  then (String.length (sequence p) - 2)
                       * (String.length (sequence p) - 3) / 2
                  else 0))%nat).
  { destruct (char_in "m" ion_types).
    - apply internal_fragments_ok in Hbase1. subst base1.
      rewrite internal_entries_ranges. fold (internal_ranges p).
      now rewrite length_app, length_map, internal_ranges_count.
    - inversion Hbase1. lia. }
  unfold base_fragment_count.
  destruct (char_in "p" ion_types); unfold append;
    rewrite ?length_app; cbn [List.length]; lia.
Qed.

Lemma concat_length_uniform {A : Type} (k : nat) (yss : list (list A)) :
  Forall (fun ys => List.length ys = k) yss ->
  List.length (List.concat yss) = (List.length yss * k)%nat.
Proof.
  induction 1 as [|ys yss Hys _ IH]; simpl; [reflexivity|].
  rewrite length_app, IH, Hys. lia.
Qed.

Lemma charges_length (max_charge : Z) :
  List.length (charges max_charge) = Z.to_nat max_charge.
Proof.
  unfold charges, range. rewrite length_map, length_seq. lia.
Qed.

Lemma get_fragments_masses_length (p : Proteoform) (ion_types : string)
    (max_charge : Z) (fm : list fragment_mass) :
  get_fragments_masses E order p ion_types max_charge = Ok fm ->
  List.length fm
  = (base_fragment_count p ion_types * Z.to_nat max_charge
     + (if char_in "I" ion_types then List.length (immonium_residues E)
        else 0))%nat.
Proof.
  intros Hfm. apply get_fragments_masses_ok in Hfm.
  destruct Hfm as (_ & _ & base & yss & Hbase & Hyss & ->).
  apply get_base_fragments_length in Hbase.
  destruct (map_r_Forall _ (fun ys => List.length ys = Z.to_nat max_charge)
              _ _ Hyss) as (Hall & Hlen).
  { intros bf ys _ Hys.
    destruct (map_r_Forall _ (fun _ => True) _ _ Hys) as (_ & Hl);
      [trivial|].
    now rewrite Hl, charges_length. }
  rewrite length_app, (concat_length_uniform _ _ Hall), Hlen, Hbase.
  destruct (char_in "I" ion_types); [now rewrite length_map | reflexivity].
Qed.

Lemma neutral_loss_fragments_length (nl : dict (option string) Q)
    (fm nlf : list fragment_mass) :
  neutral_loss_fragments_of nl fm = Ok nlf ->
  List.length nlf
  = (List.length fm * List.length (named_losses nl))%nat.
Proof.
  rewrite neutral_loss_fragments_of_map_r. intros H.
  apply bind_ok in H. destruct H as (yss & Hyss & H).
  inversion H; subst nlf; clear H.
  revert yss Hyss. induction nl as [|[[name|] D] nl IH]; intros yss Hyss;
    cbn [map_r] in Hyss.
  - inversion Hyss. simpl. lia.
  - apply bind_ok in Hyss. destruct Hyss as (ys & Hys & Hyss).
    apply bind_ok in Hyss. destruct Hyss as (yss' & Hyss' & Hyss).
    inversion Hyss; subst yss; clear Hyss. cbn [fst snd] in Hys.
    destruct (map_r_Forall _ (fun _ => True) _ _ Hys) as (_ & Hl);
      [trivial|].
    cbn [List.concat named_losses filter fst is_some List.length].
    rewrite length_app, Hl, (IH yss' Hyss'). unfold named_losses. lia.
  - apply bind_ok in Hyss. destruct Hyss as (ys & Hys & Hyss).
    apply bind_ok in Hyss. destruct Hyss as (yss' & Hyss' & Hyss).
    inversion Hyss; subst yss; clear Hyss. cbn [fst] in Hys.
    inversion Hys; subst ys.
    cbn [List.concat named_losses filter fst is_some app].
    apply (IH yss' Hyss').
Qed.

(** X8.  The size of the output is fixed by the arguments: every selected
    terminal category gives one base fragment per cleavage site, "m" one
    per internal range, "p" one; each base fragment is listed at every
    charge from 1 to [max_charge]; "I" adds one entry per residue code of
    the mass table other than "X"; and every entry appears once as it is and
    once per named neutral loss.  Repeated letters of [ion_types] and
    modifications do not change the count. *)
Theorem output_size :
  forall (p : Proteoform) (ion_types : string) (max_charge : Z) nl out,
    get_theoretical_fragments E order p ion_types max_charge nl = Ok out ->
    List.length out = output_count E p ion_types max_charge nl.
Proof.
  intros p ion_types max_charge nl out Hout.
  apply get_theoretical_fragments_ok in Hout.
  destruct Hout as (fm & nlf & Hfm & Hnlf & ->).
  etransitivity;
    [symmetry; apply Permutation_length, sorted_by_mass_perm|].
  apply get_fragments_masses_length in Hfm.
  apply neutral_loss_fragments_length in Hnlf.
  rewrite length_app, Hnlf, Hfm. unfold output_count. lia.
Qed.

End GeneratorSize.

(** ** The C-terminal walk of a single category *)

Section SingleSuffixCategory.

Variable p : Proteoform.

Lemma sum_cons_eq (x : Q) (l : list Q) : (sum (x :: l) == x + sum l)%Q.
Proof.
  unfold sum. cbn [fold_left].
  assert (H : forall l a b, (fold_left Qplus l (a + b) 
                             == a + fold_left Qplus l b)%Q).
  { clear. induction l as [|y l IH]; intros a b; cbn [fold_left];
      [reflexivity|].
    rewrite <- IH. 
    assert (Heq : forall a1 a2, (a1 == a2)%Q ->
                    (fold_left Qplus l a1 == fold_left Qplus l a2)%Q).
    { clear. induction l as [|z l IH]; intros a1 a2 Ha; cbn [fold_left];
        [assumption|].
      apply IH. now rewrite Ha. }
    apply Heq. ring. }
  rewrite <- H. 
  assert (Heq : forall l a1 a2, (a1 == a2)%Q ->
                  (fold_left Qplus l a1 == fold_left Qplus l a2)%Q).
  { clear. induction l as [|z l IH]; intros a1 a2 Ha; cbn [fold_left];
      [assumption|].
    apply IH. now rewrite Ha. }
  apply Heq. ring.
Qed.

Lemma sum_snoc (l : list Q) (x : Q) : sum (l ++ [x]) = (sum l + x)%Q.
Proof. now rewrite sum_app. Qed.

Lemma sum_rev (l : list Q) : (sum (rev l) == sum l)%Q.
Proof.
  induction l as [|x l IH]; [reflexivity|].
  cbn [rev]. rewrite sum_snoc, sum_cons_eq, IH. ring.
Qed.

Lemma suffix_cond_retained (fragment_i : nat) (ms : list Modification)
    (mod_i : Z) (acc : Q) :
  modifications p = Some ms ->
  suffix_cond p fragment_i (Some mod_i, acc)
  = (mod_i >=? 0)
    && match nth_error ms (Z.to_nat mod_i) with
       | Some m => retained_suffix fragment_i m
       | None => false
       end.
Proof.
  unfold suffix_cond, retained_suffix. intros ->. cbn [fst].
  destruct (nth_error ms (Z.to_nat mod_i)) as [m|]; [|reflexivity].
  now destruct (position m).
Qed.

Lemma retained_suffix_mono (i i' : nat) (m : Modification) :
  (i' <= i)%nat ->
  retained_suffix i m = true -> retained_suffix i' m = true.
Proof.
  unfold retained_suffix. intros Hle H.
  apply orb_true_iff in H. apply orb_true_iff.
  destruct H as [H|H]; [now left|right].
  destruct (position m) as [v|s]; simpl in *; [|discriminate].
  apply Z.geb_le in H. apply Z.geb_le. lia.
Qed.

Lemma suffix_cursor_ok_mono (ms : list Modification) (i i' : nat)
    (st : option Z * Q) :
  (i' <= i)%nat -> suffix_cursor_ok ms i st -> suffix_cursor_ok ms i' st.
Proof.
  intros Hle (k & Hk & Hfst & Hsnd & Hall). exists k.
  repeat split; try assumption.
  eapply Forall_impl; [|exact Hall].
  intros m. now apply retained_suffix_mono.
Qed.

Lemma skipn_pred_nth {A : Type} (l : list A) (k : nat) (x : A) :
  nth_error l k = Some x -> skipn k l = x :: skipn (S k) l.
Proof.
  revert k. induction l as [|y l IH]; intros [|k] H; simpl in *;
    try discriminate.
  - now inversion H.
  - now apply IH.
Qed.

Lemma suffix_cursor_ok_loop (ms : list Modification) (i : nat)
    (st : option Z * Q) :
  modifications p = Some ms ->
  suffix_cursor_ok ms i st ->
  suffix_cursor_ok ms i (suffix_modifications p i st).
Proof.
  intros Hms. unfold suffix_modifications.
  apply (while_invariant (suffix_cursor_ok ms i)).
  intros [mod_i acc] (k & Hk & Hfst & Hsnd & Hall) Hc.
  cbn [fst snd] in Hfst, Hsnd. subst mod_i.
  rewrite (suffix_cond_retained i ms _ acc Hms) in Hc.
  apply andb_true_iff in Hc. destruct Hc as (Hge & Hc).
  apply Z.geb_le in Hge.
  unfold suffix_body. rewrite Hms. cbn [fst snd].
  destruct (nth_error ms (Z.to_nat (Z.of_nat k - 1))) as [m|] eqn:Hm;
    [|discriminate].
  destruct k as [|k]; [lia|].
  replace (Z.to_nat (Z.of_nat (S k) - 1)) with k in Hm by lia.
  exists k. split; [lia|]. split; [cbn [fst]; f_equal; lia|].
  rewrite (skipn_pred_nth ms k m Hm). split.
  - cbn [snd map rev]. rewrite map_app. cbn [map].
    now rewrite sum_snoc, Hsnd.
  - constructor; assumption.
Qed.

Lemma suffix_cursor_measure (ms : list Modification) (i : nat)
    (st : option Z * Q) :
  modifications p = Some ms ->
  suffix_cursor_ok ms i st ->
  (suffix_measure st <= S (mods_len p))%nat.
Proof.
  intros Hms (k & Hk & Hfst & _). unfold suffix_measure, mods_len.
  rewrite Hfst, Hms. lia.
Qed.

(** At the exit of the loop no modification before the cursor is retained,
    when the list is sorted by position. *)
Lemma suffix_loop_exit_sorted (ms : list Modification) (i : nat)
    (st : option Z * Q) (k : nat) :
  modifications p = Some ms ->
  StronglySorted position_le ms ->
  (k <= List.length ms)%nat ->
  fst st = Some (Z.of_nat k - 1) ->
  suffix_cond p i st = false ->
  Forall (fun m => retained_suffix i m = false) (firstn k ms).
Proof.
  intros Hms Hsorted Hk Hfst Hexit. destruct st as [mod_i acc].
  cbn [fst] in Hfst. subst mod_i.
  rewrite (suffix_cond_retained i ms _ acc Hms) in Hexit.
  destruct k as [|k]; [constructor|].
  replace (Z.to_nat (Z.of_nat (S k) - 1)) with k in Hexit by lia.
  replace (Z.of_nat (S k) - 1 >=? 0) with true in Hexit
    by (symmetry; apply Z.geb_le; lia).
  cbn [andb] in Hexit.
  destruct (nth_error ms k) as [m|] eqn:Hm.
  2:{ apply nth_error_None in Hm. lia. }
  rewrite (firstn_S_nth ms k m Hm).
  pose proof (firstn_skipn_middle k ms Hm) as Hsplit.
  rewrite <- Hsplit in Hsorted.
  apply ssorted_middle in Hsorted. destruct Hsorted as (Hbefore & _).
  apply Forall_app. split; [|constructor; [assumption | constructor]].
  eapply Forall_impl; [|exact Hbefore].
  intros m' Hle. unfold position_le, rank_le in Hle.
  unfold retained_suffix in Hexit |- *.
  destruct (rank_cases m) as [(v & Hpos & Hr)|[(Hpos & Hr)|[(Hpos & Hr)|
                              (Hskip & Hr)]]];
    rewrite Hr in Hle.
  - rewrite Hpos in Hexit. simpl in Hexit.
    destruct (rank_cases m') as [(v' & Hpos' & Hr')|[(Hpos' & Hr')|
                                 [(Hpos' & Hr')|(Hskip' & Hr')]]];
      rewrite Hr' in Hle; simpl in Hle; try lia.
    + rewrite Hpos'. simpl.
      destruct (Z.geb_spec v (Z.of_nat i)); [discriminate|].
      destruct (Z.geb_spec v' (Z.of_nat i)); [lia | reflexivity].
    + rewrite Hpos'. reflexivity.
    + destruct (position m') as [v'|s']; [discriminate|].
      simpl in Hr' |- *.
      destruct (s' =? "N-term")%string; [discriminate|].
      destruct (s' =? "C-term")%string; [discriminate | reflexivity].
  - destruct (rank_cases m') as [(v' & Hpos' & Hr')|[(Hpos' & Hr')|
                                 [(Hpos' & Hr')|(Hskip' & Hr')]]];
      rewrite Hr' in Hle; simpl in Hle; try lia.
    + rewrite Hpos'. reflexivity.
    + destruct (position m') as [v'|s']; [discriminate|].
      simpl in Hr' |- *.
      destruct (s' =? "N-term")%string; [discriminate|].
      destruct (s' =? "C-term")%string; [discriminate | reflexivity].
  - rewrite Hpos in Hexit. discriminate.
  - destruct (rank_cases m') as [(v' & Hpos' & Hr')|[(Hpos' & Hr')|
                                 [(Hpos' & Hr')|(Hskip' & Hr')]]];
      rewrite Hr' in Hle; simpl in Hle; try lia.
    destruct (position m') as [v'|s']; [discriminate|].
    simpl in Hr' |- *.
    destruct (s' =? "N-term")%string; [discriminate|].
    destruct (s' =? "C-term")%string; [discriminate | reflexivity].
Qed.

Lemma filter_all {A : Type} (f : A -> bool) (l : list A) :
  Forall (fun x => f x = true) l -> filter f l = l.
Proof.
  induction 1 as [|x l Hx _ IH]; simpl; [reflexivity|].
  now rewrite Hx, IH.
Qed.

(** The accumulator after the loop for [fragment_i] is the sum of the
    retained modifications, added from the last one backwards. *)
Lemma suffix_modifications_sum (ms : list Modification) (i : nat)
    (st : option Z * Q) :
  modifications p = Some ms ->
  StronglySorted position_le ms ->
  suffix_cursor_ok ms i st ->
  (snd (suffix_modifications p i st)
   == modification_sum (retained_suffix i) p)%Q.
Proof.
  intros Hms Hsorted Hst.
  pose proof (suffix_cursor_ok_loop ms i st Hms Hst) as (k & Hk & Hfst
                                                          & Hsnd & Hall).
  destruct (suffix_loop_exit p i st (suffix_cursor_measure ms i st Hms Hst))
    as (Hexit & _).
  pose proof (suffix_loop_exit_sorted ms i _ k Hms Hsorted Hk Hfst Hexit)
    as Hbefore.
  unfold modification_sum. rewrite Hms, Hsnd.
  rewrite <- (firstn_skipn k ms) at 2. rewrite filter_app.
  rewrite (filter_none _ (firstn k ms)) by now apply Forall_forall.
  rewrite (filter_all _ (skipn k ms)) by assumption.
  cbn [app]. rewrite map_rev. apply sum_rev.
Qed.

Lemma suffix_scan_sum (ms : list Modification) (n a i0 : nat)
    (st : option Z * Q) :
  modifications p = Some ms ->
  StronglySorted position_le ms ->
  (a + n <= S i0)%nat ->
  suffix_cursor_ok ms i0 st ->
  forall i st',
    In (i, st')
      (scan (fun c i => suffix_modifications p i c) (rev (seq a n)) st) ->
    (snd st' == modification_sum (retained_suffix i) p)%Q.
Proof.
  intros Hms Hsorted. revert i0 st.
  induction n as [|n IH]; intros i0 st Hle Hst i st'.
  - cbn [seq rev scan]. contradiction.
  - rewrite seq_S. rewrite rev_app_distr. cbn [rev app scan].
    assert (Hok : suffix_cursor_ok ms (a + n) st)
      by (apply (suffix_cursor_ok_mono ms i0); [lia | assumption]).
    intros [Heq|Hin].
    + inversion Heq; subst. now apply (suffix_modifications_sum ms).
    + apply (IH (a + n)%nat (suffix_modifications p (a + n) st));
        [lia| |assumption].
      now apply suffix_cursor_ok_loop.
Qed.

End SingleSuffixCategory.

Section SuffixMasses.

Variable E : Pyteomics.
Variable order : SetOrder.

(** The list of base fragments when a single C-terminal category is
    requested: the entries of the N-terminal walks, then one walk of the
    C-terminal category from the last cleavage index down, then the
    internal fragments and the precursor.  Without modifications the
    accumulator of the C-terminal walk is the one that the N-terminal walks
    left, which is [0]. *)
Lemma get_base_fragments_suffix_walk (p : Proteoform) (ion_types : string)
    (c : ascii) (base : list base_fragment) :
  get_base_fragments order p ion_types = Ok base ->
  set_inter "xyz" ion_types = [c] ->
  exists n_added n_mass,
    base
    = (n_added
         ++ map (c_entry p (str1 c))
              (scan (fun s i => suffix_modifications p i s)
                 (rev (range 1 (String.length (sequence p))))
                 match modifications p with
                 | Some ms => (Some (Z.of_nat (List.length ms) - 1), 0%Q)
                 | None => (None, n_mass)
                 end)
         ++ (if char_in "m" ion_types
             then map (fun r => m_entry p (fst r) (snd r) 0%Q)
                    (internal_ranges p)
             else [])
         ++ (if char_in "p" ion_types then [p_entry p] else []))%list
    /\ (modifications p = None -> n_mass = 0%Q)
    /\ (forall bf,
           In bf n_added ->
           exists c' i s,
             In c' (set_inter "abc" ion_types)
             /\ bf = n_entry p (str1 c') (i, s)).
Proof.
  intros Hbase Hsingle. revert Hbase.
  unfold get_base_fragments, n_terminal_fragments, c_terminal_fragments.
  destruct (terminal_walks (n_terminal_fragment p)
              (fun c i => prefix_modifications p i c) (n_entry p)
              (range 1 (String.length (sequence p)))
              (fun st => modifications p = None -> snd st = 0%Q)
              (n_terminal_walk p))
    with (cats := set_iter order ion_types (set_inter "abc" ion_types))
         (cur := (O, 0%Q)) (base := @nil base_fragment)
    as (ncur & n_added & -> & Hinv & _ & Hn_only).
  { intros [k acc] i Hst Hnone. specialize (Hst Hnone).
    unfold prefix_modifications, mods_len. rewrite Hnone. exact Hst. }
  { reflexivity. }
  destruct ncur as [n_i n_mass]. cbn [app snd] in *.
  rewrite Hsingle.
  rewrite (Permutation_length_1_inv
             (Permutation_sym (set_iter_perm order ion_types [c]))).
  cbn [fold_left].
  set (ccur0 := match modifications p with
                | Some ms => (Some (Z.of_nat (List.length ms) - 1), 0%Q)
                | None => (None, n_mass)
                end).
  destruct ccur0 as [c_i c_mass] eqn:Hccur0.
  rewrite (c_terminal_walk p).
  destruct (fold_left (fun c0 i => suffix_modifications p i c0) _ _)
    as [c_i' c_mass'].
  intros H. apply bind_ok in H. destruct H as (base1 & Hbase1 & H).
  inversion H; subst base; clear H.
  exists n_added, n_mass. split; [|split].
  - fold ccur0. rewrite Hccur0.
    destruct (char_in "m" ion_types).
    + apply internal_fragments_ok in Hbase1. subst base1.
      rewrite internal_entries_ranges. fold (internal_ranges p).
      destruct (char_in "p" ion_types); unfold append, p_entry;
        now rewrite <- ?app_assoc, ?app_nil_r.
    + inversion Hbase1; subst base1.
      destruct (char_in "p" ion_types); unfold append, p_entry; cbn [app];
        now rewrite <- ?app_assoc, ?app_nil_r.
  - exact Hinv.
  - intros bf Hbf.
    destruct (Hn_only bf Hbf) as (c' & i & s & Hc' & _ & _ & ->).
    exists c', i, s. split; [|reflexivity].
    apply (Permutation_in _ (set_iter_perm order ion_types _)). exact Hc'.
Qed.

(** X2.  A single C-terminal category on a peptide whose modifications are
    sorted by position: every fragment of the category carries the
    modification mass of its retained suffix, that is of the modifications
    at "C-term" and at the indices from the cleavage index on; the fragment
    labelled [k] is the one cleaved at [len - k].  The N-terminal
    categories requested beside it do not matter: the cursor is set anew
    before the C-terminal walk. *)
Theorem single_category_suffix_masses :
  forall (p : Proteoform) (c : ascii) (ion_types : string),
    set_inter "xyz" ion_types = [c] ->
    position_sorted p ->
    suffix_masses_as_specified E order p ion_types.
Proof.
  intros p c ion_types Hsingle Hsorted out c' k a M Hout Hc' Hin Hit.
  apply get_theoretical_fragments_ok in Hout.
  destruct Hout as (fm & nlf & Hfm & Hnlf & ->).
  cbn in Hnlf. inversion Hnlf; subst nlf; clear Hnlf.
  apply (Permutation_in _ (Permutation_sym (sorted_by_mass_perm _))) in Hin.
  rewrite app_nil_r in Hin.
  apply get_fragments_masses_ok in Hfm.
  destruct Hfm as (_ & _ & base & yss & Hbase & Hyss & ->).
  assert (Hnot : forall c0 r,
             ion_type a = String c0 r ->
             ~ In c0 (list_ascii_of_string "xyz") -> False).
  { intros c0 r Heq Hc0. rewrite Hit in Heq. inversion Heq; subst c0.
    contradiction. }
  apply in_app_or in Hin. destruct Hin as [Hin|Hin].
  2:{ exfalso. destruct (char_in "I" ion_types); [|contradiction].
      apply in_map_iff in Hin. destruct Hin as (item & Heq & _).
      inversion Heq; subst a. apply (Hnot "I"%char (fst item) eq_refl).
      simpl. intros H. repeat (destruct H as [H|H]; [discriminate|]).
      exact H. }
  destruct (charged_In_inv E _ _ _ _ Hyss Hin)
    as ([[[s t] fi] mm] & ch & Hbf & Hch & Hcharged).
  assert (ch = 1) by lia. subst ch.
  apply charged_mass_ok in Hcharged. destruct Hcharged as (-> & m & Hm & ->).
  cbn [plain_annotation ion_type] in Hit, Hnot.
  destruct (get_base_fragments_suffix_walk p ion_types c base Hbase Hsingle)
    as (n_added & n_mass & -> & Hnone & Hn_only).
  apply in_app_or in Hbf. destruct Hbf as [Hbf|Hbf].
  { exfalso. destruct (Hn_only _ Hbf) as (c0 & i0 & st0 & Hc0 & Heq).
    inversion Heq; subst s t fi mm; clear Heq.
    apply set_inter_In in Hc0. destruct Hc0 as (Hc0 & _).
    apply (Hnot c0 _ eq_refl). simpl in *. intros H.
    repeat (destruct Hc0 as [Hc0|Hc0];
            [subst c0; repeat (destruct H as [H|H]; [discriminate|]);
             exact H|]).
    exact Hc0. }
  apply in_app_or in Hbf. destruct Hbf as [Hbf|Hbf].
  { apply in_map_iff in Hbf. destruct Hbf as ([i st'] & Heq & Hscan).
    inversion Heq; subst s t fi mm; clear Heq. cbn [fst snd] in *.
    cbn [annot_type_of] in Hit. inversion Hit as [[Hc0 Hfmt]].
    apply fmt_int_inj in Hfmt. subst c'.
    assert (Hi : (1 <= i < String.length (sequence p))%nat).
    { assert (Hr : In i (rev (range 1 (String.length (sequence p)))))
        by exact (scan_In_inv _ _ _ _ _ Hscan).
      apply in_rev, range_In in Hr. lia. }
    exists i, m. split; [exact Hi|]. split; [lia|]. split; [exact Hm|].
    assert (Hsum : (snd st' == modification_sum (retained_suffix i) p)%Q).
    { unfold position_sorted in Hsorted.
      destruct (modifications p) as [ms|] eqn:Hms.
      - unfold range in Hscan.
        apply (suffix_scan_sum p ms (String.length (sequence p) - 1) 1
                 (String.length (sequence p))
                 (Some (Z.of_nat (List.length ms) - 1), 0%Q) Hms Hsorted)
          with (i := i) (st' := st'); [lia| |exact Hscan].
        exists (List.length ms). split; [lia|]. split; [reflexivity|].
        rewrite skipn_all. split; [reflexivity | constructor].
      - assert (Hst' : snd st' = 0%Q).
        { rewrite (Hnone eq_refl) in Hscan. clear - Hscan Hms. revert Hscan.
          generalize (rev (range 1 (String.length (sequence p)))) as l.
          induction l as [|x l IH]; cbn [scan]; [contradiction|].
          assert (Hstep : suffix_modifications p x (None, 0%Q)
                          = (None, 0%Q)).
          { unfold suffix_modifications, mods_len. rewrite Hms. cbn [while].
            unfold suffix_cond. now rewrite Hms. }
          rewrite Hstep. intros [Heq|Hin]; [now inversion Heq|].
          now apply IH. }
        rewrite Hst'. unfold modification_sum. rewrite Hms. reflexivity. }
    rewrite Hsum. reflexivity. }
  exfalso. apply in_app_or in Hbf. destruct Hbf as [Hbf|Hbf].
  - destruct (char_in "m" ion_types); [|contradiction].
    apply in_map_iff in Hbf. destruct Hbf as ([start_i stop_i] & Heq & _).
    inversion Heq; subst s t fi mm; clear Heq.
    cbn [annot_type_of fst snd] in Hnot.
    rewrite char_in_app_String in Hnot.
    apply (Hnot "m"%char _ eq_refl). simpl. intros H.
    repeat (destruct H as [H|H]; [discriminate|]). exact H.
  - destruct (char_in "p" ion_types); [|contradiction].
    destruct Hbf as [Heq|[]]. inversion Heq; subst s t fi mm; clear Heq.
    apply (Hnot "p"%char "" eq_refl). simpl. intros H.
    repeat (destruct H as [H|H]; [discriminate|]). exact H.
Qed.

End SuffixMasses.

(** ** Internal fragments: when the generator raises *)

Section InternalRaise.

Variable p : Proteoform.

Lemma skip_loop_find (ms : list Modification) (start_i : nat) :
  modifications p = Some ms ->
  forall fuel k,
    (List.length ms <= fuel + k)%nat ->
    nth_error ms (while fuel (internal_skip_cond p start_i) S k)
    = find (fun m => negb (skipped_before start_i m)) (skipn k ms).
Proof.
  intros Hms. induction fuel as [|fuel IH]; intros k Hlen; cbn [while].
  - rewrite skipn_all2 by lia. apply nth_error_None. lia.
  - unfold internal_skip_cond at 1, mod_at. rewrite Hms.
    destruct (nth_error ms k) as [m|] eqn:Hm.
    + rewrite (skipn_pred_nth ms k m Hm). cbn [find].
      fold (skipped_before start_i m).
      destruct (skipped_before start_i m); cbn [negb].
      * apply IH. lia.
      * exact Hm.
    + rewrite Hm. apply nth_error_None in Hm.
      now rewrite skipn_all2 by lia.
Qed.

(** The cursor with which the walk for [start_i] begins. *)
Lemma internal_start_cursor (start_i : nat) :
  mod_at p (while (mods_len p) (internal_skip_cond p start_i) S O)
  = match modifications p with
    | Some ms => find (fun m => negb (skipped_before start_i m)) ms
    | None => None
    end.
Proof.
  unfold mod_at, mods_len. destruct (modifications p) as [ms|] eqn:Hms;
    [|reflexivity].
  rewrite (skip_loop_find ms start_i Hms) by lia. reflexivity.
Qed.

Lemma internal_stops_run (start_i k : nat) (acc : Q) (m : Modification)
    (v : Z) :
  mod_at p k = Some m ->
  position m = PosInt v ->
  forall stops base,
    for_r (internal_fragment p start_i) stops (k, acc, base)
    = if existsb (fun stop_i => v <? Z.of_nat stop_i) stops
      then Raise TypeError
      else Ok (k, acc,
               (base ++ map (fun stop_i => m_entry p start_i stop_i acc)
                          stops)%list).
Proof.
  intros Hm Hpos. induction stops as [|stop_i stops IH]; intros base;
    cbn [for_r existsb map].
  - now rewrite app_nil_r.
  - unfold internal_fragment at 1.
    apply mod_at_Some_len in Hm as Hlen.
    destruct (mods_len p) as [|fuel]; [lia|]. cbn [while_r].
    unfold internal_cond at 1. cbn [fst]. rewrite Hm, Hpos.
    cbn [lt_unguarded bind].
    destruct (v <? Z.of_nat stop_i); cbn [orb].
    + unfold internal_body. cbn [fst]. rewrite Hm. reflexivity.
    + cbn [bind]. rewrite IH. unfold append, m_entry.
      now rewrite <- app_assoc.
Qed.

Lemma internal_stops_free (start_i k : nat) (acc : Q) :
  mod_at p k = None ->
  forall stops base,
    for_r (internal_fragment p start_i) stops (k, acc, base)
    = Ok (k, acc,
          (base ++ map (fun stop_i => m_entry p start_i stop_i acc)
                     stops)%list).
Proof.
  intros Hm. induction stops as [|stop_i stops IH]; intros base;
    cbn [for_r map].
  - now rewrite app_nil_r.
  - unfold internal_fragment at 1.
    assert (Hw : while_r (mods_len p) (internal_cond p stop_i)
                   (internal_body p) (k, acc) = Ok (k, acc)).
    { destruct (mods_len p) as [|fuel]; [reflexivity|]. cbn [while_r].
      unfold internal_cond. cbn [fst]. now rewrite Hm. }
    rewrite Hw. cbn [bind]. rewrite IH. unfold append, m_entry.
    now rewrite <- app_assoc.
Qed.

Lemma find_weaker {A : Type} (f g : A -> bool) (l : list A) (x : A) :
  (forall y, f y = true -> g y = true) ->
  find f l = Some x ->
  exists x', find g l = Some x' /\ (x' = x \/ f x' = false).
Proof.
  intros Hfg. induction l as [|y l IH]; cbn [find]; [discriminate|].
  destruct (f y) eqn:Hf.
  - intros H. inversion H; subst y. rewrite (Hfg x Hf).
    exists x. split; [reflexivity | now left].
  - intros H. destruct (g y) eqn:Hg.
    + exists y. split; [reflexivity | now right].
    + now apply IH.
Qed.

(** A start index whose walk raises shows that the peptide has an inner
    modification. *)
Lemma raising_start_inner (start_i : nat) (m : Modification) (v : Z) :
  (1 <= start_i)%nat ->
  mod_at p (while (mods_len p) (internal_skip_cond p start_i) S O) = Some m ->
  position m = PosInt v ->
  existsb (fun stop_i => v <? Z.of_nat stop_i)
    (range (start_i + 2) (String.length (sequence p))) = true ->
  inner_modification p = true.
Proof.
  intros Hstart Hm Hpos Hex. rewrite internal_start_cursor in Hm.
  apply existsb_exists in Hex. destruct Hex as (stop_i & Hstop & Hv).
  apply range_In in Hstop. apply Z.ltb_lt in Hv.
  unfold inner_modification, first_inner_modification.
  destruct (modifications p) as [ms|]; [|discriminate].
  apply andb_true_iff. split; [apply Nat.leb_le; lia|].
  destruct (find_weaker (fun m => negb (skipped_before start_i m))
              (fun m => negb (skipped_before 1 m)) ms m)
    as (m' & Hfind & Hm'); [|exact Hm|].
  { intros y Hy. apply negb_true_iff in Hy. apply negb_true_iff.
    unfold skipped_before in *. apply orb_false_iff in Hy.
    destruct Hy as (Hstr & Hlt). rewrite Hstr. cbn [orb].
    destruct (position y) as [w|s]; [|reflexivity]. simpl in *.
    apply Z.ltb_ge in Hlt. apply Z.ltb_ge. lia. }
  rewrite Hfind. destruct Hm' as [->|Hskip].
  - rewrite Hpos. simpl. apply Z.ltb_lt. lia.
  - apply negb_false_iff in Hskip. apply find_some in Hfind.
    destruct Hfind as (_ & Hnot). apply negb_true_iff in Hnot.
    unfold skipped_before in *.
    destruct (position m') as [w|s]; [|discriminate]. simpl in *.
    apply Z.ltb_lt in Hskip. apply Z.ltb_lt. lia.
Qed.

Lemma internal_fragments_from_run (base : list base_fragment)
    (start_i : nat) :
  (1 <= start_i)%nat ->
  inner_modification p = false ->
  exists base', internal_fragments_from p base start_i = Ok base'.
Proof.
  intros Hstart Hinner. unfold internal_fragments_from.
  set (k := while (mods_len p) (internal_skip_cond p start_i) S O).
  destruct (mod_at p k) as [m|] eqn:Hm.
  - assert (Hexit : internal_skip_cond p start_i k = false).
    { apply (while_exit (fun s => mods_len p - s)%nat); [|lia].
      intros s Hs. unfold internal_skip_cond in Hs.
      destruct (mod_at p s) as [m0|] eqn:Hm0; [|discriminate].
      apply mod_at_Some_len in Hm0. lia. }
    unfold internal_skip_cond in Hexit. rewrite Hm in Hexit.
    destruct (position m) as [v|s] eqn:Hpos; [|discriminate].
    rewrite (internal_stops_run start_i k 0%Q m v Hm Hpos).
    destruct (existsb _ _) eqn:Hex.
    + exfalso.
      rewrite (raising_start_inner start_i m v Hstart Hm Hpos Hex)
        in Hinner.
      discriminate.
    + eexists. reflexivity.
  - rewrite (internal_stops_free start_i k 0%Q Hm). eexists. reflexivity.
Qed.

Lemma internal_fragments_run (starts : list nat) :
  Forall (fun start_i => 1 <= start_i)%nat starts ->
  inner_modification p = false ->
  forall base,
  exists base', for_r (internal_fragments_from p) starts base = Ok base'.
Proof.
  intros Hstarts Hinner.
  induction Hstarts as [|start_i starts Hstart _ IH]; intros base;
    cbn [for_r].
  - now exists base.
  - destruct (internal_fragments_from_run base start_i Hstart Hinner)
      as (base1 & ->).
    cbn [bind]. apply IH.
Qed.

Lemma internal_fragments_raise (base : list base_fragment) :
  inner_modification p = true ->
  for_r (internal_fragments_from p)
    (range 1 (String.length (sequence p))) base
  = Raise TypeError.
Proof.
  unfold inner_modification, first_inner_modification. intros Hinner.
  apply andb_true_iff in Hinner. destruct Hinner as (Hlen & Hinner).
  apply Nat.leb_le in Hlen.
  unfold range.
  destruct (String.length (sequence p) - 1)%nat as [|n] eqn:Hn; [lia|].
  cbn [seq for_r]. unfold internal_fragments_from at 1.
  set (k := while (mods_len p) (internal_skip_cond p 1) S O).
  pose proof (internal_start_cursor 1) as Hk. fold k in Hk.
  destruct (modifications p) as [ms|]; [|discriminate].
  destruct (find (fun m => negb (skipped_before 1 m)) ms) as [m|] eqn:Hfind;
    [|discriminate].
  destruct (position m) as [v|s] eqn:Hpos; [|discriminate].
  simpl in Hinner. apply Z.ltb_lt in Hinner.
  rewrite (internal_stops_run 1 k 0%Q m v Hk Hpos).
  replace (existsb _ _) with true; [reflexivity|].
  symmetry. apply existsb_exists.
  exists (String.length (sequence p) - 1)%nat.
  split; [apply range_In; lia | apply Z.ltb_lt; lia].
Qed.

End InternalRaise.

(** X5.  With "m" requested the generator raises [TypeError] on every
    peptide of at least four residues whose first modification localized
    at an index of at least 1 lies below the last index, whatever the other
    arguments are: the loop over the internal modifications adds the
    modification object to the accumulator.  In every other case the
    enumeration of the base fragments returns. *)
Theorem internal_fragments_raise_exactly :
  forall (E : Pyteomics) (order : SetOrder) (p : Proteoform)
         (ion_types : string),
    (char_in "m" ion_types = true ->
     inner_modification p = true ->
     char_in "B" (sequence p) = false ->
     char_in "Z" (sequence p) = false ->
     forall max_charge nl,
       get_theoretical_fragments E order p ion_types max_charge nl
       = Raise TypeError)
    /\ (char_in "m" ion_types && inner_modification p = false ->
        exists base, get_base_fragments order p ion_types = Ok base).
Proof.
  intros E order p ion_types.
  assert (Hshape : exists base0,
             get_base_fragments order p ion_types
             = (base_fragments <-
                  (if char_in "m" ion_types
                   then for_r (internal_fragments_from p)
                          (range 1 (String.length (sequence p))) base0
                   else Ok base0) ;;
                Ok (if char_in "p" ion_types
                    then append base_fragments (p_entry p)
                    else base_fragments))).
  { unfold get_base_fragments.
    destruct (n_terminal_fragments order p ion_types (O, 0%Q, []))
      as [[n_i n_mass] n_base].
    set (ccur0 := match modifications p with
                  | Some ms => (Some (Z.of_nat (List.length ms) - 1), 0%Q)
                  | None => (None, n_mass)
                  end).
    destruct ccur0 as [c_i c_mass].
    destruct (c_terminal_fragments order p ion_types (c_i, c_mass, n_base))
      as [[c_i' c_mass'] c_base].
    now exists c_base. }
  destruct Hshape as (base0 & Hshape). split.
  - intros Hm Hinner HB HZ max_charge nl.
    unfold get_theoretical_fragments, get_fragments_masses.
    rewrite HB, HZ, Hshape, Hm.
    now rewrite (internal_fragments_raise p base0 Hinner).
  - intros Hcond. rewrite Hshape.
    destruct (char_in "m" ion_types); cbn [andb] in Hcond.
    + destruct (internal_fragments_run p
                  (range 1 (String.length (sequence p)))) with (base := base0)
        as (base' & ->); [|assumption|].
      * apply Forall_forall. intros i Hi. apply range_In in Hi. lia.
      * cbn [bind]. eexists. reflexivity.
    + cbn [bind]. eexists. reflexivity.
Qed.

(** ** The table of common neutral losses *)

Section CommonLosses.

Variable E : Pyteomics.
Variable order : SetOrder.

Lemma neutral_loss_table_negative :
  Forall (fun item => is_some (fst item) = true -> (snd item < 0)%Q)
    _neutral_loss.
Proof.
  unfold _neutral_loss.
  repeat (constructor; [intros H; try discriminate H; reflexivity|]).
  constructor.
Qed.

Lemma Qdiv_neg_pos (D : Q) (c : Z) :
  (D < 0)%Q -> 1 <= c -> (D / inject_Z c < 0)%Q.
Proof.
  intros HD Hc. unfold Qdiv.
  assert (Hinv : (0 < / inject_Z c)%Q).
  { apply Qinv_lt_0_compat. change 0%Q with (inject_Z 0).
    rewrite <- Zlt_Qlt. lia. }
  apply Qlt_le_trans with (0 * / inject_Z c)%Q;
    [now apply Qmult_lt_compat_r | rewrite Qmult_0_l; apply Qle_refl].
Qed.

(** X17.  With the module's table of common neutral losses as the
    [neutral_losses] argument, every entry of the output that has a neutral
    loss is labelled with a minus sign and the name of a loss of the table,
    derives from an entry without neutral loss that is in the output too,
    with the same ion type and charge, and is strictly lighter than it. *)
Theorem common_losses_lower_the_mass :
  forall (p : Proteoform) (ion_types : string) (max_charge : Z) out a M,
    get_theoretical_fragments E order p ion_types max_charge
      (Some _neutral_loss) = Ok out ->
    In (a, M) out ->
    neutral_loss a = None
    \/ exists name D a0 M0 ch,
         In (Some name, D) _neutral_loss
         /\ neutral_loss a = Some ("-" ++ name)
         /\ In (a0, M0) out
         /\ neutral_loss a0 = None
         /\ ion_type a = ion_type a0
         /\ charge a = Some ch /\ charge a0 = Some ch
         /\ M = (M0 + D / inject_Z ch)%Q
         /\ (M < M0)%Q.
Proof.
  intros p ion_types max_charge out a M Hout Hin.
  destruct (get_theoretical_fragments_ok E order _ _ _ _ _ Hout)
    as (fm & nlf & Hfm & Hnlf & Heq).
  assert (Hplain : forall x, In x fm -> neutral_loss (fst x) = None).
  { intros x Hx.
    destruct (fragment_origin E order p ion_types max_charge fm x Hfm Hx)
      as [(_ & Hnone)|(_ & item & _ & ->)]; [exact Hnone | reflexivity]. }
  assert (Hkept : forall x, In x fm -> In x out).
  { intros x Hx. subst out. apply (Permutation_in _ (sorted_by_mass_perm _)).
    apply in_or_app. now left. }
  pose proof Hin as Hin'. rewrite Heq in Hin'.
  apply (Permutation_in _ (Permutation_sym (sorted_by_mass_perm _))) in Hin'.
  apply in_app_or in Hin'. destruct Hin' as [Hbase|Hloss].
  - left. exact (Hplain _ Hbase).
  - right. cbn [default_losses] in Hnlf.
    rewrite neutral_loss_fragments_of_map_r in Hnlf.
    apply bind_ok in Hnlf. destruct Hnlf as (yss & Hyss & Hnlf).
    inversion Hnlf; subst nlf; clear Hnlf.
    apply in_concat in Hloss. destruct Hloss as (ys & Hys & Hx).
    destruct (map_r_In_inv _ _ _ Hyss _ Hys) as ([[name|] D] & Hitem & Hmap);
      cbn [fst snd] in Hmap.
    2:{ inversion Hmap; subst ys. contradiction. }
    destruct (map_r_In_inv _ _ _ Hmap _ Hx) as ([a0 M0] & Ha0 & Hlf).
    apply loss_fragment_ok in Hlf.
    destruct Hlf as (ch & Hch0 & -> & Hit & Hch & Hnl).
    pose proof neutral_loss_table_negative as Hneg.
    rewrite Forall_forall in Hneg. specialize (Hneg _ Hitem eq_refl).
    cbn [snd] in Hneg.
    destruct (output_origin E order _ _ _ _ _ _ _ Hout (Hkept _ Ha0))
      as (token & ch' & _ & Hch' & _ & _ & _ & _ & Hcase).
    assert (Hpos : 1 <= ch).
    { rewrite Hch0 in Hch'. inversion Hch'; subst ch'.
      destruct Hcase as [(base & s & t & fi & mm & _ & _ & _ & Hr)
                        |(_ & -> & _)]; lia. }
    exists name, D, a0, M0, ch.
    split; [exact Hitem|]. split.
    { rewrite Hnl. unfold loss_token.
      now rewrite (proj2 (Qltb_lt D 0) Hneg). }
    split; [exact (Hkept _ Ha0)|]. split; [exact (Hplain _ Ha0)|].
    split; [exact Hit|]. split; [now rewrite Hch|]. split; [exact Hch0|].
    split; [reflexivity|].
    pose proof (Qdiv_neg_pos D ch Hneg Hpos) as Hdiv. lra.
Qed.

End CommonLosses.

(** * Examples of the further properties *)

Lemma acetylated_PEPTIDE_sorted : position_sorted acetylated_PEPTIDE.
Proof.
  unfold position_sorted, acetylated_PEPTIDE. cbn [modifications].
  repeat (constructor; try (left; reflexivity)).
Qed.

Lemma single_category_suffix_masses_witness :
  suffix_masses_as_specified sample_pyteomics listing_order
    acetylated_PEPTIDE "aby"
  /\ map (fun i => modification_sum (retained_suffix i) acetylated_PEPTIDE)
       [1; 2; 3; 4; 5; 6]%nat
     = [0 + 15.9949 + - 0.984; 0 + 15.9949 + - 0.984;
        0 + 15.9949 + - 0.984; 0 + - 0.984; 0 + - 0.984; 0 + - 0.984]%Q.
Proof.
  split; [|reflexivity].
  apply (single_category_suffix_masses sample_pyteomics listing_order
           acetylated_PEPTIDE "y"%char "aby" eq_refl
           acetylated_PEPTIDE_sorted).
Defined.

Lemma precursor_carries_all_modifications_witness :
  match get_theoretical_fragments sample_pyteomics listing_order
          acetylated_PEPTIDE "p" 2 None
  with
  | Ok out =>
      exists m,
        fast_mass sample_pyteomics "PEPTIDE" "M" 2
          (_aa_mass sample_pyteomics) = Ok m
        /\ In (plain_annotation "p" 2,
               (m + (0 + 42.0106 + 15.9949 + - 0.984) / inject_Z 2)%Q) out
  | Raise _ => False
  end.
Proof.
  destruct (get_theoretical_fragments sample_pyteomics listing_order
              acetylated_PEPTIDE "p" 2 None) as [out|e] eqn:Hout.
  - apply (precursor_carries_all_modifications sample_pyteomics
             listing_order acetylated_PEPTIDE "p" 2 None out 2 Hout eq_refl).
    lia.
  - vm_compute in Hout. discriminate.
Defined.

Lemma internal_fragment_masses_witness :
  match get_theoretical_fragments sample_pyteomics listing_order
          (unmodified "PEPTIDE") "m" 1 None
  with
  | Ok out =>
      exists m,
        fast_mass sample_pyteomics "EP" "b" 1 (_aa_mass sample_pyteomics)
        = Ok m
        /\ In (plain_annotation "m2:4" 1, (m + 0 / inject_Z 1)%Q) out
  | Raise _ => False
  end.
Proof.
  destruct (get_theoretical_fragments sample_pyteomics listing_order
              (unmodified "PEPTIDE") "m" 1 None) as [out|e] eqn:Hout.
  - apply (internal_fragment_masses sample_pyteomics listing_order
             (unmodified "PEPTIDE") "m" 1 None out 1 3 1 Hout eq_refl);
      simpl; lia.
  - vm_compute in Hout. discriminate.
Defined.

Lemma internal_fragments_raise_exactly_witness :
  get_theoretical_fragments sample_pyteomics listing_order
    acetylated_PEPTIDE "bym" 2 None = Raise TypeError
  /\ exists base,
       get_base_fragments listing_order (unmodified "PEPTIDE") "bym"
       = Ok base.
Proof.
  split.
  - apply (proj1 (internal_fragments_raise_exactly sample_pyteomics
                    listing_order acetylated_PEPTIDE "bym"));
      reflexivity.
  - apply (proj2 (internal_fragments_raise_exactly sample_pyteomics
                    listing_order (unmodified "PEPTIDE") "bym")).
    reflexivity.
Defined.

Lemma ion_types_read_as_set_witness :
  get_theoretical_fragments sample_pyteomics operand_order
    acetylated_PEPTIDE "by" 2 None
  = get_theoretical_fragments sample_pyteomics operand_order
      acetylated_PEPTIDE "ybby" 2 None.
Proof.
  apply (proj1 (ion_types_read_as_set sample_pyteomics operand_order)
           acetylated_PEPTIDE "by" "ybby" 2 None).
  - intros c. destruct c as [[] [] [] [] [] [] [] []]; reflexivity.
  - simpl. lia.
  - simpl. lia.
Defined.

Lemma output_size_witness :
  let nl := Some [(None, 0%Q); (Some "H2O", (- 18.010565)%Q)] in
  match get_theoretical_fragments sample_pyteomics listing_order
          acetylated_PEPTIDE "bbyypI" 1 nl
  with
  | Ok out =>
      List.length out
      = output_count sample_pyteomics acetylated_PEPTIDE "bbyypI" 1 nl
  | Raise _ => False
  end
  /\ output_count sample_pyteomics acetylated_PEPTIDE "bbyypI" 1 nl
     = ((((1 + 1) * 6 + 1) * 1 + 23) * (1 + 1))%nat.
Proof.
  intros nl. split; [|vm_compute; reflexivity].
  assert (Hok : exists out,
             get_theoretical_fragments sample_pyteomics listing_order
               acetylated_PEPTIDE "bbyypI" 1 nl = Ok out)
    by (vm_compute; eexists; reflexivity).
  destruct Hok as (out & Hout). rewrite Hout.
  apply (output_size sample_pyteomics listing_order acetylated_PEPTIDE
           "bbyypI" 1 nl out Hout).
Defined.

Lemma no_charge_only_immonium_witness :
  match get_theoretical_fragments sample_pyteomics listing_order
          (unmodified "PEP") "by" 0 None
  with
  | Ok out => out = []
  | Raise _ => False
  end.
Proof.
  destruct (get_theoretical_fragments sample_pyteomics listing_order
              (unmodified "PEP") "by" 0 None) as [out|e] eqn:Hout.
  - apply (no_charge_only_immonium sample_pyteomics listing_order
             (unmodified "PEP") "by" 0 None out); [lia | exact Hout |].
    reflexivity.
  - vm_compute in Hout. discriminate.
Defined.

Lemma short_sequence_has_no_fragments_witness :
  match get_theoretical_fragments sample_pyteomics listing_order
          (unmodified "P") "abcxyzm" 2 None
  with
  | Ok out => out = []
  | Raise _ => False
  end.
Proof.
  destruct (get_theoretical_fragments sample_pyteomics listing_order
              (unmodified "P") "abcxyzm" 2 None) as [out|e] eqn:Hout.
  - apply (short_sequence_has_no_fragments sample_pyteomics listing_order
             (unmodified "P") "abcxyzm" 2 None out);
      [simpl; lia | exact Hout | reflexivity | reflexivity].
  - vm_compute in Hout. discriminate.
Defined.

Lemma fragment_residues_are_known_witness :
  match get_theoretical_fragments sample_pyteomics listing_order
          (unmodified "PEPTIDE") "by" 1 None
  with
  | Ok out =>
      (forall aa,
          In aa (list_ascii_of_string "PEPTID") ->
          known_residue sample_pyteomics aa)
      /\ (forall aa,
             In aa (list_ascii_of_string "EPTIDE") ->
             known_residue sample_pyteomics aa)
  | Raise _ => False
  end.
Proof.
  destruct (get_theoretical_fragments sample_pyteomics listing_order
              (unmodified "PEPTIDE") "by" 1 None) as [out|e] eqn:Hout.
  - destruct (fragment_residues_are_known sample_pyteomics listing_order
                (unmodified "PEPTIDE") "by" 1 None out Hout)
      as (Hn & Hc & _); [lia|].
    split; [apply Hn | apply Hc]; discriminate.
  - vm_compute in Hout. discriminate.
Defined.

Lemma output_annotations_are_plain_witness :
  let nl := Some [(Some "H2O", (- 18.010565)%Q)] in
  match get_theoretical_fragments sample_pyteomics listing_order
          acetylated_PEPTIDE "by" 2 nl
  with
  | Ok ((a, M) :: _) =>
      exists ch,
        charge a = Some ch
        /\ 1 <= ch /\ (ch <= 2 \/ ch = 1)
        /\ isotope a = 0
        /\ analyte_number a = None
        /\ mz_delta a = None
        /\ adduct a = "[M+" ++ fmt_int ch ++ "H]"
        /\ forall fmt_float,
             FragmentAnnotation_str fmt_float a
             = ion_type a ++ neutral_loss_token a
                 ++ (if ch <=? 1 then "" else "^" ++ fmt_int ch)
  | _ => False
  end.
Proof.
  intros nl.
  assert (Hok : exists a M out,
             get_theoretical_fragments sample_pyteomics listing_order
               acetylated_PEPTIDE "by" 2 nl = Ok ((a, M) :: out))
    by (vm_compute; do 3 eexists; reflexivity).
  destruct Hok as (a & M & out & Hout). rewrite Hout.
  apply (output_annotations_are_plain sample_pyteomics listing_order
           acetylated_PEPTIDE "by" 2 nl _ a M Hout).
  left. reflexivity.
Defined.

Lemma common_losses_lower_the_mass_witness :
  match get_theoretical_fragments sample_pyteomics listing_order
          (unmodified "PEP") "y" 1 (Some _neutral_loss)
  with
  | Ok ((a, M) :: _) =>
      neutral_loss a = None
      \/ exists name D a0 M0 ch,
           In (Some name, D) _neutral_loss
           /\ neutral_loss a = Some ("-" ++ name)
           /\ neutral_loss a0 = None
           /\ ion_type a = ion_type a0
           /\ charge a = Some ch /\ charge a0 = Some ch
           /\ M = (M0 + D / inject_Z ch)%Q
           /\ (M < M0)%Q
  | _ => False
  end.
Proof.
  assert (Hok : exists a M out,
             get_theoretical_fragments sample_pyteomics listing_order
               (unmodified "PEP") "y" 1 (Some _neutral_loss)
             = Ok ((a, M) :: out))
    by (vm_compute; do 3 eexists; reflexivity).
  destruct Hok as (a & M & out & Hout). rewrite Hout.
  destruct (common_losses_lower_the_mass sample_pyteomics listing_order
              (unmodified "PEP") "y" 1 _ a M Hout (or_introl eq_refl))
    as [Hnone|(name & D & a0 & M0 & ch & H1 & H2 & _ & H4)].
  - left. exact Hnone.
  - right. exists name, D, a0, M0, ch.
    split; [exact H1|]. split; [exact H2|]. exact H4.
Defined.

Lemma eq_absorbs_neutral_loss_witness :
  match FragmentAnnotation_init "y4" (Some "-H2O") 0 (Some 2) None None None
  with
  | Ok a =>
      exists a',
        FragmentAnnotation_init "y4-H2O" None 0 (Some 2) None None None
        = Ok a'
        /\ FragmentAnnotation_eq (fun _ => "") a a' = true
        /\ a <> a'
  | Raise _ => False
  end.
Proof.
  destruct (FragmentAnnotation_init "y4" (Some "-H2O") 0 (Some 2) None None
              None) as [a|e] eqn:Hinit.
  - apply (eq_absorbs_neutral_loss (fun _ => "") "y4" "-H2O" 0 (Some 2) None
             None None a Hinit).
  - vm_compute in Hinit. discriminate.
Defined.

Lemma set_charge_renders_as_constructed_witness :
  match FragmentAnnotation_init "b3" None 0 (Some 1) None None None with
  | Ok a =>
      match FragmentAnnotation_set_charge a (Some 3) with
      | Ok a' =>
          adduct a' = "[M+1H]"
          /\ FragmentAnnotation_str (fun _ => "") a' = "b3^3"
      | Raise _ => False
      end
  | Raise _ => False
  end.
Proof.
  destruct (FragmentAnnotation_init "b3" None 0 (Some 1) None None None)
    as [a|e] eqn:Hinit; [|vm_compute in Hinit; discriminate].
  destruct (FragmentAnnotation_set_charge a (Some 3)) as [a'|e] eqn:Hset.
  - destruct (set_charge_renders_as_constructed (fun _ => "") "b3" None 0
                (Some 1) None None a (Some 3) a' Hinit Hset)
      as (Had & a0 & Ha0 & Hstr).
    vm_compute in Hinit. inversion Hinit; subst a.
    vm_compute in Ha0. inversion Ha0; subst a0.
    split; [exact Had | exact Hstr].
  - vm_compute in Hinit. inversion Hinit; subst a.
    vm_compute in Hset. discriminate.
Defined.


